(** * hexo-alist-movie-plugin: classification and aggregation core

    A shallow embedding of the JavaScript sources
    (the classes [ContentDetector], [PathAnalyzer], [SmartDetector] and
    [AlistAPI], and the functions around [generateSmartMovieData]), and
    the properties of the specification proved or refuted against it.

    JavaScript strings are sequences of UTF-16 code units, and the regular
    expressions of the sources (none has the [u] flag) work on code units,
    so a string is a [list N].  Regular expressions are kept as syntax
    trees, one constructor per construct of the literal in the source, and
    run by a backtracking matcher written after the continuation-passing
    semantics of ECMA-262 (22.2.2). *)

From Stdlib Require Import String Ascii.
From Stdlib Require Import List ZArith NArith Lia Bool Arith DecimalString.
From Stdlib Require Import Permutation Sorted.
Import ListNotations.

Set Implicit Arguments.
Set Warnings "-register-all".

(* ================================================================== *)
(** * JavaScript strings, regular expressions and array helpers        *)
(* ================================================================== *)

Module JS.

Definition char := N.
Definition jsstring := list char.

(** An ASCII literal of the source as a code-unit string. *)
Definition lit (s : string) : jsstring :=
  map N_of_ascii (list_ascii_of_string s).

Definition ch (s : string) : char :=
  match lit s with c :: _ => c | [] => 0%N end.

Local Open Scope N_scope.

Definition in_range (lo hi c : char) : bool := (N.leb lo c && N.leb c hi)%bool.

Definition is_digit (c : char) : bool := in_range 48 57 c.
Definition is_upper (c : char) : bool := in_range 65 90 c.
Definition is_lower (c : char) : bool := in_range 97 122 c.

(** [\w] without the [u] flag: [A-Za-z0-9_]. *)
Definition is_word (c : char) : bool :=
  (is_digit c || is_upper c || is_lower c || N.eqb c 95)%bool.

(** [\s], which is also the set [String.prototype.trim] strips:
    WhiteSpace and LineTerminator of ECMA-262. *)
Definition is_space (c : char) : bool :=
  (in_range 9 13 c || N.eqb c 32 || N.eqb c 160 || N.eqb c 5760
   || in_range 8192 8202 c || N.eqb c 8232 || N.eqb c 8233
   || N.eqb c 8239 || N.eqb c 8287 || N.eqb c 12288 || N.eqb c 65279)%bool.

(** [.] without the [s] flag: everything but the line terminators. *)
Definition is_dot (c : char) : bool :=
  negb (N.eqb c 10 || N.eqb c 13 || N.eqb c 8232 || N.eqb c 8233)%bool.

(** Canonicalize of ECMA-262 for a pattern with the [i] flag and without
    [u]: the upper case of the code unit, except that a code unit of 128 or
    more is never mapped below 128.  The patterns of the sources that carry
    [i] contain ASCII and CJK characters only; on those, comparing
    canonical forms is comparing ASCII upper cases, which is what is
    written here (a CJK character has no case, and no character from 128
    on can equal an ASCII one after Canonicalize). *)
Definition canonicalize (c : char) : char :=
  if is_lower c then c - 32 else c.

Local Close Scope N_scope.

(** ** Character sets *)

Inductive catom : Type :=
| AChar (c : char)
| ARange (lo hi : char)
| ADigit
| ASpace
| AWord.

Inductive cset : Type :=
| CChar (c : char)                 (* a literal character *)
| CAny                             (* [.] *)
| CDigit                           (* [\d] *)
| CSpace                           (* [\s] *)
| CClass (atoms : list catom)      (* [[...]] *)
| CNClass (atoms : list catom).    (* [[^...]] *)

Definition catom_test (ic : bool) (a : catom) (c : char) : bool :=
  match a with
  | AChar p => if ic then N.eqb (canonicalize c) (canonicalize p) else N.eqb c p
  | ARange lo hi =>
      if ic then (in_range lo hi c || in_range lo hi (canonicalize c)
                  || (is_upper c && in_range lo hi (c + 32)%N))%bool
      else in_range lo hi c
  | ADigit => is_digit c
  | ASpace => is_space c
  | AWord => is_word c
  end.

Definition cset_test (ic : bool) (cs : cset) (c : char) : bool :=
  match cs with
  | CChar p => if ic then N.eqb (canonicalize c) (canonicalize p) else N.eqb c p
  | CAny => is_dot c
  | CDigit => is_digit c
  | CSpace => is_space c
  | CClass atoms => existsb (fun a => catom_test ic a c) atoms
  | CNClass atoms => negb (existsb (fun a => catom_test ic a c) atoms)
  end.

(** ** Regular expressions *)

Inductive regex : Type :=
| Eps
| Chr (cs : cset)
| Seq (a b : regex)
| Alt (a b : regex)
| Rep (greedy : bool) (lo : nat) (hi : option nat) (a : regex)
| Grp (i : nat) (a : regex)        (* the i-th capturing group *)
| Bol                              (* [^] *)
| Eol                              (* [$] *)
| WordB                            (* [\b] *)
| NotBehind (cs : cset)            (* [(?<!c)] for a one-character c *)
| NotAhead (cs : cset).            (* [(?!c)] for a one-character c *)

(** A run of literal characters. *)
Fixpoint chars (l : jsstring) : regex :=
  match l with
  | [] => Eps
  | [c] => Chr (CChar c)
  | c :: l' => Seq (Chr (CChar c)) (chars l')
  end.

Definition Str (s : string) : regex := chars (lit s).

Fixpoint seq (l : list regex) : regex :=
  match l with
  | [] => Eps
  | [r] => r
  | r :: l' => Seq r (seq l')
  end.

Fixpoint alt (l : list regex) : regex :=
  match l with
  | [] => Eps
  | [r] => r
  | r :: l' => Alt r (alt l')
  end.

Definition Star (a : regex) : regex := Rep true 0 None a.           (* a* *)
Definition Plus (a : regex) : regex := Rep true 1 None a.           (* a+ *)
Definition Opt (a : regex) : regex := Rep true 0 (Some 1) a.        (* a? *)
Definition LazyStar (a : regex) : regex := Rep false 0 None a.      (* a*? *)
Definition Times (lo hi : nat) (a : regex) : regex := Rep true lo (Some hi) a. (* a{lo,hi} *)

(** ** The matcher *)

(** A matcher state: the code unit before the current position ([None] at
    the start of the input), the input from the current position on, and
    the captures made so far (latest first). *)
Record mstate : Type := MState {
  prev : option char;
  rest : jsstring;
  caps : list (nat * jsstring)
}.

Definition cont := mstate -> option mstate.

Definition is_word_opt (o : option char) : bool :=
  match o with Some c => is_word c | None => false end.

Definition consumed (from to : mstate) : jsstring :=
  firstn (length (rest from) - length (rest to)) (rest from).

Definition orelse {A} (x y : option A) : option A :=
  match x with Some _ => x | None => y end.

(** The iterations of a quantifier whose atom is matched by [ma]
    (RepeatMatcher of ECMA-262).  [fuel] bounds the number of iterations;
    an iteration made after the minimum is reached must consume input
    (step 2.b), so [lo] plus the length of the input left, plus one, is
    never exhausted. *)
Fixpoint rep_loop (ma : cont -> mstate -> option mstate) (k : cont) (g : bool)
  (fuel lo : nat) (hi : option nat) (st : mstate) {struct fuel} : option mstate :=
  match fuel with
  | O => None
  | S fuel' =>
      match hi with
      | Some O => k st
      | _ =>
          let iter :=
            ma (fun st' =>
                  if ((lo =? 0) && (length (rest st') =? length (rest st)))%bool
                  then None
                  else rep_loop ma k g fuel' (Nat.pred lo) (option_map Nat.pred hi) st') st in
          if (0 <? lo) then iter
          else if g then orelse iter (k st)
          else orelse (k st) iter
      end
  end.

Fixpoint m (ic : bool) (r : regex) (k : cont) (st : mstate) {struct r} : option mstate :=
  match r with
  | Eps => k st
  | Chr cs =>
      match rest st with
      | c :: tl => if cset_test ic cs c then k (MState (Some c) tl (caps st)) else None
      | [] => None
      end
  | Seq a b => m ic a (m ic b k) st
  | Alt a b => orelse (m ic a k st) (m ic b k st)
  | Rep g lo hi a => rep_loop (m ic a) k g (S (lo + length (rest st))) lo hi st
  | Grp i a =>
      m ic a (fun st' => k (MState (prev st') (rest st') ((i, consumed st st') :: caps st'))) st
  | Bol => match prev st with None => k st | Some _ => None end
  | Eol => match rest st with [] => k st | _ :: _ => None end
  | WordB =>
      if xorb (is_word_opt (prev st)) (is_word_opt (hd_error (rest st))) then k st else None
  | NotBehind cs =>
      match prev st with
      | Some c => if cset_test ic cs c then None else k st
      | None => k st
      end
  | NotAhead cs =>
      match rest st with
      | c :: _ => if cset_test ic cs c then None else k st
      | [] => k st
      end
  end.

(** A pattern with its flags ([g] is a matter of the method called). *)
Record pattern : Type := Pattern { p_icase : bool; p_re : regex }.

(** One attempt at the current position. *)
Definition match_here (p : pattern) (pv : option char) (s : jsstring) : option mstate :=
  m (p_icase p) (p_re p) Some (MState pv s []).

(** The result of [RegExp.prototype.exec]: index, matched text, captures. *)
Record match_result : Type := MatchResult {
  m_index : nat;
  m_text : jsstring;
  m_caps : list (nat * jsstring)
}.

Fixpoint lookup (i : nat) (l : list (nat * jsstring)) : option jsstring :=
  match l with
  | [] => None
  | (j, v) :: l' => if Nat.eqb i j then Some v else lookup i l'
  end.

(** [match[i]] for [i >= 1]; [None] is [undefined]. *)
Definition group (i : nat) (r : match_result) : option jsstring := lookup i (m_caps r).

Fixpoint exec_from (p : pattern) (pv : option char) (s : jsstring) (idx : nat)
  : option match_result :=
  match match_here p pv s with
  | Some st' => Some (MatchResult idx (firstn (length s - length (rest st')) s) (caps st'))
  | None =>
      match s with
      | [] => None
      | c :: tl => exec_from p (Some c) tl (S idx)
      end
  end.

(** [s.match(p)] for a pattern without [g]; [p.test(s)]. *)
Definition exec (p : pattern) (s : jsstring) : option match_result := exec_from p None s 0.
Definition test (p : pattern) (s : jsstring) : bool :=
  match exec p s with Some _ => true | None => false end.

(** [s.replace(p, by)] for a pattern without [g]: the first match only. *)
Fixpoint replace_first_from (p : pattern) (by_ : jsstring) (pv : option char) (s : jsstring)
  : jsstring :=
  match match_here p pv s with
  | Some st' => by_ ++ rest st'
  | None =>
      match s with
      | [] => []
      | c :: tl => c :: replace_first_from p by_ (Some c) tl
      end
  end.

Definition replace_first (p : pattern) (by_ : jsstring) (s : jsstring) : jsstring :=
  replace_first_from p by_ None s.

(** [s.replace(p, by)] for a pattern with [g].  [skip] counts the code
    units of the current match still to be dropped; after an empty match
    one code unit is copied, as [lastIndex] is advanced by one. *)
Fixpoint replace_all_from (p : pattern) (by_ : jsstring) (pv : option char) (s : jsstring)
  (skip : nat) : jsstring :=
  match s with
  | [] =>
      match skip with
      | O => match match_here p pv [] with Some _ => by_ | None => [] end
      | S _ => []
      end
  | c :: tl =>
      match skip with
      | S n => replace_all_from p by_ (Some c) tl n
      | O =>
          match match_here p pv s with
          | Some st' =>
              match length s - length (rest st') with
              | O => by_ ++ c :: replace_all_from p by_ (Some c) tl 0
              | S n => by_ ++ replace_all_from p by_ (Some c) tl n
              end
          | None => c :: replace_all_from p by_ (Some c) tl 0
          end
      end
  end.

Definition replace_all (p : pattern) (by_ : jsstring) (s : jsstring) : jsstring :=
  replace_all_from p by_ None s 0.

(** ** String methods *)

Fixpoint drop_while {A} (f : A -> bool) (l : list A) : list A :=
  match l with
  | [] => []
  | x :: l' => if f x then drop_while f l' else l
  end.

Definition trim (s : jsstring) : jsstring :=
  rev (drop_while is_space (rev (drop_while is_space s))).

Fixpoint str_eqb (a b : jsstring) : bool :=
  match a, b with
  | [], [] => true
  | x :: a', y :: b' => (N.eqb x y && str_eqb a' b')%bool
  | _, _ => false
  end.

Fixpoint starts_with (pre s : jsstring) : bool :=
  match pre, s with
  | [], _ => true
  | x :: pre', y :: s' => (N.eqb x y && starts_with pre' s')%bool
  | _ :: _, [] => false
  end.

(** [s.includes(sub)]. *)
Fixpoint includes (sub s : jsstring) : bool :=
  (starts_with sub s ||
   match s with
   | [] => false
   | _ :: s' => includes sub s'
   end)%bool.

(** [String.prototype.toLowerCase] on the code units that can reach an
    ASCII letter: A-Z, and the Kelvin sign U+212A, whose lower case is
    [k]; U+0130 becomes [i] followed by U+0307, the one mapping that
    changes the length.  The case mappings of the other code units
    (Greek, Cyrillic and so on, and the final form of sigma, which depends
    on the neighbours) are left out.  So the function is exact on ASCII
    text; on other text it is exact in the length of the result and in
    the place and value of every ASCII code unit of it, which is what a
    comparison with an ASCII literal reads.  What the code does when it
    compares two lower-cased texts that are not ASCII is outside this
    model, and the properties that depend on such a comparison are
    stated for ASCII text. *)
Definition lower_char (c : char) : jsstring :=
  if is_upper c then [(c + 32)%N]
  else if N.eqb c 8490%N then [107%N]
  else if N.eqb c 304%N then [105%N; 775%N]
  else [c].

Definition toLowerCase (s : jsstring) : jsstring := flat_map lower_char s.

(** [s.split(sep)] for a one-character separator. *)
Fixpoint split_on (sep : char) (s : jsstring) : list jsstring :=
  match s with
  | [] => [[]]
  | c :: s' =>
      match split_on sep s' with
      | cur :: parts => if N.eqb c sep then [] :: cur :: parts else (c :: cur) :: parts
      | [] => [[]]
      end
  end.

(** [parts.join(sep)]. *)
Fixpoint join (sep : jsstring) (parts : list jsstring) : jsstring :=
  match parts with
  | [] => []
  | [p] => p
  | p :: parts' => p ++ sep ++ join sep parts'
  end.

(** ** Numbers *)

(** The numbers the sources compute with are results of [parseInt] and
    array lengths: integers, or NaN. *)
Inductive num : Type :=
| NaN
| Int (z : Z).

Definition truthy_num (n : num) : bool :=
  match n with NaN => false | Int z => negb (Z.eqb z 0) end.

(** [a > b]; false when either side is NaN. *)
Definition num_gt (a : num) (b : Z) : bool :=
  match a with NaN => false | Int z => Z.ltb b z end.

Definition digit_val (c : char) : Z := Z.of_N (c - 48)%N.

Fixpoint digits_prefix (s : jsstring) : jsstring :=
  match s with
  | c :: s' => if is_digit c then c :: digits_prefix s' else []
  | [] => []
  end.

Definition dec_value (ds : jsstring) : Z :=
  fold_left (fun acc c => (10 * acc + digit_val c)%Z) ds 0%Z.

Definition hex_digit (c : char) : option Z :=
  if is_digit c then Some (Z.of_N (c - 48)%N)
  else if in_range 97%N 102%N c then Some (Z.of_N (c - 87)%N)
  else if in_range 65%N 70%N c then Some (Z.of_N (c - 55)%N)
  else None.

Fixpoint hex_prefix_value (s : jsstring) (acc : option Z) : option Z :=
  match s with
  | c :: s' =>
      match hex_digit c with
      | Some d => hex_prefix_value s' (Some (16 * match acc with Some a => a | None => 0 end + d)%Z)
      | None => acc
      end
  | [] => acc
  end.

(** [parseInt(s, radix)] with [radix] 10 ([true]) or left out ([false]):
    leading white space, a sign, then the longest prefix of digits; NaN
    when there is none.  Without a radix a [0x] prefix selects base 16.
    The result is the exact integer.  JavaScript answers the nearest
    double, which is that integer up to 2^53, so up to fifteen decimal
    digits; the patterns of the sources capture one to four digits, and
    only [_extractTmdbId] can pass more, where the properties are stated
    for at most fifteen. *)
Definition parseInt (s : jsstring) (radix10 : bool) : num :=
  let s1 := drop_while is_space s in
  let '(neg, s2) :=
    match s1 with
    | c :: s' =>
        if N.eqb c 45%N then (true, s') else if N.eqb c 43%N then (false, s') else (false, s1)
    | [] => (false, s1)
    end in
  let sign := fun z : Z => if neg then (- z)%Z else z in
  let decimal :=
    match digits_prefix s2 with
    | [] => NaN
    | ds => Int (sign (dec_value ds))
    end in
  if radix10 then decimal
  else
    match s2 with
    | z :: x :: s3 =>
        if (N.eqb z 48%N && (N.eqb x 120%N || N.eqb x 88%N))%bool
        then match hex_prefix_value s3 None with Some v => Int (sign v) | None => NaN end
        else decimal
    | _ => decimal
    end.

(** ** Arrays *)

(** [Array.prototype.sort(cmp)] is stable (ECMA-262 since 2019): an
    insertion sort that keeps equal elements in their order.  [cmp a b] is
    the sign test [cmp(a, b) > 0] of the comparator. *)
Fixpoint insert_stable {A} (gt : A -> A -> bool) (x : A) (l : list A) : list A :=
  match l with
  | [] => [x]
  | y :: l' => if gt x y then y :: insert_stable gt x l' else x :: l
  end.

Definition sort {A} (gt : A -> A -> bool) (l : list A) : list A :=
  fold_right (insert_stable gt) [] l.

(** ** Maps *)

(** A [Map] with string keys, in insertion order.
    [Map.prototype.set]: a new key goes last, an old one keeps its place. *)
Fixpoint map_set {V} (k : jsstring) (v : V) (mp : list (jsstring * V)) : list (jsstring * V) :=
  match mp with
  | [] => [(k, v)]
  | (k', v') :: mp' => if str_eqb k' k then (k, v) :: mp' else (k', v') :: map_set k v mp'
  end.

Fixpoint map_get {V} (k : jsstring) (mp : list (jsstring * V)) : option V :=
  match mp with
  | [] => None
  | (k', v') :: mp' => if str_eqb k' k then Some v' else map_get k mp'
  end.

(** [String(n)] for a non-negative integer. *)
Definition N_to_str (n : N) : jsstring :=
  lit (NilEmpty.string_of_uint (N.to_uint n)).

(** A value inside a template literal. *)
Definition to_str (o : option jsstring) : jsstring :=
  match o with Some s => s | None => lit "undefined" end.

End JS.

(* ================================================================== *)
(** * ContentDetector                                                  *)
(* ================================================================== *)

Module ContentDetector.
Import JS.

(** CJK characters of the patterns. *)
Definition c_di : char := 31532%N.      (* U+7B2C, "di" of the ordinals *)
Definition c_ji : char := 23395%N.      (* U+5B63, season *)
Definition c_jie : char := 38598%N.     (* U+96C6, episode *)
Definition c_lparen : char := 65288%N.  (* U+FF08, full-width ( *)
Definition c_rparen : char := 65289%N.  (* U+FF09, full-width ) *)

(** One entry of a directory listing.  The signature and URL fields of an
    entry are only copied into URLs and are left out. *)
Record item : Type := Item {
  name : jsstring;
  is_dir : bool
}.

Definition videoExtensions : list jsstring :=
  map lit [".mp4"; ".mkv"; ".avi"; ".mov"; ".wmv"; ".flv"; ".webm"; ".m4v"; ".ts"; ".m2ts"]%string.

(** [/\.[^.]+$/] *)
Definition re_extension : pattern :=
  Pattern false (seq [Str "."; Plus (Chr (CNClass [AChar (ch ".")])); Eol]).

Definition getFileExtension (filename : jsstring) : jsstring :=
  match exec re_extension filename with
  | Some r => toLowerCase (m_text r)
  | None => []
  end.

Definition isVideoFile (filename : jsstring) : bool :=
  existsb (str_eqb (getFileExtension filename)) videoExtensions.

(** [\d{1,2}] *)
Definition d12 : regex := Times 1 2 (Chr CDigit).

Definition seasonEpisodePatterns : list pattern :=
  [ (* /S(\d{1,2})E(\d{1,2})/i *)
    Pattern true (seq [Str "S"; Grp 1 d12; Str "E"; Grp 2 d12]);
    (* the pattern "di N ji di N jie", season N episode N in Chinese *)
    Pattern false (seq [Chr (CChar c_di); Grp 1 d12; Chr (CChar c_ji);
                        Chr (CChar c_di); Grp 2 d12; Chr (CChar c_jie)]);
    (* /Season\s*(\d{1,2})\s*Episode\s*(\d{1,2})/i *)
    Pattern true (seq [Str "Season"; Star (Chr CSpace); Grp 1 d12; Star (Chr CSpace);
                       Str "Episode"; Star (Chr CSpace); Grp 2 d12]);
    (* /(?<!\d)(\d{1,2})x(\d{1,2})(?!\d)/ *)
    Pattern false (seq [NotBehind CDigit; Grp 1 d12; Str "x"; Grp 2 d12; NotAhead CDigit]);
    (* /\[(\d{1,2})\]\[(\d{1,2})\]/ *)
    Pattern false (seq [Str "["; Grp 1 d12; Str "]"; Str "["; Grp 2 d12; Str "]"]) ].

Definition episodeOnlyPatterns : list pattern :=
  [ (* /E(\d{1,2})/i *)
    Pattern true (seq [Str "E"; Grp 1 d12]);
    (* "di N jie" *)
    Pattern false (seq [Chr (CChar c_di); Grp 1 d12; Chr (CChar c_jie)]);
    (* /Episode\s*(\d{1,2})/i *)
    Pattern true (seq [Str "Episode"; Star (Chr CSpace); Grp 1 d12]) ].

(** [parseInt(match[i], 10)]. *)
Definition group_int (i : nat) (r : match_result) : num :=
  match group i r with
  | Some s => parseInt s true
  | None => NaN
  end.

(** [null] is [None]. *)
Record season_episode : Type := SeasonEpisode {
  season : option num;
  episode : option num
}.

Fixpoint try_season_episode (ps : list pattern) (filename : jsstring) : option season_episode :=
  match ps with
  | [] => None
  | p :: ps' =>
      match exec p filename with
      | Some r =>
          let season := group_int 1 r in
          let episode := group_int 2 r in
          if (num_gt season 50 || num_gt episode 200)%bool
          then try_season_episode ps' filename            (* continue *)
          else Some (SeasonEpisode (Some season) (Some episode))
      | None => try_season_episode ps' filename
      end
  end.

Fixpoint try_episode_only (ps : list pattern) (filename : jsstring) : option season_episode :=
  match ps with
  | [] => None
  | p :: ps' =>
      match exec p filename with
      | Some r =>
          let episode := group_int 1 r in
          if num_gt episode 200
          then try_episode_only ps' filename              (* continue *)
          else Some (SeasonEpisode None (Some episode))
      | None => try_episode_only ps' filename
      end
  end.

Definition extractSeasonEpisode (filename : jsstring) : season_episode :=
  match try_season_episode seasonEpisodePatterns filename with
  | Some r => r
  | None =>
      match try_episode_only episodeOnlyPatterns filename with
      | Some r => r
      | None => SeasonEpisode None None
      end
  end.

(** The replacements of [extractTitle], in the order of the source. *)
Definition re_year : pattern :=          (* /[\(\uFF08]\d{4}[\)\uFF09]/g *)
  Pattern false (seq [Chr (CClass [AChar (ch "("); AChar c_lparen]);
                      Times 4 4 (Chr CDigit);
                      Chr (CClass [AChar (ch ")"); AChar c_rparen])]).
Definition re_resolution : pattern :=    (* /\d{3,4}[pP]/g *)
  Pattern false (seq [Times 3 4 (Chr CDigit); Chr (CClass [AChar (ch "p"); AChar (ch "P")])]).
Definition re_x26 : pattern :=           (* /[xX]26[45]/g *)
  Pattern false (seq [Chr (CClass [AChar (ch "x"); AChar (ch "X")]); Str "26";
                      Chr (CClass [AChar (ch "4"); AChar (ch "5")])]).
Definition re_h26 : pattern :=           (* /[hH]26[45]/g *)
  Pattern false (seq [Chr (CClass [AChar (ch "h"); AChar (ch "H")]); Str "26";
                      Chr (CClass [AChar (ch "4"); AChar (ch "5")])]).
Definition re_audio : pattern :=         (* /AAC|AC3|DTS|TrueHD/gi *)
  Pattern true (alt [Str "AAC"; Str "AC3"; Str "DTS"; Str "TrueHD"]).
Definition re_source : pattern :=        (* /BluRay|WEB-DL|HDTV|DVDRip/gi *)
  Pattern true (alt [Str "BluRay"; Str "WEB-DL"; Str "HDTV"; Str "DVDRip"]).
Definition re_sxxexx : pattern :=        (* /S\d{1,2}E\d{1,2}/gi *)
  Pattern true (seq [Str "S"; d12; Str "E"; d12]).
Definition re_cjk_episode : pattern :=   (* "di N ji di N jie", with g *)
  Pattern false (seq [Chr (CChar c_di); d12; Chr (CChar c_ji);
                      Chr (CChar c_di); d12; Chr (CChar c_jie)]).
Definition re_separators : pattern :=    (* /[\.\-_]+/g *)
  Pattern false (Plus (Chr (CClass [AChar (ch "."); AChar (ch "-"); AChar (ch "_")]))).
Definition re_spaces : pattern :=        (* /\s+/g *)
  Pattern false (Plus (Chr CSpace)).

(** The patterns whose matches are deleted after the extension. *)
Definition token_patterns : list pattern :=
  [re_year; re_resolution; re_x26; re_h26; re_audio; re_source; re_sxxexx; re_cjk_episode].

Definition strip_extension (title : jsstring) : jsstring := replace_first re_extension [] title.

Definition strip_tokens (title : jsstring) : jsstring :=
  fold_left (fun t p => replace_all p [] t) token_patterns title.

Definition normalize_spaces (title : jsstring) : jsstring :=
  trim (replace_all re_spaces (lit " ") (replace_all re_separators (lit " ") title)).

Definition extractTitle (filename : jsstring) : jsstring :=
  normalize_spaces (strip_tokens (strip_extension filename)).

(** The result of [analyzeFile]; [season] and [episode] are absent
    ([None], undefined) on a movie. *)
Record file_analysis : Type := FileAnalysis {
  fa_type : jsstring;
  fa_title : jsstring;
  fa_season : option (option num);
  fa_episode : option (option num);
  fa_file : item
}.

Definition truthy_field (o : option num) : bool :=
  match o with Some n => truthy_num n | None => false end.

Definition analyzeFile (file : item) : file_analysis :=
  let filename := name file in
  let seasonEpisode := extractSeasonEpisode filename in
  if (truthy_field (season seasonEpisode) || truthy_field (episode seasonEpisode))%bool
  then FileAnalysis (lit "episode") (extractTitle filename)
         (Some (season seasonEpisode)) (Some (episode seasonEpisode)) file
  else FileAnalysis (lit "movie") (extractTitle filename) None None file.

Definition seasonFolderPatterns : list pattern :=
  [ Pattern true (seq [Bol; Str "S"; Grp 1 d12; Eol]);                       (* /^S(\d{1,2})$/i *)
    Pattern true (seq [Bol; Str "Season"; Star (Chr CSpace); Grp 1 d12; Eol]); (* /^Season\s*(\d{1,2})$/i *)
    Pattern false (seq [Bol; Chr (CChar c_di); Grp 1 d12; Chr (CChar c_ji); Eol]); (* "di N ji", anchored *)
    Pattern true (seq [Bol; Str "S"; Grp 1 d12; Chr CSpace]) ].               (* /^S(\d{1,2})\s/i *)

Record season_folder : Type := SeasonFolder {
  sf_season : num;
  sf_original : jsstring
}.

Fixpoint try_season_folder (ps : list pattern) (folderName : jsstring) : option season_folder :=
  match ps with
  | [] => None
  | p :: ps' =>
      match exec p folderName with
      | Some r => Some (SeasonFolder (group_int 1 r) folderName)
      | None => try_season_folder ps' folderName
      end
  end.

Definition matchSeasonFolder (folderName : jsstring) : option season_folder :=
  try_season_folder seasonFolderPatterns folderName.

(** [analyzeDirectory]: the tallies and the primary type. *)
Record dir_analysis : Type := DirAnalysis {
  da_movies : list item;
  da_tvShows : list item;
  da_subdirectories : list item;
  da_files : list item;
  movieCount : nat;
  tvCount : nat;
  videoFileCount : nat;
  primaryType : jsstring
}.

Definition tally_item (a : dir_analysis) (it : item) : dir_analysis :=
  if is_dir it then
    match matchSeasonFolder (name it) with
    | Some _ =>
        DirAnalysis (da_movies a) (da_tvShows a ++ [it]) (da_subdirectories a ++ [it]) (da_files a)
          (movieCount a) (S (tvCount a)) (videoFileCount a) (primaryType a)
    | None =>
        DirAnalysis (da_movies a ++ [it]) (da_tvShows a) (da_subdirectories a ++ [it]) (da_files a)
          (S (movieCount a)) (tvCount a) (videoFileCount a) (primaryType a)
    end
  else
    let a' := DirAnalysis (da_movies a) (da_tvShows a) (da_subdirectories a) (da_files a ++ [it])
                (movieCount a) (tvCount a) (videoFileCount a) (primaryType a) in
    if isVideoFile (name it) then
      let fileAnalysis := analyzeFile it in
      let mc := if str_eqb (fa_type fileAnalysis) (lit "movie") then S (movieCount a') else movieCount a' in
      let tc := if str_eqb (fa_type fileAnalysis) (lit "movie") then tvCount a'
                else if str_eqb (fa_type fileAnalysis) (lit "episode") then S (tvCount a')
                else tvCount a' in
      DirAnalysis (da_movies a') (da_tvShows a') (da_subdirectories a') (da_files a')
        mc tc (S (videoFileCount a')) (primaryType a')
    else a'.

Definition verdict (mc tc : nat) : jsstring :=
  if tc <? mc then lit "movie"
  else if mc <? tc then lit "tv"
  else if ((0 <? mc) || (0 <? tc))%bool then lit "mixed"
  else lit "unknown".

Definition analyzeDirectory (items : list item) : dir_analysis :=
  let a := fold_left tally_item items (DirAnalysis [] [] [] [] 0 0 0 (lit "unknown")) in
  DirAnalysis (da_movies a) (da_tvShows a) (da_subdirectories a) (da_files a)
    (movieCount a) (tvCount a) (videoFileCount a) (verdict (movieCount a) (tvCount a)).

(** [/\(\d{4}\)/] *)
Definition re_paren_year : pattern :=
  Pattern false (seq [Str "("; Times 4 4 (Chr CDigit); Str ")"]).

(** [matchSeasonFolder(folderName)] as a condition: an object or null. *)
Definition is_season_folder (folderName : jsstring) : bool :=
  match matchSeasonFolder folderName with Some _ => true | None => false end.

Definition isMovieFolder (folderName : jsstring) : bool :=
  if test re_paren_year folderName then true
  else if (negb (is_season_folder folderName)
           && negb (truthy_field (season (extractSeasonEpisode folderName))))%bool then true
  else false.

Definition isTvFolder (folderName : jsstring) : bool :=
  if is_season_folder folderName then true
  else if truthy_field (season (extractSeasonEpisode folderName)) then true
  else false.

(** [extractSeriesName]: the loop runs from the last part of the path to
    the first. *)
Definition extractSeriesName (path : jsstring) : jsstring :=
  match find (fun part => (match part with [] => false | _ :: _ => true end
                           && negb (is_season_folder part))%bool)
             (rev (split_on (ch "/") path)) with
  | Some part => extractTitle part
  | None => lit "Unknown Series"
  end.

End ContentDetector.


(* ================================================================== *)
(** * AlistAPI                                                         *)
(* ================================================================== *)

Module AlistAPI.
Import JS.

(** What [listDirectory] hands to its caller: a rejected promise, or the
    value of [response.data.data.content], which is null for an empty
    directory. *)
Inductive listing (A : Type) : Type :=
| Rejected
| Returned (content : option (list A)).
Arguments Rejected {A}.
Arguments Returned {A} content.

(** The two requests [_getFiles] may make. *)
Inductive login_result : Type := LoginOk | LoginFails.
Inductive request_result (A : Type) : Type :=
| RequestFails
| Response (content : option (list A)).
Arguments RequestFails {A}.
Arguments Response {A} content.

(** [_getFiles]: the login is outside the [try] and its failure is
    re-thrown; a failed list request is logged and becomes [[]]. *)
Definition _getFiles {A} (has_token : bool) (login : login_result) (req : request_result A)
  : listing A :=
  if (negb has_token && match login with LoginFails => true | LoginOk => false end)%bool
  then Rejected
  else
    match req with
    | RequestFails => Returned (Some [])
    | Response content => Returned content
    end.

Definition listDirectory {A} := @_getFiles A.

End AlistAPI.

(* ================================================================== *)
(** * PathAnalyzer                                                     *)
(* ================================================================== *)

Module PathAnalyzer.
Import JS.

Definition c_di : char := ContentDetector.c_di.
Definition c_ji : char := ContentDetector.c_ji.
Definition c_jie : char := ContentDetector.c_jie.
Definition c_lbracket : char := 12304%N.  (* U+3010, left black lenticular bracket *)
Definition c_rbracket : char := 12305%N.  (* U+3011, right black lenticular bracket *)

(** A word of CJK characters in a pattern. *)
Definition cjk (l : list N) : regex := chars l.

(** The configuration of the constructor; a caller may override each
    field. *)
Record config : Type := Config {
  maxDepth : nat;
  ignoreDirs : list jsstring;
  specialDirs : list (jsstring * pattern)
}.

Definition default_specialDirs : list (jsstring * pattern) :=
  [ (* seasons: /^(Season|S|di)[\s\._-]*(\d{1,2})(?:ji)?$/i *)
    (lit "seasons",
     Pattern true (seq [Bol; Grp 1 (alt [Str "Season"; Str "S"; Chr (CChar c_di)]);
                        Star (Chr (CClass [ASpace; AChar (ch "."); AChar (ch "_"); AChar (ch "-")]));
                        Grp 2 (Times 1 2 (Chr CDigit)); Opt (Chr (CChar c_ji)); Eol]));
    (* movies: /^(Movies?|dianying|yingpian)$/i *)
    (lit "movies",
     Pattern true (seq [Bol; Grp 1 (alt [Seq (Str "Movie") (Opt (Str "s"));
                                         cjk [30005; 24433]; cjk [24433; 29255]]%N); Eol]));
    (* tvShows: /^(TV|Television|Series|dianshiju|juji)$/i *)
    (lit "tvShows",
     Pattern true (seq [Bol; Grp 1 (alt [Str "TV"; Str "Television"; Str "Series";
                                         cjk [30005; 35270; 21095]; cjk [21095; 38598]]%N); Eol]));
    (* documentaries: /^(Documentaries?|jilupian)$/i *)
    (lit "documentaries",
     Pattern true (seq [Bol; Grp 1 (alt [Seq (Str "Documentarie") (Opt (Str "s"));
                                         cjk [32426; 24405; 29255]]%N); Eol]));
    (* anime: /^(Anime|dongman|donghua)$/i *)
    (lit "anime",
     Pattern true (seq [Bol; Grp 1 (alt [Str "Anime"; cjk [21160; 28459]; cjk [21160; 30011]]%N);
                        Eol])) ].

Definition default_config : config :=
  Config 10
    (map lit [".DS_Store"; "Thumbs.db"; "@eaDir"; ".@__thumb";
              "extras"; "behind the scenes"; "deleted scenes";
              "featurettes"; "interviews"; "scenes"; "shorts";
              "trailers"; "other"; "sample"; "samples"]%string)
    default_specialDirs.

Definition _shouldIgnoreDirectory (cfg : config) (dirName : jsstring) : bool :=
  existsb (fun ignore => includes (toLowerCase ignore) (toLowerCase dirName)) (ignoreDirs cfg).

Fixpoint classify_with (dirs : list (jsstring * pattern)) (dirName : jsstring) : jsstring :=
  match dirs with
  | [] => lit "content"
  | (type, pattern) :: dirs' => if test pattern dirName then type else classify_with dirs' dirName
  end.

Definition _classifyDirectory (cfg : config) (dirName : jsstring) : jsstring :=
  classify_with (specialDirs cfg) dirName.

(** [s.lastIndexOf(".")]; [None] is -1. *)
Fixpoint lastIndexOf (c : char) (s : jsstring) (idx : nat) : option nat :=
  match s with
  | [] => None
  | x :: s' =>
      match lastIndexOf c s' (S idx) with
      | Some i => Some i
      | None => if N.eqb x c then Some idx else None
      end
  end.

Definition videoExtensions : list jsstring :=
  map lit [".mp4"; ".mkv"; ".avi"; ".mov"; ".wmv"; ".flv"; ".webm"; ".m4v"; ".ts"; ".m2ts"]%string.

(** [substring(-1)] is [substring(0)]. *)
Definition _isVideoFile (filename : jsstring) : bool :=
  let start := match lastIndexOf (ch ".") filename 0 with Some i => i | None => 0 end in
  let ext := skipn start (toLowerCase filename) in
  existsb (str_eqb ext) videoExtensions.

Record metadata : Type := Metadata {
  md_filename : jsstring;
  md_type : jsstring;
  md_title : jsstring;
  md_season : option num;
  md_episode : option num;
  md_year : option num;
  md_quality : option jsstring;
  md_format : option jsstring
}.

(** [/\b(4K|2160p|1080p|720p|480p|HD|UHD)\b/i] *)
Definition re_quality : pattern :=
  Pattern true (seq [WordB; Grp 1 (alt [Str "4K"; Str "2160p"; Str "1080p"; Str "720p";
                                        Str "480p"; Str "HD"; Str "UHD"]); WordB]).
(** [/\.(mp4|mkv|avi|mov|wmv|flv|webm|m4v|ts|m2ts)$/i] *)
Definition re_format : pattern :=
  Pattern true (seq [Str "."; Grp 1 (alt [Str "mp4"; Str "mkv"; Str "avi"; Str "mov"; Str "wmv";
                                          Str "flv"; Str "webm"; Str "m4v"; Str "ts"; Str "m2ts"]);
                     Eol]).
(** [/\b(19|20)\d{2}\b/] *)
Definition re_year : pattern :=
  Pattern false (seq [WordB; Grp 1 (alt [Str "19"; Str "20"]); Times 2 2 (Chr CDigit); WordB]).
(** [/S(\d{1,2})E(\d{1,3})/i] *)
Definition re_season_episode : pattern :=
  Pattern true (seq [Str "S"; Grp 1 (Times 1 2 (Chr CDigit)); Str "E";
                     Grp 2 (Times 1 3 (Chr CDigit))]).
(** [/(?:EP?|di)(\d{1,3})(?:jie)?/i] *)
Definition re_episode : pattern :=
  Pattern true (seq [alt [Seq (Str "E") (Opt (Str "P")); Chr (CChar c_di)];
                     Grp 1 (Times 1 3 (Chr CDigit)); Opt (Chr (CChar c_jie))]).

(** [toUpperCase] of a matched extension, which is ASCII. *)
Definition toUpperCase (s : jsstring) : jsstring := map canonicalize s.

(** [parseInt(match[i])], without a radix. *)
Definition group_int (i : nat) (r : match_result) : num :=
  match group i r with
  | Some s => parseInt s false
  | None => NaN
  end.

(** The replacements of [_extractTitle]. *)
Definition re_extension : pattern := ContentDetector.re_extension.
(** [/\b(4K|2160p|1080p|720p|480p|HD|UHD|BluRay|WEB-DL|BDRip|DVDRip)\b/gi] *)
Definition re_quality_tags : pattern :=
  Pattern true (seq [WordB; Grp 1 (alt [Str "4K"; Str "2160p"; Str "1080p"; Str "720p";
                                        Str "480p"; Str "HD"; Str "UHD"; Str "BluRay";
                                        Str "WEB-DL"; Str "BDRip"; Str "DVDRip"]); WordB]).
(** [/\b(x264|x265|H264|H265|HEVC|AVC)\b/gi] *)
Definition re_codec_tags : pattern :=
  Pattern true (seq [WordB; Grp 1 (alt [Str "x264"; Str "x265"; Str "H264"; Str "H265";
                                        Str "HEVC"; Str "AVC"]); WordB]).
(** [/\b(S\d{1,2}E\d{1,3}|Season\s*\d+|di\d+ji|di\d+jie|EP?\d+)\b/gi] *)
Definition re_episode_tags : pattern :=
  Pattern true
    (seq [WordB;
          Grp 1 (alt [seq [Str "S"; Times 1 2 (Chr CDigit); Str "E"; Times 1 3 (Chr CDigit)];
                      seq [Str "Season"; Star (Chr CSpace); Plus (Chr CDigit)];
                      seq [Chr (CChar c_di); Plus (Chr CDigit); Chr (CChar c_ji)];
                      seq [Chr (CChar c_di); Plus (Chr CDigit); Chr (CChar c_jie)];
                      seq [Str "E"; Opt (Str "P"); Plus (Chr CDigit)]]);
          WordB]).
(** [/[\[<(](.*?)[\]>)]/g], where [<] and [>] stand for the lenticular
    brackets U+3010 and U+3011 *)
Definition re_bracketed : pattern :=
  Pattern false (seq [Chr (CClass [AChar (ch "["); AChar c_lbracket; AChar (ch "(")]);
                      Grp 1 (LazyStar (Chr CAny));
                      Chr (CClass [AChar (ch "]"); AChar c_rbracket; AChar (ch ")")])]).
(** [/[._\-]+/g] *)
Definition re_separators : pattern :=
  Pattern false (Plus (Chr (CClass [AChar (ch "."); AChar (ch "_"); AChar (ch "-")]))).
Definition re_spaces : pattern := ContentDetector.re_spaces.

(** The title before the final [title || filename]. *)
Definition clean_title (filename : jsstring) : jsstring :=
  let title := replace_first re_extension [] filename in
  let title := replace_all re_quality_tags [] title in
  let title := replace_all re_codec_tags [] title in
  let title := replace_all re_year [] title in
  let title := replace_all re_episode_tags [] title in
  let title := replace_all re_bracketed [] title in
  trim (replace_all re_spaces (lit " ") (replace_all re_separators (lit " ") title)).

Definition _extractTitle (filename : jsstring) : jsstring :=
  match clean_title filename with
  | [] => filename
  | title => title
  end.

Definition _analyzeFileName (filename : jsstring) : metadata :=
  let quality := match exec re_quality filename with
                 | Some r => group 1 r
                 | None => None
                 end in
  let format := match exec re_format filename with
                | Some r => option_map toUpperCase (group 1 r)
                | None => None
                end in
  let year := match exec re_year filename with
              | Some r => Some (parseInt (m_text r) false)
              | None => None
              end in
  match exec re_season_episode filename with
  | Some r =>
      Metadata filename (lit "episode") (_extractTitle filename)
        (Some (group_int 1 r)) (Some (group_int 2 r)) year quality format
  | None =>
      match exec re_episode filename with
      | Some r =>
          Metadata filename (lit "episode") (_extractTitle filename)
            None (Some (group_int 1 r)) year quality format
      | None =>
          Metadata filename (lit "movie") (_extractTitle filename)
            None None year quality format
      end
  end.

Record video_file : Type := VideoFile {
  vf_name : jsstring;
  vf_path : jsstring;
  vf_metadata : metadata
}.

Record subdirectory : Type := Subdirectory {
  sd_name : jsstring;
  sd_path : jsstring;
  sd_type : jsstring
}.

Record path_info : Type := PathInfo {
  pi_path : jsstring;
  pi_depth : nat;
  pi_type : jsstring;
  pi_items : list jsstring;          (* the names of the files *)
  pi_videoFiles : list video_file;
  pi_subdirectories : list subdirectory
}.

Definition type_is (t : string) (f : video_file) : bool :=
  str_eqb (md_type (vf_metadata f)) (lit t).

Definition _analyzeDirectoryType (pathInfo : path_info) : jsstring :=
  let videoFiles := pi_videoFiles pathInfo in
  let subdirectories := pi_subdirectories pathInfo in
  let movieFiles := filter (type_is "movie") videoFiles in
  let episodeFiles := filter (type_is "episode") videoFiles in
  let from_subdirectories :=
    if ((0 <? length subdirectories) && (length videoFiles =? 0))%bool then
      let seasonDirs := filter (fun d => str_eqb (sd_type d) (lit "seasons")) subdirectories in
      let movieDirs := filter (fun d => str_eqb (sd_type d) (lit "movies")) subdirectories in
      if 0 <? length seasonDirs then lit "tv_show"
      else if 0 <? length movieDirs then lit "movie_library"
      else lit "content_library"
    else lit "unknown" in
  if 0 <? length videoFiles then
    if ((0 <? length movieFiles) && (length episodeFiles =? 0))%bool then lit "movie_collection"
    else if ((0 <? length episodeFiles) && (length movieFiles =? 0))%bool then lit "tv_season"
    else if ((0 <? length movieFiles) && (0 <? length episodeFiles))%bool then lit "mixed_content"
    else from_subdirectories
  else from_subdirectories.

(** ** The walk *)

(** What [alistApi.listDirectory] does at a directory: it throws (the
    promise is rejected), or it returns null, or it returns the entries. *)
Inductive outcome : Type :=
| Throws
| ReturnsNull
| ReturnsItems.

(** A remote tree: each directory with the outcome of listing it and, for
    [ReturnsItems], its entries. *)
Inductive node : Type :=
| File (nm : jsstring)
| Dir (nm : jsstring) (o : outcome) (children : list node).

Definition node_name (n : node) : jsstring :=
  match n with File nm => nm | Dir nm _ _ => nm end.

Record statistics : Type := Statistics {
  totalDirectories : nat;
  totalFiles : nat;
  st_maxDepth : nat
}.

Record analysis : Type := Analysis {
  cat_movies : list path_info;
  cat_tvShows : list path_info;
  cat_mixed : list path_info;
  cat_unknown : list path_info;
  pathMap : list (jsstring * path_info);
  stats : statistics
}.

Definition empty_analysis : analysis :=
  Analysis [] [] [] [] [] (Statistics 0 0 0).

Definition _categorizeDirectory (pathInfo : path_info) (a : analysis) : analysis :=
  let t := pi_type pathInfo in
  if (str_eqb t (lit "movie_collection") || str_eqb t (lit "movie_library"))%bool then
    Analysis (cat_movies a ++ [pathInfo]) (cat_tvShows a) (cat_mixed a) (cat_unknown a)
      (pathMap a) (stats a)
  else if (str_eqb t (lit "tv_season") || str_eqb t (lit "tv_show"))%bool then
    Analysis (cat_movies a) (cat_tvShows a ++ [pathInfo]) (cat_mixed a) (cat_unknown a)
      (pathMap a) (stats a)
  else if str_eqb t (lit "mixed_content") then
    Analysis (cat_movies a) (cat_tvShows a) (cat_mixed a ++ [pathInfo]) (cat_unknown a)
      (pathMap a) (stats a)
  else
    Analysis (cat_movies a) (cat_tvShows a) (cat_mixed a) (cat_unknown a ++ [pathInfo])
      (pathMap a) (stats a).

Definition enter_directory (depth : nat) (a : analysis) : analysis :=
  Analysis (cat_movies a) (cat_tvShows a) (cat_mixed a) (cat_unknown a) (pathMap a)
    (Statistics (S (totalDirectories (stats a))) (totalFiles (stats a))
       (Nat.max (st_maxDepth (stats a)) depth)).

Definition count_file (a : analysis) : analysis :=
  Analysis (cat_movies a) (cat_tvShows a) (cat_mixed a) (cat_unknown a) (pathMap a)
    (Statistics (totalDirectories (stats a)) (S (totalFiles (stats a))) (st_maxDepth (stats a))).

Definition set_path (currentPath : jsstring) (pathInfo : path_info) (a : analysis) : analysis :=
  Analysis (cat_movies a) (cat_tvShows a) (cat_mixed a) (cat_unknown a)
    (map_set currentPath pathInfo (pathMap a)) (stats a).

Definition child_path (currentPath nm : jsstring) : jsstring := currentPath ++ lit "/" ++ nm.

Definition add_subdirectory (cfg : config) (currentPath nm : jsstring) (p : path_info) : path_info :=
  PathInfo (pi_path p) (pi_depth p) (pi_type p) (pi_items p) (pi_videoFiles p)
    (pi_subdirectories p ++ [Subdirectory nm (child_path currentPath nm) (_classifyDirectory cfg nm)]).

Definition add_file (currentPath nm : jsstring) (p : path_info) : path_info :=
  PathInfo (pi_path p) (pi_depth p) (pi_type p) (pi_items p ++ [nm])
    (if _isVideoFile nm
     then pi_videoFiles p ++ [VideoFile nm (child_path currentPath nm) (_analyzeFileName nm)]
     else pi_videoFiles p)
    (pi_subdirectories p).

Definition finish_directory (currentPath : jsstring) (p : path_info) (a : analysis) : analysis :=
  let p' := PathInfo (pi_path p) (pi_depth p) (_analyzeDirectoryType p) (pi_items p)
              (pi_videoFiles p) (pi_subdirectories p) in
  set_path currentPath p' (_categorizeDirectory p' a).

(** [_analyzeRecursive] at the directory [n], whose path is [currentPath].
    A rejected [listDirectory] lands in the [catch], which logs and
    returns; the mutable [analysis] is threaded through. *)
Fixpoint _analyzeRecursive (cfg : config) (n : node) (currentPath : jsstring)
  (a : analysis) (depth : nat) {struct n} : analysis :=
  match n with
  | File _ => a
  | Dir _ o children =>
      if maxDepth cfg <? depth then a
      else
        match o with
        | Throws => a
        | ReturnsNull => a
        | ReturnsItems =>
            match children with
            | [] => a
            | _ :: _ =>
                (fix each (items : list node) (p : path_info) (a : analysis) {struct items}
                   : analysis :=
                   match items with
                   | [] => finish_directory currentPath p a
                   | item :: items' =>
                       match item with
                       | Dir nm _ _ =>
                           if _shouldIgnoreDirectory cfg nm then each items' p a
                           else each items' (add_subdirectory cfg currentPath nm p)
                                  (_analyzeRecursive cfg item (child_path currentPath nm) a
                                     (S depth))
                       | File nm =>
                           each items' (add_file currentPath nm p)
                             (if _isVideoFile nm then count_file a else a)
                       end
                   end)
                  children
                  (PathInfo currentPath depth (lit "unknown") [] [] [])
                  (enter_directory depth a)
            end
        end
  end.

(** The loop over the entries of one directory, as a function of its
    own; [_analyzeRecursive] runs it on the entries it was given (lemma
    [_analyzeRecursive_dir]). *)
Section EachItem.
Variable cfg : config.
Variable currentPath : jsstring.
Variable depth : nat.

Fixpoint each_item (items : list node) (p : path_info) (a : analysis) {struct items} : analysis :=
  match items with
  | [] => finish_directory currentPath p a
  | item :: items' =>
      match item with
      | Dir nm _ _ =>
          if _shouldIgnoreDirectory cfg nm then each_item items' p a
          else each_item items' (add_subdirectory cfg currentPath nm p)
                 (_analyzeRecursive cfg item (child_path currentPath nm) a (S depth))
      | File nm =>
          each_item items' (add_file currentPath nm p)
            (if _isVideoFile nm then count_file a else a)
      end
  end.

End EachItem.

(** The directory that a listing describes. *)
Definition dir_of_listing (nm : jsstring) (l : AlistAPI.listing node) : node :=
  match l with
  | AlistAPI.Rejected => Dir nm Throws []
  | AlistAPI.Returned None => Dir nm ReturnsNull []
  | AlistAPI.Returned (Some items) => Dir nm ReturnsItems items
  end.

(** The tree in which every directory whose listing is rejected is an
    empty directory instead. *)
Fixpoint as_empty (n : node) : node :=
  match n with
  | File nm => File nm
  | Dir nm Throws _ => Dir nm ReturnsItems []
  | Dir nm o children => Dir nm o (map as_empty children)
  end.

(** ** The report of [analyzePath] *)

(** [statistics.avgFilesPerDir]: 0 as initialised, or the quotient
    [totalFiles / totalDirectories] of the two counts, kept as the pair. *)
Inductive average : Type :=
| AvgZero
| AvgQuotient (files directories : nat).

Record full_statistics : Type := FullStatistics {
  fs_counts : statistics;
  avgFilesPerDir : average;
  movieDirectories : nat;
  tvDirectories : nat;
  mixedDirectories : nat;
  unknownDirectories : nat
}.

Definition _calculateStatistics (a : analysis) : full_statistics :=
  FullStatistics (stats a)
    (if 0 <? totalDirectories (stats a)
     then AvgQuotient (totalFiles (stats a)) (totalDirectories (stats a))
     else AvgZero)
    (length (cat_movies a)) (length (cat_tvShows a))
    (length (cat_mixed a)) (length (cat_unknown a)).

Definition _determineStructureType (a : analysis) : jsstring :=
  let movies := length (cat_movies a) in
  let tvShows := length (cat_tvShows a) in
  let mixed := length (cat_mixed a) in
  let unknown := length (cat_unknown a) in
  if 0 <? mixed then lit "mixed"
  else if ((0 <? movies) && (0 <? tvShows))%bool then lit "categorized"
  else if ((0 <? movies) && (tvShows =? 0))%bool then lit "movies_only"
  else if ((0 <? tvShows) && (movies =? 0))%bool then lit "tv_only"
  else if 0 <? unknown then lit "unstructured"
  else lit "empty".

(** The object [analyzePath] returns; its [depth] is written once, as 0. *)
Record path_analysis : Type := PathAnalysis {
  pa_rootPath : jsstring;
  pa_structure : jsstring;
  pa_depth : nat;
  pa_analysis : analysis;            (* categories and pathMap *)
  pa_statistics : full_statistics
}.

(** [analyzePath], on the remote tree below [rootPath].  The walk catches
    what a listing throws, so the outer [catch] is never entered. *)
Definition analyzePath (cfg : config) (root : node) (rootPath : jsstring) : path_analysis :=
  let a := _analyzeRecursive cfg root rootPath empty_analysis 0 in
  PathAnalysis rootPath (_determineStructureType a) 0 a (_calculateStatistics a).

End PathAnalyzer.


(* ================================================================== *)
(** * SmartDetector                                                    *)
(* ================================================================== *)

Module SmartDetector.
Import JS.
Import ContentDetector.
Import AlistAPI.

(** An episode object.  [_getSeasonEpisodes] writes [episode_number],
    [name], [url], [download_url] and [path]; the single-file branch of
    [_analyzePathWithConfig] writes [season], [episode], [title], [path]
    and [file].  A field that is not written is undefined, [None]. *)
Record file_ref : Type := FileRef {
  f_name : jsstring;
  f_path : jsstring;
  f_sign : option jsstring;
  f_url : option jsstring;
  f_download_url : option jsstring
}.

Record episode_ref : Type := EpisodeRef {
  e_episode_number : option num;
  e_name : option jsstring;
  e_url : option jsstring;
  e_download_url : option jsstring;
  e_episode : option num;
  e_title : option jsstring;
  e_path : jsstring;
  e_file : option file_ref
}.

(** A season object of a show.  The detector writes [season] and
    [episodes]; [_enrichWithTmdbData] replaces the seasons of a show by
    objects with [season_number] and [episodes], which have no [season].
    A field that is not written is undefined, [None]. *)
Record season_fragment : Type := SeasonFragment {
  sf_season : option num;
  sf_season_number : option num;
  sf_episodes : list episode_ref
}.

Record show : Type := Show {
  s_title : jsstring;
  s_path : jsstring;
  s_seasons : list season_fragment
}.

(** [x || d] on a number. *)
Definition num_or (x : option num) (d : Z) : Z :=
  match x with
  | Some (Int z) => if Z.eqb z 0 then d else z
  | _ => d
  end.

Definition strip_ext_name (nm : jsstring) : jsstring := replace_first re_extension [] nm.

(** An entry has no URL and no signature of its own in this model, so
    [item.url || ...] is the URL built from [alistApi.baseUrl]. *)
Definition push_episode (baseUrl seasonPath : jsstring) (episodes : list episode_ref) (it : item)
  : list episode_ref :=
  if (negb (is_dir it) && isVideoFile (name it))%bool then
    let episodeInfo := extractSeasonEpisode (name it) in
    let title := extractTitle (name it) in
    let path := seasonPath ++ lit "/" ++ name it in
    let url := baseUrl ++ lit "/d" ++ path in
    if truthy_field (episode episodeInfo) then
      episodes ++ [EpisodeRef (episode episodeInfo) (Some title) (Some url) (Some url)
                     None None path None]
    else
      episodes ++ [EpisodeRef (Some (Int (Z.of_nat (length episodes) + 1)))
                     (Some (strip_ext_name (name it))) (Some url) (Some url)
                     None None path None]
  else episodes.

(** The comparator [(a.episode || 0) - (b.episode || 0)], as "is positive". *)
Definition episode_gt (a b : episode_ref) : bool :=
  Z.ltb 0 (num_or (e_episode a) 0 - num_or (e_episode b) 0).

(** [_getSeasonEpisodes]; iterating over null throws, and every throw
    ends in the [catch], which returns [[]]. *)
Definition _getSeasonEpisodes (baseUrl : jsstring) (l : listing item) (seasonPath : jsstring)
  : list episode_ref :=
  match l with
  | Returned (Some items) =>
      sort episode_gt (fold_left (push_episode baseUrl seasonPath) items [])
  | Returned None => []
  | Rejected => []
  end.

(** The patterns of [_extractSeriesName]. *)
Definition c_quan : char := 20840%N.   (* U+5168 *)
Definition c_yu : char := 35821%N.     (* U+8BED *)
Definition c_zi : char := 23383%N.     (* U+5B57 *)

Definition re_bare_s : pattern :=        (* /^S\d{2}$/ *)
  Pattern false (seq [Bol; Str "S"; Times 2 2 (Chr CDigit); Eol]).
Definition re_bare_cjk : pattern :=      (* "di N+ ji", anchored *)
  Pattern false (seq [Bol; Chr (CChar c_di); Plus (Chr CDigit); Chr (CChar c_ji); Eol]).
Definition re_parens : pattern :=        (* /[\(\uFF08].*?[\)\uFF09]/g *)
  Pattern false (seq [Chr (CClass [AChar (ch "("); AChar c_lparen]); LazyStar (Chr CAny);
                      Chr (CClass [AChar (ch ")"); AChar c_rparen])]).
Definition re_season_span : pattern :=   (* /S\d{2}-S\d{2}<ji quan jie>/g *)
  Pattern false (seq [Str "S"; Times 2 2 (Chr CDigit); Str "-"; Str "S"; Times 2 2 (Chr CDigit);
                      Chr (CChar c_ji); Chr (CChar c_quan); Chr (CChar c_jie)]).
Definition re_4p : pattern :=            (* /\d{4}P/g *)
  Pattern false (seq [Times 4 4 (Chr CDigit); Str "P"]).
Definition re_subtitle : pattern :=      (* /[<zhong ying ri han>]<yu>.*?<zi>/g *)
  Pattern false (seq [Chr (CClass [AChar 20013%N; AChar 33521%N; AChar 26085%N; AChar 38889%N]);
                      Chr (CChar c_yu); LazyStar (Chr CAny); Chr (CChar c_zi)]).

Definition is_bare_season (s : jsstring) : bool := (test re_bare_s s || test re_bare_cjk s)%bool.

Definition nonempty (s : jsstring) : bool := match s with [] => false | _ :: _ => true end.

(** The loop [for (i = pathParts.length - 2; i >= 0; i--)]. *)
Definition series_part_of_path (path : jsstring) : option jsstring :=
  find (fun part => (nonempty part && negb (is_bare_season part))%bool)
       (rev (removelast (split_on (ch "/") path))).

Definition clean_series_name (seriesName : jsstring) : jsstring :=
  let seriesName := replace_all re_parens [] seriesName in
  let seriesName := replace_all re_season_span [] seriesName in
  let seriesName := replace_all re_4p [] seriesName in
  let seriesName := replace_all re_subtitle [] seriesName in
  trim (replace_all re_spaces (lit " ") seriesName).

Definition _extractSeriesName (sh : show) : jsstring :=
  if nonempty (s_title sh) then
    let seriesName :=
      if is_bare_season (s_title sh) then
        if nonempty (s_path sh) then
          match series_part_of_path (s_path sh) with
          | Some part => part
          | None => s_title sh
          end
        else s_title sh
      else s_title sh in
    match clean_series_name seriesName with
    | [] => s_title sh                     (* seriesName || show.title *)
    | cleaned => cleaned
    end
  else lit "Unknown Series".

Record series : Type := Series {
  sr_title : jsstring;
  sr_type : jsstring;
  sr_seasons : list season_fragment;
  sr_paths : list jsstring;
  sr_path : option jsstring
}.

(** One iteration of the loop over [tvShows]; [seriesMap] keeps the
    insertion order of its keys. *)
Fixpoint merge_into (seriesName : jsstring) (sh : show) (seriesMap : list (jsstring * series))
  : list (jsstring * series) :=
  match seriesMap with
  | [] =>
      [(seriesName,
        Series seriesName (lit "tvshow") (s_seasons sh)
          (filter nonempty [s_path sh]) None)]
  | (k, existingSeries) :: rest =>
      if str_eqb k seriesName then
        (k, Series (sr_title existingSeries) (sr_type existingSeries)
              (sr_seasons existingSeries ++ s_seasons sh)
              (if (nonempty (s_path sh)
                   && negb (existsb (str_eqb (s_path sh)) (sr_paths existingSeries)))%bool
               then sr_paths existingSeries ++ [s_path sh]
               else sr_paths existingSeries)
              (sr_path existingSeries)) :: rest
      else (k, existingSeries) :: merge_into seriesName sh rest
  end.

(** The comparator [(a.season || 1) - (b.season || 1)], as "is positive". *)
Definition season_key (f : season_fragment) : Z := num_or (sf_season f) 1.
Definition season_gt (a b : season_fragment) : bool := Z.ltb 0 (season_key a - season_key b).

Definition finish_series (sr : series) : series :=
  Series (sr_title sr) (sr_type sr) (sort season_gt (sr_seasons sr)) (sr_paths sr)
    (match sr_paths sr with
     | firstPath :: _ => Some (join (lit "/") (removelast (split_on (ch "/") firstPath)))
     | [] => sr_path sr
     end).

Definition _mergeTvSeasons (tvShows : list show) : list series :=
  map (fun kv => finish_series (snd kv))
      (fold_left (fun seriesMap sh => merge_into (_extractSeriesName sh) sh seriesMap) tvShows []).

(** [_getMovieFiles]. *)
Definition movie_file (baseUrl moviePath : jsstring) (it : item) : file_ref :=
  let url := baseUrl ++ lit "/d" ++ moviePath ++ lit "/" ++ name it in
  FileRef (name it) (moviePath ++ lit "/" ++ name it) None (Some url) (Some url).

Definition _getMovieFiles (baseUrl : jsstring) (l : listing item) (moviePath : jsstring)
  : list file_ref :=
  match l with
  | Returned (Some items) =>
      map (movie_file baseUrl moviePath)
          (filter (fun it => (negb (is_dir it) && isVideoFile (name it))%bool) items)
  | Returned None => []
  | Rejected => []
  end.

(** The result of [_analyzeSubdirectory]: a movie or a show. *)
Inductive sub_result : Type :=
| SubMovie (title path : jsstring) (files : list file_ref)
| SubTv (content : show).

(** [_analyzeSubdirectory], with [alistApi.listDirectory] as a function
    of the path.  Every listing of the body is inside its [try]; the
    [catch] answers a movie without files. *)
Definition _analyzeSubdirectory (baseUrl : jsstring) (listDirectory : jsstring -> listing item)
  (it : item) (parentPath : jsstring) : sub_result :=
  let fullPath := parentPath ++ lit "/" ++ name it in
  match matchSeasonFolder (name it) with
  | Some seasonMatch =>
      SubTv (Show (name it) fullPath
               [SeasonFragment (Some (ContentDetector.sf_season seasonMatch)) None
                  (_getSeasonEpisodes baseUrl (listDirectory fullPath) fullPath)])
  | None =>
      match listDirectory fullPath with
      | Returned (Some subItems) =>
          let analysis := analyzeDirectory subItems in
          let hasSeasonEpisodeFiles :=
            existsb (fun subItem =>
                       (negb (is_dir subItem) && isVideoFile (name subItem)
                        && truthy_field (episode (extractSeasonEpisode (name subItem))))%bool)
                    subItems in
          let hasSeasonFolders :=
            existsb (fun subItem =>
                       (is_dir subItem
                        && match matchSeasonFolder (name subItem) with
                           | Some _ => true
                           | None => false
                           end)%bool)
                    subItems in
          if (hasSeasonEpisodeFiles || hasSeasonFolders
              || str_eqb (primaryType analysis) (lit "tv"))%bool
          then
            SubTv (Show (name it) fullPath
                     [SeasonFragment (Some (Int 1)) None
                        (_getSeasonEpisodes baseUrl (listDirectory fullPath) fullPath)])
          else
            SubMovie (name it) fullPath
              (_getMovieFiles baseUrl (listDirectory fullPath) fullPath)
      | _ => SubMovie (name it) fullPath []
      end
  end.

(** The shows that [_analyzePathWithConfig] collects from the
    sub-directories of one configured path. *)
Fixpoint shows_of (l : list sub_result) : list show :=
  match l with
  | [] => []
  | SubTv sh :: l' => sh :: shows_of l'
  | SubMovie _ _ _ :: l' => shows_of l'
  end.

Definition directory_shows (baseUrl : jsstring) (listDirectory : jsstring -> listing item)
  (path : jsstring) : list show :=
  match listDirectory path with
  | Returned (Some items) =>
      shows_of (map (fun it => _analyzeSubdirectory baseUrl listDirectory it path)
                    (filter is_dir items))
  | _ => []
  end.

(** ** One configured path *)

(** A movie as [_analyzePathWithConfig] and [_analyzeSubdirectory] build
    it; its [type] and [mediaType] are the constant ['movie']. *)
Record movie : Type := Movie {
  mv_title : jsstring;
  mv_path : jsstring;
  mv_files : list file_ref
}.

Record path_statistics : Type := PathStatistics {
  ps_movies : nat;
  ps_tvShows : nat;
  ps_episodes : nat;
  ps_files : nat
}.

(** The result for one path; [pr_error] tells whether it has an [error]
    message, which it has when the [catch] built it. *)
Record path_result : Type := PathResult {
  pr_path : jsstring;
  pr_type : jsstring;
  pr_error : bool;
  pr_movies : list movie;
  pr_tvShows : list show;
  pr_statistics : path_statistics
}.

(** [{...item, path, sign: item.sign}] *)
Definition entry_file (path : jsstring) (it : item) : file_ref :=
  FileRef (name it) (path ++ lit "/" ++ name it) None None None.

Definition single_movie (path : jsstring) (it : item) (title : jsstring) : movie :=
  Movie title (path ++ lit "/" ++ name it) [entry_file path it].

(** A video file with episode marks, as a show of its own.  The [season]
    written into the episode repeats the season of the fragment. *)
Definition single_episode (path : jsstring) (it : item) (title : jsstring) : show :=
  let seasonInfo := extractSeasonEpisode (name it) in
  Show title (path ++ lit "/" ++ name it)
    [SeasonFragment (Some (Int (num_or (season seasonInfo) 1))) None
       [EpisodeRef None None None None
          (Some (Int (num_or (episode seasonInfo) 1))) (Some title)
          (path ++ lit "/" ++ name it) (Some (entry_file path it))]].

(** [movies], [tvShows] and [totalFiles] of the loop. *)
Record collected : Type := Collected {
  c_movies : list movie;
  c_tvShows : list show;
  c_totalFiles : nat
}.

Definition analyze_entry (baseUrl : jsstring) (listDirectory : jsstring -> listing item)
  (path : jsstring) (acc : collected) (it : item) : collected :=
  if is_dir it then
    match _analyzeSubdirectory baseUrl listDirectory it path with
    | SubMovie t p fs => Collected (c_movies acc ++ [Movie t p fs]) (c_tvShows acc) (c_totalFiles acc)
    | SubTv sh => Collected (c_movies acc) (c_tvShows acc ++ [sh]) (c_totalFiles acc)
    end
  else if isVideoFile (name it) then
    let fileResult := analyzeFile it in
    if str_eqb (fa_type fileResult) (lit "movie") then
      Collected (c_movies acc ++ [single_movie path it (fa_title fileResult)])
        (c_tvShows acc) (S (c_totalFiles acc))
    else if str_eqb (fa_type fileResult) (lit "episode") then
      Collected (c_movies acc)
        (c_tvShows acc ++ [single_episode path it (fa_title fileResult)])
        (S (c_totalFiles acc))
    else Collected (c_movies acc) (c_tvShows acc) (S (c_totalFiles acc))
  else acc.

Definition count_show_episodes (tvShows : list show) : nat :=
  fold_left (fun total sh =>
               total + fold_left (fun seasonTotal f => seasonTotal + length (sf_episodes f))
                         (s_seasons sh) 0)
            tvShows 0.

(** [_analyzePathWithConfig] for the path configuration [{path, type}].
    Reading [items.length] of null throws, and every throw ends in the
    [catch]. *)
Definition _analyzePathWithConfig (baseUrl : jsstring) (listDirectory : jsstring -> listing item)
  (path type : jsstring) : path_result :=
  match listDirectory path with
  | Returned (Some items) =>
      let c := fold_left (analyze_entry baseUrl listDirectory path) items (Collected [] [] 0) in
      PathResult path type false (c_movies c) (c_tvShows c)
        (PathStatistics (length (c_movies c)) (length (c_tvShows c))
           (count_show_episodes (c_tvShows c)) (c_totalFiles c))
  | _ => PathResult path type true [] [] (PathStatistics 0 0 0 0)
  end.

(** ** Merging the results of the paths *)

(** The key [`${item.title}_${item.path}`]. *)
Definition content_key (title path : jsstring) : jsstring := title ++ lit "_" ++ path.

(** [items.filter(...)] with the set [seen] of the keys met so far. *)
Fixpoint deduplicate_from {A} (key : A -> jsstring) (seen : list jsstring) (items : list A)
  : list A :=
  match items with
  | [] => []
  | item :: items' =>
      if existsb (str_eqb (key item)) seen then deduplicate_from key seen items'
      else item :: deduplicate_from key (key item :: seen) items'
  end.

Definition _deduplicateContent {A} (key : A -> jsstring) (items : list A) : list A :=
  deduplicate_from key [] items.

Definition movie_key (mv : movie) : jsstring := content_key (mv_title mv) (mv_path mv).
Definition show_key (sh : show) : jsstring := content_key (s_title sh) (s_path sh).

Definition _mergeResults (pathResults : list path_result) : list movie * list show :=
  let kept := filter (fun result => negb (pr_error result)) pathResults in
  (_deduplicateContent movie_key (flat_map pr_movies kept),
   _deduplicateContent show_key (flat_map pr_tvShows kept)).

(** ** [detectAndAnalyze] without [options.tmdbApi] *)

Record detection : Type := Detection {
  d_paths : list path_result;
  totalPaths : nat;
  totalMovies : nat;
  totalTvShows : nat;
  d_movies : list movie;
  d_tvShows : list series            (* [organized.tvShows] *)
}.

(** The configured paths are pairs [(path, type)].  [organized.tvShows]
    is replaced by the merged series when it is not empty. *)
Definition detectAndAnalyze (baseUrl : jsstring) (listDirectory : jsstring -> listing item)
  (paths : list (jsstring * jsstring)) : detection :=
  let results :=
    map (fun pathConfig =>
           _analyzePathWithConfig baseUrl listDirectory (fst pathConfig) (snd pathConfig))
        paths in
  let movies := flat_map pr_movies results in
  let tvShows := flat_map pr_tvShows results in
  Detection results (length paths)
    (fold_left (fun total r => total + length (pr_movies r)) results 0)
    (if 0 <? length tvShows then length (_mergeTvSeasons tvShows)
     else fold_left (fun total r => total + length (pr_tvShows r)) results 0)
    movies
    (if 0 <? length tvShows then _mergeTvSeasons tvShows else []).

End SmartDetector.

(* ================================================================== *)
(** * The catalogue: enrichment, the movie/TV split, version groups    *)
(* ================================================================== *)

Module Generator.
Import JS.
Import SmartDetector.

(** A season of a catalogue entry.  The TV branch writes
    [season_number]; a show without enrichment keeps its fragments, which
    have [season]; a season object of the external database has no
    [episodes]. *)
Record cat_season : Type := CatSeason {
  cs_season : option num;
  cs_season_number : option num;
  cs_episodes : option (list episode_ref)
}.

(** A catalogue entry: an object with the fields below, [None] when the
    object does not have the field. *)
Record content : Type := Content {
  id : jsstring;
  title : option jsstring;
  media_type : option jsstring;
  directory_type : option jsstring;
  original_tmdb_id : option N;
  files : option (list file_ref);
  file_count : option nat;
  seasons : option (list cat_season);
  episode_count : option nat;
  number_of_seasons : option nat;
  number_of_episodes : option nat
}.

(** The answer of the external database: its numeric id and the other
    fields of the object, which [{...tmdbInfo}] copies. *)
Record tmdb_info : Type := TmdbInfo {
  t_id : N;
  t_fields : content
}.

Inductive lookup_result : Type :=
| LookupThrows
| NotFound
| Found (info : tmdb_info).

Record detected_movie : Type := DetectedMovie {
  dm_title : jsstring;
  dm_path : jsstring;
  dm_files : list file_ref
}.

(** A show of [detectedTvShows].  Its season objects carry [season] when
    they come from the detector as they are, and [season_number] without
    [season] when [_enrichWithTmdbData] has rewritten them. *)
Record detected_tv : Type := DetectedTv {
  dt_title : jsstring;
  dt_seasons : list season_fragment
}.

Definition is_str (o : option jsstring) (s : string) : bool :=
  match o with Some x => str_eqb x (lit s) | None => false end.

Definition count_episodes (l : list cat_season) : nat :=
  fold_left (fun total season =>
               total + match cs_episodes season with Some es => length es | None => 0 end) l 0.

Section Enrichment.

(** [config.alist.url], [tmdbAPI.getMediaDetails(title, title, type)], and
    the text after [unknown_movie_] or [unknown_tv_] in the n-th
    placeholder id (a time stamp and a random string). *)
Variable base_url : jsstring.
Variable getMediaDetails : jsstring -> jsstring -> lookup_result.
Variable placeholder : nat -> jsstring.

(** [file.sign ? `?sign=${file.sign}` : ''].  An empty string is falsy. *)
Definition sign_suffix (sign : option jsstring) : jsstring :=
  match sign with
  | Some ((_ :: _) as s) => lit "?sign=" ++ s
  | _ => []
  end.

(** [o || d] on a string: the whole string when it is not empty. *)
Definition or_str (o : option jsstring) (d : jsstring) : jsstring :=
  match o with
  | Some ((_ :: _) as s) => s
  | _ => d
  end.

Definition file_url (file : file_ref) : jsstring :=
  base_url ++ lit "/d" ++ f_path file ++ sign_suffix (f_sign file).

Definition with_urls (file : file_ref) : file_ref :=
  FileRef (f_name file) (f_path file) (f_sign file)
    (Some (or_str (f_url file) (file_url file)))
    (Some (or_str (f_download_url file) (file_url file))).

(** One iteration of the loop over the movies; [n] numbers the
    iterations. *)
Definition add_movie (movieMap : list (jsstring * content)) (n : nat) (movie : detected_movie)
  : list (jsstring * content) :=
  match getMediaDetails (dm_title movie) (lit "movie") with
  | LookupThrows => movieMap
  | Found tmdbInfo =>
      let uniqueId := N_to_str (t_id tmdbInfo) in
      match map_get uniqueId movieMap with
      | Some existingMovie =>
          match files existingMovie with
          | Some fs =>
              let fs' := fs ++ dm_files movie in
              map_set uniqueId
                (Content (id existingMovie) (title existingMovie) (media_type existingMovie)
                   (directory_type existingMovie) (original_tmdb_id existingMovie)
                   (Some fs') (Some (length fs'))
                   (seasons existingMovie) (episode_count existingMovie)
                   (number_of_seasons existingMovie) (number_of_episodes existingMovie))
                movieMap
          | None => movieMap          (* [undefined.push] throws; caught *)
          end
      | None =>
          let t := t_fields tmdbInfo in
          map_set uniqueId
            (Content uniqueId (title t) (media_type t) (Some (lit "movie")) (Some (t_id tmdbInfo))
               (Some (map with_urls (dm_files movie))) (Some (length (dm_files movie)))
               (seasons t) (episode_count t) (number_of_seasons t) (number_of_episodes t))
            movieMap
      end
  | NotFound =>
      let unknownId := lit "unknown_movie_" ++ placeholder n in
      map_set unknownId
        (Content unknownId (Some (dm_title movie)) (Some (lit "movie")) (Some (lit "movie")) None
           (Some (map with_urls (dm_files movie))) (Some (length (dm_files movie)))
           None None None None)
        movieMap
  end.

Definition raw_season (f : season_fragment) : cat_season :=
  CatSeason (sf_season f) (sf_season_number f) (Some (sf_episodes f)).

Definition episode_url (e : episode_ref) (pick : file_ref -> option jsstring) : jsstring :=
  match e_file e with
  | Some file => or_str (pick file) (file_url file)
  | None => base_url ++ lit "/d" ++ e_path e
  end.

(** The episode object written by the TV branch, whose [episode_number]
    and [name] are read from [episode.episode] and [episode.title]. *)
Definition tv_episode (e : episode_ref) : episode_ref :=
  EpisodeRef (e_episode e) (e_title e)
    (Some (episode_url e f_url)) (Some (episode_url e f_download_url))
    None None (e_path e) None.

Definition tv_season (f : season_fragment) : cat_season :=
  CatSeason None (sf_season f) (Some (map tv_episode (sf_episodes f))).

Definition add_tv (movieMap : list (jsstring * content)) (n : nat) (tvShow : detected_tv)
  : list (jsstring * content) :=
  match getMediaDetails (dt_title tvShow) (lit "tv") with
  | LookupThrows => movieMap
  | Found tmdbInfo =>
      let uniqueId := lit "tv_" ++ N_to_str (t_id tmdbInfo) in
      let t := t_fields tmdbInfo in
      let seasons := map tv_season (dt_seasons tvShow) in
      map_set uniqueId
        (Content uniqueId (title t) (media_type t) (Some (lit "tv")) (Some (t_id tmdbInfo))
           (Some []) (file_count t)
           (Some seasons) (Some (count_episodes seasons))
           (number_of_seasons t) (number_of_episodes t))
        movieMap
  | NotFound =>
      let unknownId := lit "unknown_tv_" ++ placeholder n in
      let seasons := map raw_season (dt_seasons tvShow) in
      map_set unknownId
        (Content unknownId (Some (dt_title tvShow)) (Some (lit "tv")) (Some (lit "tv")) None
           (Some []) None
           (Some seasons) (Some (count_episodes seasons))
           None None)
        movieMap
  end.

Fixpoint fold_numbered {A B} (f : B -> nat -> A -> B) (l : list A) (n : nat) (acc : B) : B :=
  match l with
  | [] => acc
  | x :: l' => fold_numbered f l' (S n) (f acc n x)
  end.

(** [Array.from(movieMap.values())] after the two loops. *)
Definition allContent (detectedMovies : list detected_movie) (detectedTvShows : list detected_tv)
  : list content :=
  map snd
    (fold_numbered add_tv detectedTvShows (length detectedMovies)
       (fold_numbered add_movie detectedMovies 0 [])).

End Enrichment.

Definition finalMovies (allContent : list content) : list content :=
  filter (fun item => (is_str (media_type item) "movie" || is_str (directory_type item) "movie")%bool)
         allContent.

Definition finalTvShows (allContent : list content) : list content :=
  filter (fun item => (is_str (media_type item) "tv" || is_str (directory_type item) "tv")%bool)
         allContent.

(** [x || y] where [x] is a number field and [y] a string. *)
Definition id_or (o : option N) (d : jsstring) : jsstring :=
  match o with
  | Some n => if N.eqb n 0 then d else N_to_str n
  | None => d
  end.

Definition correct_movie (movie : content) : content :=
  let new_id :=
    if starts_with (lit "movie_") (id movie) then id movie
    else lit "movie_" ++ id_or (original_tmdb_id movie) (id movie) in
  Content new_id (title movie) (media_type movie) (directory_type movie)
    (original_tmdb_id movie) (files movie) (file_count movie)
    None None None None.

(** [s.replace("movie_", "")]: the first occurrence. *)
Fixpoint remove_first (sub s : jsstring) : jsstring :=
  if starts_with sub s then skipn (length sub) s
  else match s with
       | [] => []
       | c :: s' => c :: remove_first sub s'
       end.

Definition correct_tv (tvShow : content) : content :=
  let new_id :=
    if starts_with (lit "tv_") (id tvShow) then id tvShow
    else lit "tv_" ++ id_or (original_tmdb_id tvShow) (remove_first (lit "movie_") (id tvShow)) in
  let seasons := match seasons tvShow with Some l => l | None => [] end in
  let episode_count :=
    match episode_count tvShow with
    | Some (S n) => S n
    | _ => count_episodes seasons
    end in
  Content new_id (title tvShow) (media_type tvShow) (directory_type tvShow)
    (original_tmdb_id tvShow) (files tvShow) (file_count tvShow)
    (Some seasons) (Some episode_count)
    (number_of_seasons tvShow) (number_of_episodes tvShow).

Definition finalCorrectedMovies (allContent : list content) : list content :=
  map correct_movie (finalMovies allContent).

Definition finalCorrectedTvShows (allContent : list content) : list content :=
  map correct_tv (finalTvShows allContent).

(** ** Version groups *)

Record version : Type := Version {
  v_id : jsstring;
  v_version_name : jsstring;
  v_is_main : bool;
  v_media_type : option jsstring;
  v_files : list file_ref;
  v_seasons : list cat_season;
  v_directory_type : option jsstring
}.

(** An element of the aggregated list: the entry itself, or the main
    version's fields with [versions], [is_aggregated] and
    [aggregated_count] added. *)
Record catalog_entry : Type := CatalogEntry {
  ce_content : content;
  ce_versions : option (list version);
  ce_is_aggregated : option bool;
  ce_aggregated_count : option nat
}.

Definition has_elements {A} (o : option (list A)) : bool :=
  match o with Some (_ :: _) => true | _ => false end.

Definition selectMainVersion (versions : list content) : option content :=
  let withFiles := filter (fun v => has_elements (files v)) versions in
  let withSeasons := filter (fun v => has_elements (seasons v)) versions in
  match withFiles with
  | v :: _ => Some v
  | [] =>
      match withSeasons with
      | v :: _ => Some v
      | [] => hd_error versions
      end
  end.

Definition movie_version : jsstring := [30005; 24433; 29256]%N.        (* "movie version" *)
Definition tv_version : jsstring := [30005; 35270; 21095; 29256]%N.    (* "TV version" *)
Definition default_version : jsstring := [40664; 35748; 29256]%N.      (* "default version" *)

Definition getVersionName (v : content) : jsstring :=
  if starts_with (lit "movie_") (id v) then movie_version
  else if starts_with (lit "tv_") (id v) then tv_version
  else if is_str (directory_type v) "movie" then movie_version
  else if is_str (directory_type v) "tv" then tv_version
  else default_version.

Definition or_nil {A} (o : option (list A)) : list A :=
  match o with Some l => l | None => [] end.

Definition as_version (is_main : bool) (v : content) : version :=
  Version (id v) (getVersionName v) is_main (media_type v) (or_nil (files v))
    (or_nil (seasons v)) (directory_type v).

Definition groupKey (item : content) : jsstring :=
  to_str (title item) ++ lit "_" ++ to_str (media_type item).

(** [groupedByTitle.get(groupKey).push(item)], creating the group when the
    key is new. *)
Fixpoint group_push (key : jsstring) (item : content) (groups : list (jsstring * list content))
  : list (jsstring * list content) :=
  match groups with
  | [] => [(key, [item])]
  | (k, items) :: groups' =>
      if str_eqb k key then (k, items ++ [item]) :: groups'
      else (k, items) :: group_push key item groups'
  end.

Definition groupedByTitle (contentList : list content) : list (jsstring * list content) :=
  fold_left (fun groups item => group_push (groupKey item) item groups) contentList [].

Definition aggregate_group (items : list content) : option catalog_entry :=
  match items with
  | [single] => Some (CatalogEntry single None None None)
  | _ =>
      match selectMainVersion items with
      | Some mainVersion =>
          let otherVersions := filter (fun item => negb (str_eqb (id item) (id mainVersion))) items in
          Some (CatalogEntry mainVersion
                  (Some (as_version true mainVersion :: map (as_version false) otherVersions))
                  (Some true)
                  (Some (length items)))
      | None => None                 (* an empty group, which is never built *)
      end
  end.

Fixpoint keep_some {A} (l : list (option A)) : list A :=
  match l with
  | [] => []
  | Some x :: l' => x :: keep_some l'
  | None :: l' => keep_some l'
  end.

Definition aggregateSameNameContent (contentList : list content) : list catalog_entry :=
  keep_some (map (fun g => aggregate_group (snd g)) (groupedByTitle contentList)).

End Generator.

(* ================================================================== *)
(** * SmartDetector._enrichWithTmdbData                                *)
(* ================================================================== *)

Module SmartEnrichment.
Import JS.
Import SmartDetector.
Import Generator.

(** [/[^a-zA-Z0-9]/g] *)
Definition re_not_alnum : pattern :=
  Pattern false (Chr (CNClass [ARange (ch "a") (ch "z"); ARange (ch "A") (ch "Z");
                               ARange (ch "0") (ch "9")])).

(** [`movie_${title.replace(/[^a-zA-Z0-9]/g, '_')}`], and the same with
    [tv_]. *)
Definition title_id (prefix : string) (title : jsstring) : jsstring :=
  lit prefix ++ replace_all re_not_alnum (lit "_") title.

(** [{season_number: season.season, episodes: season.episodes || []}] *)
Definition numbered_season (f : season_fragment) : cat_season :=
  CatSeason None (sf_season f) (Some (sf_episodes f)).

Definition total_episodes (l : list season_fragment) : nat :=
  fold_left (fun total season => total + length (sf_episodes season)) l 0.

Section Enrich.

(** [tmdbApi.searchMovie(title)] and [tmdbApi.searchTv(title)]: an object
    with a numeric [id], null, or a thrown error. *)
Variable searchMovie : jsstring -> lookup_result.
Variable searchTv : jsstring -> lookup_result.

(** The object written to [organized.movies[i]].  Its [path], [type],
    [original_path] and [detection_method] are strings that nothing here
    reads; they are left out. *)
Definition enrich_movie (mv : movie) : content :=
  match searchMovie (mv_title mv) with
  | Found tmdbData =>
      let t := t_fields tmdbData in
      Content (lit "movie_" ++ N_to_str (t_id tmdbData)) (title t)
        (Some (lit "movie")) (Some (lit "movie")) (Some (t_id tmdbData))
        (Some (mv_files mv)) (file_count t)
        (seasons t) (episode_count t) (number_of_seasons t) (number_of_episodes t)
  | _ =>
      Content (title_id "movie_" (mv_title mv)) (Some (mv_title mv))
        (Some (lit "movie")) (Some (lit "movie")) None
        (Some (mv_files mv)) None None None None None
  end.

(** The object written to [organized.tvShows[i]], from a merged series. *)
Definition enrich_tv (tvShow : series) : content :=
  match searchTv (sr_title tvShow) with
  | Found tmdbData =>
      let t := t_fields tmdbData in
      Content (lit "tv_" ++ N_to_str (t_id tmdbData)) (title t)
        (Some (lit "tv")) (Some (lit "tv")) (Some (t_id tmdbData))
        (files t) (file_count t)
        (Some (map numbered_season (sr_seasons tvShow)))
        (Some (total_episodes (sr_seasons tvShow)))
        (number_of_seasons t) (number_of_episodes t)
  | NotFound =>
      Content (title_id "tv_" (sr_title tvShow)) (Some (sr_title tvShow))
        (Some (lit "tv")) (Some (lit "tv")) None
        None None
        (Some (map numbered_season (sr_seasons tvShow)))
        (Some (total_episodes (sr_seasons tvShow)))
        None None
  | LookupThrows =>
      Content (title_id "tv_" (sr_title tvShow)) (Some (sr_title tvShow))
        (Some (lit "tv")) (Some (lit "tv")) None
        None None
        (Some (map raw_season (sr_seasons tvShow)))
        None None None
  end.

Definition _enrichWithTmdbData (movies : list movie) (tvShows : list series)
  : list content * list content :=
  (map enrich_movie movies, map enrich_tv tvShows).

End Enrich.

End SmartEnrichment.

(* ================================================================== *)
(** * TMDbAPI: the helpers that make no request                        *)
(* ================================================================== *)

Module TMDbAPI.
Import JS.

(** [/[\u0000-\u001F\u007F-\u009F]/g] *)
Definition re_control : pattern :=
  Pattern false (Chr (CClass [ARange 0%N 31%N; ARange 127%N 159%N])).
(** [/\uFEFF/g] *)
Definition re_bom : pattern := Pattern false (Chr (CChar 65279%N)).
(** [/[\u2028\u2029]/g] *)
Definition re_line_separators : pattern :=
  Pattern false (Chr (CClass [AChar 8232%N; AChar 8233%N])).
(** [/\s+/g] *)
Definition re_spaces : pattern := ContentDetector.re_spaces.

(** [_cleanText]; [None] is a value that is not a string. *)
Definition _cleanText (text : option jsstring) : jsstring :=
  match text with
  | None => []
  | Some [] => []
  | Some text =>
      trim (replace_all re_spaces (lit " ")
              (replace_all re_line_separators (lit " ")
                 (replace_all re_bom []
                    (replace_all re_control [] text))))
  end.

(** [_selectBestResult], for results of any type with a [media_type].
    [ranks_after a b] is the sign test of the comparator,
    [scoreB - scoreA > 0]: [a] is to come after [b]. *)
Section SelectBest.
Variable A : Type.
Variable media_type : A -> option jsstring.
Variable ranks_after : A -> A -> bool.

Definition has_type (t : string) (item : A) : bool :=
  match media_type item with Some x => str_eqb x (lit t) | None => false end.

Definition _selectBestResult (results : option (list A)) (mediaType : jsstring) : option A :=
  match results with
  | None => None
  | Some [] => None
  | Some results =>
      let filteredResults :=
        if str_eqb mediaType (lit "movie") then filter (has_type "movie") results
        else if str_eqb mediaType (lit "tv") then filter (has_type "tv") results
        else results in
      let filteredResults :=
        match filteredResults with
        | [] => results
        | _ :: _ => filteredResults
        end in
      hd_error (sort ranks_after filteredResults)
  end.

End SelectBest.

(** [/\.[^/.]+$/] *)
Definition re_extension : pattern :=
  Pattern false (seq [Str "."; Plus (Chr (CNClass [AChar (ch "/"); AChar (ch ".")])); Eol]).

(** The pattern of a name that carries a database id: the text,
    optional white space, a number in round brackets (ASCII or full
    width), and anything after it on the line. *)
Definition tmdbIdPattern : pattern :=
  Pattern false
    (seq [Bol; Grp 1 (Rep false 1 None (Chr CAny)); Star (Chr CSpace);
          Chr (CClass [AChar ContentDetector.c_lparen; AChar (ch "(")]);
          Grp 2 (Plus (Chr CDigit));
          Chr (CClass [AChar ContentDetector.c_rparen; AChar (ch ")")]);
          Star (Chr CSpace); Star (Chr CAny); Eol]).

Record tmdb_id : Type := TmdbId {
  ti_title : jsstring;
  ti_tmdbId : Z
}.

(** [_extractTmdbId]; [parseInt] is called without a radix, on digits. *)
Definition _extractTmdbId (name : jsstring) : option tmdb_id :=
  let nameWithoutExt := replace_first re_extension [] name in
  match exec tmdbIdPattern nameWithoutExt with
  | Some r =>
      let title := match group 1 r with Some s => trim s | None => [] end in
      let tmdbId := match group 2 r with Some s => parseInt s false | None => NaN end in
      match title, tmdbId with
      | _ :: _, Int z => if Z.ltb 0 z then Some (TmdbId title z) else None
      | _, _ => None
      end
  | None => None
  end.

End TMDbAPI.

(* ================================================================== *)
(** * Properties                                                       *)
(* ================================================================== *)

Unset Implicit Arguments.
Import JS.

Lemma str_eqb_eq : forall a b : jsstring, str_eqb a b = true <-> a = b.
Proof.
  induction a as [|x a IH]; destruct b as [|y b]; simpl; split; intro H;
    try reflexivity; try discriminate.
  - apply andb_true_iff in H. destruct H as [Hx Hab].
    apply N.eqb_eq in Hx. apply IH in Hab. congruence.
  - injection H as -> ->. rewrite N.eqb_refl. simpl. apply IH. reflexivity.
Qed.

Lemma str_eqb_refl : forall a : jsstring, str_eqb a a = true.
Proof. intro a. apply str_eqb_eq. reflexivity. Qed.

Lemma str_eqb_neq : forall a b : jsstring, str_eqb a b = false <-> a <> b.
Proof.
  intros a b. split.
  - intros H E. apply str_eqb_eq in E. congruence.
  - intro H. destruct (str_eqb a b) eqn:E; [|reflexivity].
    apply str_eqb_eq in E. contradiction.
Qed.

Lemma str_eqb_sym : forall a b : jsstring, str_eqb a b = str_eqb b a.
Proof.
  intros a b. destruct (str_eqb a b) eqn:E.
  - apply str_eqb_eq in E. subst. symmetry. apply str_eqb_refl.
  - symmetry. apply str_eqb_neq. apply str_eqb_neq in E. congruence.
Qed.

(* ------------------------------------------------------------------ *)
(** ** analyzeFile (C10)                                               *)
(* ------------------------------------------------------------------ *)

Section AnalyzeFile.
Import ContentDetector.

Lemma truthy_field_spec : forall o,
  truthy_field o = true <-> exists z, o = Some (Int z) /\ z <> 0%Z.
Proof.
  intros [[|z]|]; simpl; split; intro H; try discriminate;
    try (destruct H as (? & ? & ?); discriminate).
  - exists z. split; [reflexivity|]. apply negb_true_iff in H. apply Z.eqb_neq in H. exact H.
  - destruct H as [z' [E Hz]]. injection E as ->. apply negb_true_iff. apply Z.eqb_neq. exact Hz.
Qed.

(** The claim as the specification words it: the type is ['episode']
    exactly when [extractSeasonEpisode] finds a season or an episode
    number. *)
Definition finds_number (filename : jsstring) : Prop :=
  season (extractSeasonEpisode filename) <> None
  \/ episode (extractSeasonEpisode filename) <> None.

Definition episode_iff_found (file : item) : Prop :=
  fa_type (analyzeFile file) = lit "episode" <-> finds_number (name file).

(** C10: [analyzeFile] means to test whether the name holds season or
    episode information, and misses the numbers that are 0.  In
    [Show.S00E00.mkv] the first pattern finds season 0 and episode 0, and
    [analyzeFile] answers ['movie'], because [0 || 0] is falsy; so the
    type is not ['episode'] exactly when a number is found. *)
Lemma analyzeFile_zero_is_movie :
  season (extractSeasonEpisode (lit "Show.S00E00.mkv")) = Some (Int 0)
  /\ episode (extractSeasonEpisode (lit "Show.S00E00.mkv")) = Some (Int 0)
  /\ fa_type (analyzeFile (Item (lit "Show.S00E00.mkv") false)) = lit "movie"
  /\ ~ episode_iff_found (Item (lit "Show.S00E00.mkv") false).
Proof.
  repeat split; try (vm_compute; reflexivity).
  intros [_ H].
  assert (F : finds_number (name (Item (lit "Show.S00E00.mkv") false))).
  { left. vm_compute. discriminate. }
  apply H in F. vm_compute in F. discriminate.
Qed.

(** What the test [season || episode] of [analyzeFile] amounts to: the
    answer is ['episode'] exactly when [extractSeasonEpisode] returns a
    season that is a non-zero number or an episode that is a non-zero
    number, and ['movie'] in every other case; it is never ['unknown']. *)
Lemma analyzeFile_type : forall file : item,
  let se := extractSeasonEpisode (name file) in
  let nonzero := fun o : option num => exists z, o = Some (Int z) /\ z <> 0%Z in
  (fa_type (analyzeFile file) = lit "episode" <-> nonzero (season se) \/ nonzero (episode se))
  /\ (fa_type (analyzeFile file) = lit "movie" <-> ~ (nonzero (season se) \/ nonzero (episode se)))
  /\ fa_type (analyzeFile file) <> lit "unknown".
Proof.
  intros file se nonzero. unfold analyzeFile. fold se.
  destruct (truthy_field (season se) || truthy_field (episode se))%bool eqn:E; simpl.
  - apply orb_true_iff in E.
    assert (N : nonzero (season se) \/ nonzero (episode se)).
    { destruct E as [E|E]; [left|right]; apply truthy_field_spec; exact E. }
    repeat split; intros; try assumption; try discriminate; try reflexivity.
    contradiction.
  - apply orb_false_iff in E. destruct E as [E1 E2].
    assert (N : ~ (nonzero (season se) \/ nonzero (episode se))).
    { intros [H|H]; apply truthy_field_spec in H; congruence. }
    repeat split; intros; try assumption; try discriminate; try reflexivity.
    contradiction.
Qed.

End AnalyzeFile.

(* ------------------------------------------------------------------ *)
(** ** The verdict on a directory (C6)                                 *)
(* ------------------------------------------------------------------ *)

Section DirectoryVerdict.
Import ContentDetector.

(** What [analyzeDirectory] counts as movie and as television evidence. *)
Definition movie_evidence (it : item) : bool :=
  if is_dir it then
    match matchSeasonFolder (name it) with Some _ => false | None => true end
  else (isVideoFile (name it) && str_eqb (fa_type (analyzeFile it)) (lit "movie"))%bool.

Definition tv_evidence (it : item) : bool :=
  if is_dir it then
    match matchSeasonFolder (name it) with Some _ => true | None => false end
  else (isVideoFile (name it) && str_eqb (fa_type (analyzeFile it)) (lit "episode"))%bool.

Lemma analyzeFile_movie_or_episode : forall it,
  (str_eqb (fa_type (analyzeFile it)) (lit "movie") = true
   /\ str_eqb (fa_type (analyzeFile it)) (lit "episode") = false)
  \/ (str_eqb (fa_type (analyzeFile it)) (lit "movie") = false
      /\ str_eqb (fa_type (analyzeFile it)) (lit "episode") = true).
Proof.
  intro it. unfold analyzeFile.
  destruct (truthy_field _ || truthy_field _)%bool; simpl; [right|left]; split; reflexivity.
Qed.

Lemma tally_item_counts : forall a it,
  movieCount (tally_item a it) = movieCount a + (if movie_evidence it then 1 else 0)
  /\ tvCount (tally_item a it) = tvCount a + (if tv_evidence it then 1 else 0).
Proof.
  intros a it. unfold tally_item, movie_evidence, tv_evidence.
  destruct (is_dir it).
  - destruct (matchSeasonFolder (name it)); simpl; lia.
  - destruct (isVideoFile (name it)); simpl; [|lia].
    destruct (analyzeFile_movie_or_episode it) as [[-> ->]|[-> ->]]; simpl; lia.
Qed.

Lemma tally_counts : forall items a,
  movieCount (fold_left tally_item items a) = movieCount a + length (filter movie_evidence items)
  /\ tvCount (fold_left tally_item items a) = tvCount a + length (filter tv_evidence items).
Proof.
  induction items as [|it items IH]; intro a; simpl; [lia|].
  destruct (IH (tally_item a it)) as [H1 H2].
  destruct (tally_item_counts a it) as [T1 T2].
  rewrite H1, H2, T1, T2.
  destruct (movie_evidence it), (tv_evidence it); simpl; lia.
Qed.

Lemma analyzeDirectory_counts : forall items,
  movieCount (analyzeDirectory items) = length (filter movie_evidence items)
  /\ tvCount (analyzeDirectory items) = length (filter tv_evidence items).
Proof.
  intro items. unfold analyzeDirectory. simpl.
  destruct (tally_counts items (DirAnalysis [] [] [] [] 0 0 0 (lit "unknown"))) as [H1 H2].
  simpl in H1, H2. split; assumption.
Qed.

End DirectoryVerdict.

Section DirectoryType.
Import PathAnalyzer.

Definition movie_files (p : path_info) : nat :=
  length (filter (type_is "movie") (pi_videoFiles p)).
Definition episode_files (p : path_info) : nat :=
  length (filter (type_is "episode") (pi_videoFiles p)).

(** A directory as the walk records it, from the names of its video
    files. *)
Definition video_directory (names : list jsstring) : path_info :=
  PathInfo (lit "/library") 0 (lit "unknown") names
    (map (fun nm => VideoFile nm (child_path (lit "/library") nm) (_analyzeFileName nm)) names) [].

(** The claim as the specification words it, for [_analyzeDirectoryType]:
    the larger tally decides. *)
Definition larger_tally_decides (p : path_info) : Prop :=
  (episode_files p < movie_files p ->
   _analyzeDirectoryType p = lit "movie_collection"
   \/ _analyzeDirectoryType p = lit "movie_library")
  /\ (movie_files p < episode_files p ->
      _analyzeDirectoryType p = lit "tv_season" \/ _analyzeDirectoryType p = lit "tv_show").

(** C6, counterexample: three movie files and one episode file.  The movie
    tally is strictly larger, and [_analyzeDirectoryType] answers
    ['mixed_content']. *)
Lemma three_movies_one_episode_is_mixed :
  let p := video_directory [lit "Alien.mkv"; lit "Brazil.mkv"; lit "Casablanca.mkv";
                            lit "Show.S01E01.mkv"] in
  movie_files p = 3 /\ episode_files p = 1
  /\ _analyzeDirectoryType p = lit "mixed_content"
  /\ ~ larger_tally_decides p.
Proof.
  cbv zeta. repeat split; try (vm_compute; reflexivity).
  intros [H _].
  assert (L : episode_files (video_directory [lit "Alien.mkv"; lit "Brazil.mkv";
                               lit "Casablanca.mkv"; lit "Show.S01E01.mkv"])
              < movie_files (video_directory [lit "Alien.mkv"; lit "Brazil.mkv";
                               lit "Casablanca.mkv"; lit "Show.S01E01.mkv"])).
  { vm_compute. lia. }
  apply H in L. vm_compute in L. destruct L as [L|L]; discriminate L.
Qed.

Lemma length_filter_pos : forall {A} (f : A -> bool) (l : list A),
  (0 <? length (filter f l)) = true <-> 0 < length (filter f l).
Proof. intros. apply Nat.ltb_lt. Qed.

(** C6, amended.  [ContentDetector.analyzeDirectory] compares the two
    tallies (a sub-directory counts as television evidence when it is a
    season folder and as movie evidence otherwise; a video file counts by
    the type [analyzeFile] gives it): its [primaryType] is ['movie'] when
    the movie tally is strictly larger, ['tv'] when the television tally
    is, ['mixed'] when they are equal and not zero, ['unknown'] when both
    are zero.  [PathAnalyzer._analyzeDirectoryType] does not compare
    sizes: with video files it answers ['movie_collection'] when there are
    movie files and no episode file, ['tv_season'] when there are episode
    files and no movie file, ['mixed_content'] whenever there are both;
    without video files it answers ['tv_show'] when a sub-directory is a
    season folder, else ['movie_library'] when one is a movies folder,
    else ['content_library'], and ['unknown'] when there is no
    sub-directory either.  So 3 movie files and no episode file give
    ['movie_collection'], and 2 and 2 give ['mixed_content']. *)
Theorem directory_verdicts : forall (items : list ContentDetector.item) (p : path_info),
  let mc := length (filter movie_evidence items) in
  let tc := length (filter tv_evidence items) in
  let verdict := ContentDetector.primaryType (ContentDetector.analyzeDirectory items) in
  let has := fun t => existsb (fun d => str_eqb (sd_type d) (lit t)) (pi_subdirectories p) in
  ((tc < mc -> verdict = lit "movie")
   /\ (mc < tc -> verdict = lit "tv")
   /\ (mc = tc -> 0 < mc -> verdict = lit "mixed")
   /\ (mc = 0 -> tc = 0 -> verdict = lit "unknown"))
  /\ ((0 < movie_files p -> episode_files p = 0 -> _analyzeDirectoryType p = lit "movie_collection")
      /\ (0 < episode_files p -> movie_files p = 0 -> _analyzeDirectoryType p = lit "tv_season")
      /\ (0 < movie_files p -> 0 < episode_files p -> _analyzeDirectoryType p = lit "mixed_content")
      /\ (pi_videoFiles p = [] -> has "seasons"%string = true ->
          _analyzeDirectoryType p = lit "tv_show")
      /\ (pi_videoFiles p = [] -> has "seasons"%string = false -> has "movies"%string = true ->
          _analyzeDirectoryType p = lit "movie_library")
      /\ (pi_videoFiles p = [] -> pi_subdirectories p <> [] ->
          has "seasons"%string = false -> has "movies"%string = false ->
          _analyzeDirectoryType p = lit "content_library")
      /\ (pi_videoFiles p = [] -> pi_subdirectories p = [] ->
          _analyzeDirectoryType p = lit "unknown")
      /\ (movie_files p = 3 -> episode_files p = 0 ->
          _analyzeDirectoryType p = lit "movie_collection")
      /\ (movie_files p = 2 -> episode_files p = 2 ->
          _analyzeDirectoryType p = lit "mixed_content")).
Proof.
  intros items p mc tc verdict has.
  assert (Hv : verdict = ContentDetector.verdict mc tc).
  { unfold verdict, ContentDetector.analyzeDirectory. simpl.
    destruct (tally_counts items
                (ContentDetector.DirAnalysis [] [] [] [] 0 0 0 (lit "unknown"))) as [H1 H2].
    simpl in H1, H2. rewrite H1, H2. reflexivity. }
  assert (Video : forall mv ep, movie_files p = mv -> episode_files p = ep -> 0 < mv + ep ->
            _analyzeDirectoryType p =
            if ((0 <? mv) && (ep =? 0))%bool then lit "movie_collection"
            else if ((0 <? ep) && (mv =? 0))%bool then lit "tv_season"
            else lit "mixed_content").
  { intros mv ep Hm He Hpos. unfold movie_files, episode_files in Hm, He.
    unfold _analyzeDirectoryType. rewrite Hm, He.
    assert (Hlen : 0 < length (pi_videoFiles p)).
    { destruct (pi_videoFiles p); [simpl in Hm, He; subst; lia | simpl; lia]. }
    apply Nat.ltb_lt in Hlen. rewrite Hlen.
    destruct mv, ep; simpl; try reflexivity. lia. }
  assert (Sub : pi_videoFiles p = [] ->
            _analyzeDirectoryType p =
            if 0 <? length (pi_subdirectories p) then
              if has "seasons"%string then lit "tv_show"
              else if has "movies"%string then lit "movie_library"
              else lit "content_library"
            else lit "unknown").
  { intro Hnil. unfold _analyzeDirectoryType. rewrite Hnil. simpl.
    rewrite andb_true_r.
    assert (F : forall t, (0 <? length (filter (fun d => str_eqb (sd_type d) (lit t))
                                          (pi_subdirectories p))) = has t).
    { intro t. unfold has. induction (pi_subdirectories p) as [|d l IH]; simpl; [reflexivity|].
      destruct (str_eqb (sd_type d) (lit t)); simpl; [reflexivity | exact IH]. }
    rewrite !F. reflexivity. }
  split.
  - rewrite Hv. unfold ContentDetector.verdict. repeat split.
    + intro H. apply Nat.ltb_lt in H. rewrite H. reflexivity.
    + intro H. assert (H' : (tc <? mc) = false) by (apply Nat.ltb_ge; lia).
      rewrite H'. apply Nat.ltb_lt in H. rewrite H. reflexivity.
    + intros E P. rewrite E, Nat.ltb_irrefl.
      assert (P' : (0 <? tc) = true) by (apply Nat.ltb_lt; lia).
      rewrite P'. reflexivity.
    + intros -> ->. reflexivity.
  - repeat split.
    + intros Hm He. rewrite (Video (movie_files p) 0 eq_refl He) by lia.
      apply Nat.ltb_lt in Hm. rewrite Hm. reflexivity.
    + intros He Hm. rewrite (Video 0 (episode_files p) Hm eq_refl) by lia.
      apply Nat.ltb_lt in He. rewrite He. reflexivity.
    + intros Hm He. rewrite (Video _ _ eq_refl eq_refl) by lia.
      destruct (movie_files p), (episode_files p); try lia. reflexivity.
    + intros Hnil Hs. rewrite (Sub Hnil), Hs.
      destruct (pi_subdirectories p); [discriminate Hs | reflexivity].
    + intros Hnil Hs Hm. rewrite (Sub Hnil), Hs, Hm.
      destruct (pi_subdirectories p); [discriminate Hm | reflexivity].
    + intros Hnil Hne Hs Hm. rewrite (Sub Hnil), Hs, Hm.
      destruct (pi_subdirectories p); [contradiction | reflexivity].
    + intros Hnil Hs. rewrite (Sub Hnil), Hs. reflexivity.
    + intros Hm He. rewrite (Video 3 0 Hm He) by lia. reflexivity.
    + intros Hm He. rewrite (Video 2 2 Hm He) by lia. reflexivity.
Qed.

(** The two directories that the specification names. *)
Lemma directory_verdicts_witness :
  let p3 := video_directory [lit "Alien.mkv"; lit "Brazil.mkv"; lit "Casablanca.mkv"] in
  let p22 := video_directory [lit "Alien.mkv"; lit "Brazil.mkv";
                              lit "Show.S01E01.mkv"; lit "Show.S01E02.mkv"] in
  (movie_files p3 = 3 /\ episode_files p3 = 0 /\ _analyzeDirectoryType p3 = lit "movie_collection")
  /\ (movie_files p22 = 2 /\ episode_files p22 = 2
      /\ _analyzeDirectoryType p22 = lit "mixed_content").
Proof.
  cbv zeta. split.
  - assert (Hm : movie_files (video_directory [lit "Alien.mkv"; lit "Brazil.mkv";
                                lit "Casablanca.mkv"]) = 3) by (vm_compute; reflexivity).
    assert (He : episode_files (video_directory [lit "Alien.mkv"; lit "Brazil.mkv";
                                  lit "Casablanca.mkv"]) = 0) by (vm_compute; reflexivity).
    split; [exact Hm | split; [exact He|]].
    destruct (directory_verdicts [] (video_directory [lit "Alien.mkv"; lit "Brazil.mkv";
                                        lit "Casablanca.mkv"]))
      as [_ [_ [_ [_ [_ [_ [_ [_ [H3 _]]]]]]]]].
    exact (H3 Hm He).
  - assert (Hm : movie_files (video_directory [lit "Alien.mkv"; lit "Brazil.mkv";
                                lit "Show.S01E01.mkv"; lit "Show.S01E02.mkv"]) = 2)
      by (vm_compute; reflexivity).
    assert (He : episode_files (video_directory [lit "Alien.mkv"; lit "Brazil.mkv";
                                  lit "Show.S01E01.mkv"; lit "Show.S01E02.mkv"]) = 2)
      by (vm_compute; reflexivity).
    split; [exact Hm | split; [exact He|]].
    destruct (directory_verdicts [] (video_directory [lit "Alien.mkv"; lit "Brazil.mkv";
                                        lit "Show.S01E01.mkv"; lit "Show.S01E02.mkv"]))
      as [_ [_ [_ [_ [_ [_ [_ [_ [_ H22]]]]]]]]].
    exact (H22 Hm He).
Defined.

End DirectoryType.

(* ------------------------------------------------------------------ *)
(** ** Version groups (C3)                                             *)
(* ------------------------------------------------------------------ *)

Section VersionGroups.
Import Generator.

(** The members of the group of [key], in discovery order. *)
Definition members (key : jsstring) (contentList : list content) : list content :=
  filter (fun item => str_eqb (groupKey item) key) contentList.

(** The selection rule in the words of the specification: the first
    member with a non-empty [files], else the first with a non-empty
    [seasons], else the first member. *)
Definition main_by_priority (group : list content) : option content :=
  match find (fun v => has_elements (files v)) group with
  | Some v => Some v
  | None =>
      match find (fun v => has_elements (seasons v)) group with
      | Some v => Some v
      | None => hd_error group
      end
  end.

Lemma hd_filter_find : forall {A} (f : A -> bool) (l : list A),
  hd_error (filter f l) = find f l.
Proof.
  induction l as [|x l IH]; simpl; [reflexivity|].
  destruct (f x); simpl; [reflexivity | exact IH].
Qed.

Lemma selectMainVersion_priority : forall group,
  selectMainVersion group = main_by_priority group.
Proof.
  intro group. unfold selectMainVersion, main_by_priority.
  rewrite <- !hd_filter_find.
  destruct (filter (fun v => has_elements (files v)) group); simpl; [|reflexivity].
  destruct (filter (fun v => has_elements (seasons v)) group); reflexivity.
Qed.

Lemma group_push_get : forall key item groups k,
  map_get k (group_push key item groups) =
  if str_eqb key k then
    Some (match map_get k groups with Some items => items ++ [item] | None => [item] end)
  else map_get k groups.
Proof.
  intros key item groups k. induction groups as [|[k' items] groups IH]; simpl.
  - destruct (str_eqb key k); reflexivity.
  - destruct (str_eqb k' key) eqn:E; simpl.
    + apply str_eqb_eq in E. subst k'.
      destruct (str_eqb key k) eqn:E2; reflexivity.
    + destruct (str_eqb k' k) eqn:E2.
      * apply str_eqb_eq in E2. subst k'. rewrite (str_eqb_sym key k), E. reflexivity.
      * exact IH.
Qed.

Lemma grouped_get_from : forall contentList groups k,
  map_get k (fold_left (fun groups item => group_push (groupKey item) item groups)
               contentList groups) =
  match map_get k groups, members k contentList with
  | Some items, ms => Some (items ++ ms)
  | None, [] => None
  | None, ms => Some ms
  end.
Proof.
  induction contentList as [|item l IH]; intros groups k; simpl.
  - destruct (map_get k groups); [rewrite app_nil_r|]; reflexivity.
  - rewrite IH, group_push_get. unfold members. simpl.
    destruct (str_eqb (groupKey item) k) eqn:E.
    + destruct (map_get k groups); simpl.
      * rewrite <- app_assoc. reflexivity.
      * reflexivity.
    + reflexivity.
Qed.

Lemma grouped_get : forall contentList k,
  map_get k (groupedByTitle contentList) =
  match members k contentList with [] => None | ms => Some ms end.
Proof.
  intros. unfold groupedByTitle. rewrite grouped_get_from. reflexivity.
Qed.

Lemma map_get_in : forall {V} k (v : V) mp,
  map_get k mp = Some v -> In (k, v) mp.
Proof.
  induction mp as [|[k' v'] mp IH]; simpl; intro H; [discriminate|].
  destruct (str_eqb k' k) eqn:E.
  - apply str_eqb_eq in E. injection H as ->. left. congruence.
  - right. apply IH. exact H.
Qed.

Lemma keep_some_in : forall {A} (x : A) l, In (Some x) l -> In x (keep_some l).
Proof.
  induction l as [|[y|] l IH]; simpl; intro H.
  - contradiction.
  - destruct H as [H|H]; [left; congruence | right; auto].
  - destruct H as [H|H]; [discriminate | auto].
Qed.

Lemma count_main_others : forall l,
  length (filter v_is_main (map (as_version false) l)) = 0.
Proof. induction l; simpl; auto. Qed.

(** C3: for a key with more than one member, the aggregated list holds an
    entry built from the main version chosen by the priority rule; it
    records [aggregated_count] as the number of members, and exactly one
    of its versions has [is_main] true. *)
Theorem version_group_main : forall (contentList : list content) (key : jsstring),
  1 < length (members key contentList) ->
  exists entry mainVersion versions,
    In entry (aggregateSameNameContent contentList)
    /\ main_by_priority (members key contentList) = Some mainVersion
    /\ ce_content entry = mainVersion
    /\ ce_is_aggregated entry = Some true
    /\ ce_aggregated_count entry = Some (length (members key contentList))
    /\ ce_versions entry = Some versions
    /\ length (filter v_is_main versions) = 1
    /\ hd_error versions = Some (as_version true mainVersion).
Proof.
  intros contentList key Hlen.
  pose proof (grouped_get contentList key) as G.
  destruct (members key contentList) as [|m1 [|m2 ms]] eqn:M; simpl in Hlen; try lia.
  apply map_get_in in G.
  assert (S : exists mv, selectMainVersion (m1 :: m2 :: ms) = Some mv).
  { unfold selectMainVersion.
    destruct (filter _ (m1 :: m2 :: ms)); [|eauto].
    destruct (filter _ (m1 :: m2 :: ms)); simpl; eauto. }
  destruct S as [mv Hmv].
  eexists. exists mv. eexists.
  split; [|split; [|split; [|split; [|split; [|split; [|split]]]]]].
  - unfold aggregateSameNameContent. apply keep_some_in.
    apply in_map_iff. exists (key, m1 :: m2 :: ms). split; [|exact G].
    simpl. rewrite Hmv. reflexivity.
  - rewrite <- selectMainVersion_priority. exact Hmv.
  - reflexivity.
  - reflexivity.
  - reflexivity.
  - reflexivity.
  - simpl. rewrite count_main_others. reflexivity.
  - reflexivity.
Qed.

(** The scenario of the specification: three entries for "Dune" of type
    movie, of which only the third has files. *)
Definition dune (i : string) (fs : option (list SmartDetector.file_ref)) : content :=
  Content (lit i) (Some (lit "Dune")) (Some (lit "movie")) (Some (lit "movie")) None
    fs None None None None None.

Definition dune_file : SmartDetector.file_ref :=
  SmartDetector.FileRef (lit "Dune.mkv") (lit "/movies/Dune/Dune.mkv") None None None.

Lemma version_group_main_witness :
  1 < length (members (lit "Dune_movie")
                [dune "movie_1" None; dune "movie_2" (Some []); dune "movie_3" (Some [dune_file])])
  /\ exists entry versions,
       In entry (aggregateSameNameContent
                   [dune "movie_1" None; dune "movie_2" (Some []);
                    dune "movie_3" (Some [dune_file])])
       /\ ce_content entry = dune "movie_3" (Some [dune_file])
       /\ ce_aggregated_count entry = Some 3
       /\ ce_versions entry = Some versions
       /\ length (filter v_is_main versions) = 1.
Proof.
  assert (L : 1 < length (members (lit "Dune_movie")
                [dune "movie_1" None; dune "movie_2" (Some []);
                 dune "movie_3" (Some [dune_file])])).
  { vm_compute. lia. }
  split; [exact L|].
  destruct (version_group_main _ _ L)
    as (entry & mv & versions & Hin & Hmain & Hc & _ & Hcount & Hv & Hone & _).
  exists entry, versions.
  split; [exact Hin|]. split.
  - rewrite Hc. vm_compute in Hmain. injection Hmain as <-. reflexivity.
  - split; [exact Hcount | split; [exact Hv | exact Hone]].
Defined.

End VersionGroups.

(* ------------------------------------------------------------------ *)
(** ** A failed listing during the walk: the tree it amounts to        *)
(* ------------------------------------------------------------------ *)

Section Walk.
Import PathAnalyzer.

Lemma node_nested_ind : forall (P : node -> Prop),
  (forall nm, P (File nm)) ->
  (forall nm o children, Forall P children -> P (Dir nm o children)) ->
  forall n, P n.
Proof.
  intros P HF HD. fix IH 1. intros [nm|nm o children].
  - apply HF.
  - apply HD. induction children as [|c cs IHcs]; constructor.
    + apply IH.
    + exact IHcs.
Qed.

Lemma _analyzeRecursive_dir : forall cfg nm o children currentPath a depth,
  _analyzeRecursive cfg (Dir nm o children) currentPath a depth =
  if maxDepth cfg <? depth then a
  else
    match o with
    | Throws => a
    | ReturnsNull => a
    | ReturnsItems =>
        match children with
        | [] => a
        | _ :: _ =>
            each_item cfg currentPath depth children
              (PathInfo currentPath depth (lit "unknown") [] [] [])
              (enter_directory depth a)
        end
    end.
Proof. intros. destruct children; reflexivity. Qed.

Lemma each_item_as_empty : forall cfg currentPath depth children,
  Forall (fun n => forall currentPath a depth,
            _analyzeRecursive cfg (as_empty n) currentPath a depth =
            _analyzeRecursive cfg n currentPath a depth) children ->
  forall p a,
    each_item cfg currentPath depth (map as_empty children) p a =
    each_item cfg currentPath depth children p a.
Proof.
  intros cfg currentPath depth children H.
  induction H as [|c cs Hc Hcs IH]; intros p a; [reflexivity|].
  destruct c as [nm|nm o ch].
  - simpl. apply IH.
  - assert (E : exists o' ch', as_empty (Dir nm o ch) = Dir nm o' ch').
    { destruct o; simpl; eauto. }
    destruct E as (o' & ch' & E).
    change (map as_empty (Dir nm o ch :: cs)) with (as_empty (Dir nm o ch) :: map as_empty cs).
    pose proof (Hc (child_path currentPath nm) a (S depth)) as Hc'.
    rewrite E in *.
    cbn [each_item]. destruct (_shouldIgnoreDirectory cfg nm).
    + apply IH.
    + rewrite Hc'. apply IH.
Qed.

(** A directory whose listing is rejected is walked exactly as an empty
    directory would be: the walk returns the analysis it would return on
    the tree in which each such directory is empty. *)
Lemma rejected_as_empty : forall cfg n currentPath a depth,
  _analyzeRecursive cfg (as_empty n) currentPath a depth =
  _analyzeRecursive cfg n currentPath a depth.
Proof.
  intros cfg n. induction n as [nm|nm o children IH] using node_nested_ind;
    intros currentPath a depth.
  - reflexivity.
  - destruct o.
    + simpl as_empty. rewrite !_analyzeRecursive_dir.
      destruct (maxDepth cfg <? depth); reflexivity.
    + simpl as_empty. rewrite !_analyzeRecursive_dir.
      destruct (maxDepth cfg <? depth); [reflexivity|].
      destruct children; reflexivity.
    + simpl as_empty. rewrite !_analyzeRecursive_dir.
      destruct (maxDepth cfg <? depth); [reflexivity|].
      destruct children as [|c cs]; [reflexivity|].
      change (map as_empty (c :: cs)) with (as_empty c :: map as_empty cs).
      change (as_empty c :: map as_empty cs) with (map as_empty (c :: cs)).
      rewrite each_item_as_empty by exact IH.
      reflexivity.
Qed.

(** Whatever [_getFiles] answers when its list request fails, the walk of
    that directory leaves the analysis as it was: a failed login rejects
    the call, which the walk catches, and a failed request is turned into
    an empty list by [_getFiles] itself. *)
Lemma failed_request_leaves_analysis : forall cfg nm has_token login currentPath a depth,
  _analyzeRecursive cfg
    (dir_of_listing nm (AlistAPI.listDirectory has_token login AlistAPI.RequestFails))
    currentPath a depth = a.
Proof.
  intros. unfold AlistAPI.listDirectory, AlistAPI._getFiles.
  destruct (negb has_token && _)%bool; simpl dir_of_listing;
    rewrite _analyzeRecursive_dir; destruct (maxDepth cfg <? depth); reflexivity.
Qed.

(** A parent with a failing child and a sibling that succeeds: the parent
    is classified from its own files, and the sibling is recorded. *)
Example parent_of_failed_child :
  let tree := Dir (lit "library") ReturnsItems
                [File (lit "Alien.mkv");
                 Dir (lit "Broken") Throws [];
                 Dir (lit "Brazil") ReturnsItems [File (lit "Brazil.1985.mkv")]] in
  let a := _analyzeRecursive default_config tree (lit "/library") empty_analysis 0 in
  map (fun p => (pi_path p, pi_type p)) (cat_movies a) =
    [(lit "/library/Brazil", lit "movie_collection"); (lit "/library", lit "movie_collection")]
  /\ map fst (pathMap a) = [lit "/library/Brazil"; lit "/library"].
Proof. vm_compute. split; reflexivity. Qed.

End Walk.

(* ------------------------------------------------------------------ *)
(** ** The split into movie and television records (C8)                *)
(* ------------------------------------------------------------------ *)

Section Split.
Import Generator.

(** The claim as the specification words it: a movie record has [files]
    and neither [seasons] nor [episode_count]; a television record has
    [seasons] and [episode_count] and no files of its own (read here in
    the weakest way: no file in [files]). *)
Definition shape_clean (movies tvShows : list content) : Prop :=
  (forall r, In r movies -> files r <> None /\ seasons r = None /\ episode_count r = None)
  /\ (forall r, In r tvShows ->
        seasons r <> None /\ episode_count r <> None /\ has_elements (files r) = false).

(** An answer of the external database for a movie lookup that is typed
    ['tv']: [_selectBestResult] falls back to all results when none has the
    requested type. *)
Definition dune_as_tv (t mediaType : jsstring) : lookup_result :=
  if str_eqb t (lit "Dune") then
    Found (TmdbInfo 438631
             (Content [] (Some (lit "Dune")) (Some (lit "tv")) None None None None
                (Some [CatSeason None (Some (Int 1)) None]) None (Some 1) (Some 8)))
  else NotFound.

Definition dune_movie : detected_movie :=
  DetectedMovie (lit "Dune") (lit "/movies/Dune")
    [SmartDetector.FileRef (lit "Dune.mkv") (lit "/movies/Dune/Dune.mkv") None None None].

Definition dune_catalogue : list content :=
  allContent (lit "http://alist") dune_as_tv (fun n => N_to_str (N.of_nat n)) [dune_movie] [].

(** C8, counterexample: a movie directory whose lookup is answered with a
    record of type ['tv'].  The entry has [directory_type] ['movie'] and
    [media_type] ['tv'], passes both filters, and its copy in
    [finalCorrectedTvShows] keeps the movie's file. *)
Lemma movie_files_on_tv_record :
  map id (finalCorrectedMovies dune_catalogue) = [lit "movie_438631"]
  /\ map id (finalCorrectedTvShows dune_catalogue) = [lit "tv_438631"]
  /\ map (fun r => has_elements (files r)) (finalCorrectedTvShows dune_catalogue) = [true]
  /\ ~ shape_clean (finalCorrectedMovies dune_catalogue) (finalCorrectedTvShows dune_catalogue).
Proof.
  repeat split; try (vm_compute; reflexivity).
  intros [_ H].
  destruct (finalCorrectedTvShows dune_catalogue) as [|r l] eqn:E; [vm_compute in E; discriminate|].
  destruct (H r (or_introl eq_refl)) as (_ & _ & F).
  assert (T : has_elements (files r) = true).
  { vm_compute in E. injection E as <- _. reflexivity. }
  congruence.
Qed.

Variable base_url : jsstring.
Variable getMediaDetails : jsstring -> jsstring -> lookup_result.
Variable placeholder : nat -> jsstring.

Definition movie_built (c : content) : Prop :=
  directory_type c = Some (lit "movie") /\ files c <> None.

Definition tv_built (c : content) : Prop :=
  directory_type c = Some (lit "tv") /\ files c = Some []
  /\ seasons c <> None /\ episode_count c <> None.

Lemma map_set_values : forall {V} (P : V -> Prop) k v mp,
  Forall P (map snd mp) -> P v -> Forall P (map snd (map_set k v mp)).
Proof.
  intros V P k v mp H Hv. induction mp as [|[k' v'] mp IH]; simpl.
  - constructor; [exact Hv | constructor].
  - inversion H; subst. destruct (str_eqb k' k); simpl; constructor; auto.
Qed.

Lemma map_get_value : forall {V} (P : V -> Prop) k v mp,
  Forall P (map snd mp) -> map_get k mp = Some v -> P v.
Proof.
  intros V P k v mp H. induction mp as [|[k' v'] mp IH]; simpl; intro G; [discriminate|].
  inversion H; subst. destruct (str_eqb k' k); [injection G as <-; assumption | auto].
Qed.

Lemma add_movie_built : forall mp n movie,
  Forall movie_built (map snd mp) ->
  Forall movie_built (map snd (add_movie base_url getMediaDetails placeholder mp n movie)).
Proof.
  intros mp n movie H. unfold add_movie.
  destruct (getMediaDetails (dm_title movie) (lit "movie")) as [| |info]; [exact H| |].
  - apply map_set_values; [exact H|]. split; simpl; [reflexivity | discriminate].
  - destruct (map_get (N_to_str (t_id info)) mp) as [existing|] eqn:G.
    + pose proof (map_get_value _ _ _ _ H G) as [Hd Hf].
      destruct (files existing) as [fs|] eqn:F; [|exact H].
      apply map_set_values; [exact H|]. split; simpl; [exact Hd | discriminate].
    + apply map_set_values; [exact H|]. split; simpl; [reflexivity | discriminate].
Qed.

Lemma add_tv_built : forall mp n tvShow,
  Forall (fun c => movie_built c \/ tv_built c) (map snd mp) ->
  Forall (fun c => movie_built c \/ tv_built c)
    (map snd (add_tv base_url getMediaDetails placeholder mp n tvShow)).
Proof.
  intros mp n tvShow H. unfold add_tv.
  destruct (getMediaDetails (dt_title tvShow) (lit "tv")) as [| |info]; [exact H| |];
    (apply map_set_values; [exact H|]); right; repeat split; simpl;
    try reflexivity; discriminate.
Qed.

Lemma fold_numbered_inv : forall {A B} (P : B -> Prop) (f : B -> nat -> A -> B),
  (forall acc n x, P acc -> P (f acc n x)) ->
  forall l n acc, P acc -> P (fold_numbered f l n acc).
Proof.
  intros A B P f Hf. induction l as [|x l IH]; intros n acc H; simpl; [exact H|].
  apply IH. apply Hf. exact H.
Qed.

Lemma allContent_built : forall detectedMovies detectedTvShows,
  Forall (fun c => movie_built c \/ tv_built c)
    (allContent base_url getMediaDetails placeholder detectedMovies detectedTvShows).
Proof.
  intros. unfold allContent.
  apply (fold_numbered_inv
           (fun mp => Forall (fun c => movie_built c \/ tv_built c) (map snd mp))).
  - intros acc n x H. apply add_tv_built. exact H.
  - assert (M : Forall movie_built
                  (map snd (fold_numbered (add_movie base_url getMediaDetails placeholder)
                              detectedMovies 0 []))).
    { apply (fold_numbered_inv (fun mp => Forall movie_built (map snd mp))).
      - intros acc n x H. apply add_movie_built. exact H.
      - constructor. }
    eapply Forall_impl; [|exact M]. intros c Hc. left. exact Hc.
Qed.

(** C8, amended: every record of [finalCorrectedMovies] has a [files]
    list and none of the fields [seasons], [episode_count],
    [number_of_seasons], [number_of_episodes]; every record of
    [finalCorrectedTvShows] has [seasons] and [episode_count].  The
    [files] field is not taken off a television record: a record built
    from a television directory carries [files: []]. *)
Theorem split_shapes : forall detectedMovies detectedTvShows r,
  let all := allContent base_url getMediaDetails placeholder detectedMovies detectedTvShows in
  (In r (finalCorrectedMovies all) ->
   files r <> None /\ seasons r = None /\ episode_count r = None
   /\ number_of_seasons r = None /\ number_of_episodes r = None)
  /\ (In r (finalCorrectedTvShows all) ->
      seasons r <> None /\ episode_count r <> None
      /\ files r <> None
      /\ (directory_type r = Some (lit "tv") -> files r = Some [])).
Proof.
  intros detectedMovies detectedTvShows r all.
  pose proof (allContent_built detectedMovies detectedTvShows) as B. fold all in B.
  rewrite Forall_forall in B.
  split; intro H.
  - unfold finalCorrectedMovies, finalMovies in H.
    apply in_map_iff in H. destruct H as (x & <- & Hx).
    apply filter_In in Hx. destruct Hx as [Hx _].
    assert (F : files x <> None).
    { destruct (B x Hx) as [[_ F]|(_ & F & _)]; [exact F | rewrite F; discriminate]. }
    unfold correct_movie. simpl. repeat split; try reflexivity. exact F.
  - unfold finalCorrectedTvShows, finalTvShows in H.
    apply in_map_iff in H. destruct H as (x & <- & Hx).
    apply filter_In in Hx. destruct Hx as [Hx _].
    unfold correct_tv. simpl. repeat split; try discriminate.
    + destruct (B x Hx) as [[_ F]|(_ & F & _)]; [exact F | rewrite F; discriminate].
    + intro D. destruct (B x Hx) as [[D' _]|(_ & F & _)]; [|exact F].
      rewrite D' in D. vm_compute in D. discriminate.
Qed.

End Split.

(** A movie directory and a television directory, neither known to the
    external database. *)
Lemma split_shapes_witness :
  let movie := Generator.DetectedMovie (lit "Alien") (lit "/movies/Alien")
                 [SmartDetector.FileRef (lit "Alien.mkv") (lit "/movies/Alien/Alien.mkv")
                    None None None] in
  let tv := Generator.DetectedTv (lit "Show")
              [SmartDetector.SeasonFragment (Some (Int 1)) None []] in
  let all := Generator.allContent (lit "http://alist") (fun _ _ => Generator.NotFound)
               (fun n => N_to_str (N.of_nat n)) [movie] [tv] in
  exists m t,
    Generator.finalCorrectedMovies all = [m] /\ Generator.finalCorrectedTvShows all = [t]
    /\ Generator.seasons m = None /\ Generator.files m <> None
    /\ Generator.seasons t <> None /\ Generator.files t = Some [].
Proof.
  cbv zeta.
  set (all := Generator.allContent _ _ _ _ _).
  destruct (Generator.finalCorrectedMovies all) as [|m [|]] eqn:EM;
    try (vm_compute in EM; discriminate).
  destruct (Generator.finalCorrectedTvShows all) as [|t [|]] eqn:ET;
    try (vm_compute in ET; discriminate).
  exists m, t. split; [reflexivity|]. split; [reflexivity|].
  pose proof (split_shapes (lit "http://alist") (fun _ _ => Generator.NotFound)
                (fun n => N_to_str (N.of_nat n))
                [Generator.DetectedMovie (lit "Alien") (lit "/movies/Alien")
                   [SmartDetector.FileRef (lit "Alien.mkv") (lit "/movies/Alien/Alien.mkv")
                      None None None]]
                [Generator.DetectedTv (lit "Show") [SmartDetector.SeasonFragment (Some (Int 1)) None []]])
    as S.
  cbv zeta in S. fold all in S.
  destruct (S m) as [Sm _]. destruct (S t) as [_ St].
  rewrite EM in Sm. rewrite ET in St.
  destruct (Sm (or_introl eq_refl)) as (Fm & Sn & _).
  destruct (St (or_introl eq_refl)) as (Ss & _ & _ & Ft).
  repeat split; try assumption.
  apply Ft. vm_compute in ET. injection ET as <-. reflexivity.
Defined.

(* ------------------------------------------------------------------ *)
(** ** The merge of season fragments (C1)                              *)
(* ------------------------------------------------------------------ *)

Section StableSort.

Variable A : Type.
Variable key : A -> Z.

(** A comparator that subtracts keys. *)
Definition by_key (a b : A) : bool := Z.ltb 0 (key a - key b).

Definition key_le (a b : A) : Prop := (key a <= key b)%Z.

Lemma insert_stable_perm : forall x l, Permutation (insert_stable by_key x l) (x :: l).
Proof.
  intros x l. induction l as [|y l IH]; simpl; [reflexivity|].
  destruct (by_key x y); [|reflexivity].
  rewrite IH. apply perm_swap.
Qed.

Lemma sort_perm : forall l, Permutation (sort by_key l) l.
Proof.
  induction l as [|x l IH]; simpl; [reflexivity|].
  unfold sort in *. simpl. rewrite insert_stable_perm. constructor. exact IH.
Qed.

Lemma insert_stable_sorted : forall x l,
  StronglySorted key_le l -> StronglySorted key_le (insert_stable by_key x l).
Proof.
  intros x l H. induction H as [|y l Hl IH Hy]; simpl.
  - constructor; constructor.
  - destruct (by_key x y) eqn:E; unfold by_key in E.
    + apply Z.ltb_lt in E. constructor; [exact IH|].
      eapply Permutation_Forall; [symmetry; apply insert_stable_perm|].
      constructor; [unfold key_le; lia | exact Hy].
    + apply Z.ltb_ge in E. constructor; [constructor; assumption|].
      constructor; [unfold key_le; lia|].
      eapply Forall_impl; [|exact Hy]. unfold key_le. intros; lia.
Qed.

Lemma sort_sorted : forall l, StronglySorted key_le (sort by_key l).
Proof.
  induction l as [|x l IH]; unfold sort in *; simpl; [constructor|].
  apply insert_stable_sorted. exact IH.
Qed.

(** A comparator that is never positive leaves the array as it is. *)
Lemma sort_constant_key : forall l, (forall a b, key a = key b) -> sort by_key l = l.
Proof.
  intros l H. induction l as [|x l IH]; unfold sort in *; simpl; [reflexivity|].
  rewrite IH. destruct l as [|y l]; simpl; [reflexivity|].
  unfold by_key. rewrite (H x y), Z.sub_diag. reflexivity.
Qed.

(** The sort is stable: the elements of one key keep their order. *)
Definition has_key (z : Z) (a : A) : bool := Z.eqb (key a) z.

Lemma insert_stable_keeps_order : forall z x l,
  filter (has_key z) (insert_stable by_key x l) = filter (has_key z) (x :: l).
Proof.
  intros z x l. induction l as [|y l IH]; [reflexivity|].
  cbn [insert_stable]. destruct (by_key x y) eqn:E; [|reflexivity].
  unfold by_key in E. apply Z.ltb_lt in E.
  cbn [filter] in *. rewrite IH. unfold has_key.
  destruct (Z.eqb (key x) z) eqn:Ex; [|reflexivity].
  destruct (Z.eqb (key y) z) eqn:Ey; [|reflexivity].
  apply Z.eqb_eq in Ex, Ey. lia.
Qed.

Lemma sort_keeps_order : forall z l,
  filter (has_key z) (sort by_key l) = filter (has_key z) l.
Proof.
  intros z l. induction l as [|x l IH]; [reflexivity|].
  unfold sort in *. cbn [fold_right]. rewrite insert_stable_keeps_order.
  cbn [filter]. rewrite IH. reflexivity.
Qed.

End StableSort.

Arguments by_key {A} key a b.
Arguments key_le {A} key a b.
Arguments has_key {A} key z a.

Lemma sorted_by_equal_keys : forall {A} (key key' : A -> Z) (l : list A),
  Forall (fun a => key a = key' a) l ->
  StronglySorted (key_le key) l -> StronglySorted (key_le key') l.
Proof.
  intros A key key' l F S. induction S as [|a l S IH Ha]; [constructor|].
  inversion F as [|? ? Ea Fl]; subst. constructor; [apply IH; exact Fl|].
  rewrite Forall_forall in *. intros b Hb. unfold key_le in *.
  rewrite <- Ea, <- (Fl b Hb). apply Ha. exact Hb.
Qed.

Section SeasonMerge.
Import SmartDetector.

Definition episode_number_of (e : episode_ref) : Z :=
  match e_episode_number e with Some (Int z) => z | _ => 0%Z end.

(** The claim as the specification words it. *)
Definition one_fragment_per_season (sr : series) : Prop :=
  NoDup (map sf_season (sr_seasons sr)).

Definition episodes_ascending (f : season_fragment) : Prop :=
  StronglySorted Z.le (map episode_number_of (sf_episodes f)).

Definition merge_invariant (tvShows : list show) : Prop :=
  forall sr, In sr (_mergeTvSeasons tvShows) ->
    one_fragment_per_season sr /\ Forall episodes_ascending (sr_seasons sr).

(** Two configured paths that hold season 1 of the same show; the first
    is listed in the order of the names, E10 before E9. *)
Definition two_copies (path : jsstring) : AlistAPI.listing ContentDetector.item :=
  let dir := fun s => ContentDetector.Item (lit s) true in
  let file := fun s => ContentDetector.Item (lit s) false in
  if str_eqb path (lit "/tv/Show") then AlistAPI.Returned (Some [dir "S01"%string])
  else if str_eqb path (lit "/archive/Show") then AlistAPI.Returned (Some [dir "S01"%string])
  else if str_eqb path (lit "/tv/Show/S01") then
    AlistAPI.Returned (Some [file "Show.E10.mkv"%string; file "Show.E9.mkv"%string])
  else if str_eqb path (lit "/archive/Show/S01") then
    AlistAPI.Returned (Some [file "Show.E01.mkv"%string])
  else AlistAPI.Rejected.

Definition two_copies_shows : list show :=
  directory_shows (lit "http://alist") two_copies (lit "/tv/Show")
  ++ directory_shows (lit "http://alist") two_copies (lit "/archive/Show").

(** C1, counterexample: the two season folders are merged into one series
    that has two fragments for season 1, and the fragment of the first
    keeps its episodes in listing order, 10 before 9: the comparator of
    [_getSeasonEpisodes] reads [episode], a field these objects do not
    have. *)
Lemma duplicate_season_unsorted_episodes :
  map (fun sr => (sr_title sr,
                  map (fun f => (sf_season f, map episode_number_of (sf_episodes f)))
                      (sr_seasons sr)))
      (_mergeTvSeasons two_copies_shows)
  = [(lit "Show", [(Some (Int 1), [10; 9]%Z); (Some (Int 1), [1]%Z)])]
  /\ (forall sr, In sr (_mergeTvSeasons two_copies_shows) -> ~ one_fragment_per_season sr)
  /\ (forall sr, In sr (_mergeTvSeasons two_copies_shows) ->
        ~ Forall episodes_ascending (sr_seasons sr))
  /\ ~ merge_invariant two_copies_shows.
Proof.
  assert (E : exists sr, _mergeTvSeasons two_copies_shows = [sr]
              /\ map sf_season (sr_seasons sr) = [Some (Int 1); Some (Int 1)]
              /\ map (fun f => map episode_number_of (sf_episodes f)) (sr_seasons sr)
                 = [[10; 9]; [1]]%Z).
  { eexists. split; [vm_compute; reflexivity|]. split; vm_compute; reflexivity. }
  destruct E as (sr0 & E & Hs & He).
  assert (D : ~ one_fragment_per_season sr0).
  { unfold one_fragment_per_season. rewrite Hs. intro N. inversion N as [|? ? Hn _]; subst.
    apply Hn. left. reflexivity. }
  assert (U : ~ Forall episodes_ascending (sr_seasons sr0)).
  { intro F. destruct (sr_seasons sr0) as [|f fs]; [discriminate|].
    inversion F as [|? ? Hf _]; subst. unfold episodes_ascending in Hf.
    simpl in He. injection He as He _. rewrite He in Hf.
    inversion Hf as [|? ? _ Hall]; subst. inversion Hall as [|? ? Hle _]; subst. lia. }
  split; [vm_compute; reflexivity|].
  split; [|split].
  - intros sr H. rewrite E in H. destruct H as [<-|[]]. exact D.
  - intros sr H. rewrite E in H. destruct H as [<-|[]]. exact U.
  - intro M. destruct (M sr0) as [M1 _]; [rewrite E; left; reflexivity|]. exact (D M1).
Qed.

(** The shows that are merged into the series [seriesName]. *)
Definition shows_named (seriesName : jsstring) (tvShows : list show) : list show :=
  filter (fun sh => str_eqb (_extractSeriesName sh) seriesName) tvShows.

Definition fragments_named (seriesName : jsstring) (tvShows : list show) : list season_fragment :=
  flat_map s_seasons (shows_named seriesName tvShows).

Definition merge_step (seriesMap : list (jsstring * series)) (sh : show) :=
  merge_into (_extractSeriesName sh) sh seriesMap.

Lemma merge_into_keys : forall seriesName sh mp,
  map fst (merge_into seriesName sh mp) =
  if existsb (fun k => str_eqb k seriesName) (map fst mp) then map fst mp
  else map fst mp ++ [seriesName].
Proof.
  intros seriesName sh mp. induction mp as [|[k sr] mp IH]; simpl; [reflexivity|].
  destruct (str_eqb k seriesName); simpl; [reflexivity|].
  rewrite IH. destruct (existsb _ (map fst mp)); reflexivity.
Qed.

Lemma merge_into_nodup : forall seriesName sh mp,
  NoDup (map fst mp) -> NoDup (map fst (merge_into seriesName sh mp)).
Proof.
  intros seriesName sh mp H. rewrite merge_into_keys.
  destruct (existsb _ (map fst mp)) eqn:E; [exact H|].
  apply NoDup_app; [exact H | repeat constructor; simpl; tauto |].
  intros k Hin Hk. destruct Hk as [<-|[]].
  assert (T : existsb (fun k => str_eqb k seriesName) (map fst mp) = true).
  { apply existsb_exists. exists seriesName. split; [exact Hin | apply str_eqb_refl]. }
  congruence.
Qed.

Lemma merge_into_get : forall seriesName sh mp k,
  map_get k (merge_into seriesName sh mp) =
  if str_eqb seriesName k then
    Some (match map_get k mp with
          | Some sr =>
              Series (sr_title sr) (sr_type sr) (sr_seasons sr ++ s_seasons sh)
                (if (nonempty (s_path sh)
                     && negb (existsb (str_eqb (s_path sh)) (sr_paths sr)))%bool
                 then sr_paths sr ++ [s_path sh] else sr_paths sr)
                (sr_path sr)
          | None =>
              Series seriesName (lit "tvshow") (s_seasons sh) (filter nonempty [s_path sh]) None
          end)
  else map_get k mp.
Proof.
  intros seriesName sh mp k. induction mp as [|[k' sr] mp IH].
  - simpl. destruct (str_eqb seriesName k); reflexivity.
  - cbn [merge_into]. destruct (str_eqb k' seriesName) eqn:E.
    + apply str_eqb_eq in E. subst k'. cbn [map_get].
      destruct (str_eqb seriesName k); reflexivity.
    + cbn [map_get]. destruct (str_eqb k' k) eqn:E2.
      * apply str_eqb_eq in E2. subst k'. rewrite (str_eqb_sym seriesName k), E. reflexivity.
      * exact IH.
Qed.

Lemma map_get_nodup : forall {V} k (v : V) mp,
  NoDup (map fst mp) -> In (k, v) mp -> map_get k mp = Some v.
Proof.
  intros V k v mp N H. induction mp as [|[k' v'] mp IH]; [contradiction|].
  simpl in N. inversion N as [|? ? Hn N']; subst. simpl.
  destruct H as [H|H].
  - injection H as -> ->. rewrite str_eqb_refl. reflexivity.
  - destruct (str_eqb k' k) eqn:E; [|auto].
    apply str_eqb_eq in E. subst k'. exfalso. apply Hn.
    apply in_map_iff. exists (k, v). split; [reflexivity | exact H].
Qed.

Lemma fragments_named_snoc : forall k processed sh,
  fragments_named k (processed ++ [sh]) =
  fragments_named k processed
  ++ (if str_eqb (_extractSeriesName sh) k then s_seasons sh else []).
Proof.
  intros. unfold fragments_named, shows_named.
  rewrite filter_app, flat_map_app. simpl.
  destruct (str_eqb (_extractSeriesName sh) k); simpl; rewrite ?app_nil_r; reflexivity.
Qed.

(** What the loop of [_mergeTvSeasons] keeps for every key. *)
Definition merged_so_far (processed : list show) (mp : list (jsstring * series)) : Prop :=
  NoDup (map fst mp)
  /\ forall k,
       match map_get k mp with
       | Some sr => sr_title sr = k /\ sr_seasons sr = fragments_named k processed
       | None => fragments_named k processed = []
       end.

Lemma merge_step_keeps : forall processed mp sh,
  merged_so_far processed mp -> merged_so_far (processed ++ [sh]) (merge_step mp sh).
Proof.
  intros processed mp sh [N I]. split; [apply merge_into_nodup; exact N|].
  intro k. unfold merge_step. rewrite merge_into_get, fragments_named_snoc.
  specialize (I k).
  destruct (str_eqb (_extractSeriesName sh) k) eqn:E.
  - apply str_eqb_eq in E. destruct (map_get k mp) as [sr|]; simpl.
    + destruct I as [-> ->]. split; reflexivity.
    + rewrite I. split; [exact E | reflexivity].
  - rewrite app_nil_r. exact I.
Qed.

Lemma merge_loop_keeps : forall tvShows processed mp,
  merged_so_far processed mp ->
  merged_so_far (processed ++ tvShows) (fold_left merge_step tvShows mp).
Proof.
  induction tvShows as [|sh l IH]; intros processed mp H; simpl.
  - rewrite app_nil_r. exact H.
  - replace (processed ++ sh :: l) with ((processed ++ [sh]) ++ l)
      by (rewrite <- app_assoc; reflexivity).
    apply IH. apply merge_step_keeps. exact H.
Qed.

(** What the loop and the sort of [_mergeTvSeasons] leave in a series. *)
Lemma merged_series_seasons : forall (tvShows : list show) (sr : series),
  In sr (_mergeTvSeasons tvShows) ->
  sr_seasons sr = sort (by_key season_key) (fragments_named (sr_title sr) tvShows).
Proof.
  intros tvShows sr H. unfold _mergeTvSeasons in H.
  apply in_map_iff in H. destruct H as ([k sr0] & <- & Hin). simpl.
  assert (M : merged_so_far ([] ++ tvShows) (fold_left merge_step tvShows [])).
  { apply merge_loop_keeps. split; [constructor | intro; reflexivity]. }
  simpl in M. destruct M as [N I].
  change (fold_left (fun seriesMap sh => merge_into (_extractSeriesName sh) sh seriesMap)
            tvShows []) with (fold_left merge_step tvShows []) in Hin.
  pose proof (map_get_nodup _ _ _ N Hin) as G.
  specialize (I k). rewrite G in I. destruct I as [Ht Hs].
  rewrite Ht, Hs. reflexivity.
Qed.

(** A fragment that carries a positive season number in [season]. *)
Definition positive_season (f : season_fragment) : Prop :=
  exists z, sf_season f = Some (Int z) /\ (0 < z)%Z.

(** The number in [season], 0 when the field is missing or not a number. *)
Definition season_number_of (f : season_fragment) : Z :=
  match sf_season f with Some (Int z) => z | _ => 0%Z end.

Lemma season_key_positive : forall f,
  positive_season f -> season_key f = season_number_of f.
Proof.
  intros f (z & E & P). unfold season_key, season_number_of, num_or. rewrite E.
  destruct (Z.eqb z 0) eqn:Z0; [apply Z.eqb_eq in Z0; lia | reflexivity].
Qed.

(** C1, amended: the [seasons] array of a merged series holds every
    fragment of every show that was given the series name, none merged and
    none dropped, so two fragments of one season number both stay.  When
    these fragments carry a positive season number in [season], the array
    is ordered ascending by that number, and the fragments of one number
    keep their discovery order. *)
Theorem merged_seasons : forall (tvShows : list show) (sr : series),
  In sr (_mergeTvSeasons tvShows) ->
  Permutation (sr_seasons sr) (fragments_named (sr_title sr) tvShows)
  /\ length (sr_seasons sr) =
     list_sum (map (fun sh => length (s_seasons sh)) (shows_named (sr_title sr) tvShows))
  /\ (Forall positive_season (fragments_named (sr_title sr) tvShows) ->
      StronglySorted (key_le season_number_of) (sr_seasons sr)
      /\ forall z, filter (has_key season_number_of z) (sr_seasons sr)
                   = filter (has_key season_number_of z)
                       (fragments_named (sr_title sr) tvShows)).
Proof.
  intros tvShows sr H. pose proof (merged_series_seasons tvShows sr H) as Hs.
  set (given := fragments_named (sr_title sr) tvShows) in *.
  assert (P : Permutation (sr_seasons sr) given) by (rewrite Hs; apply sort_perm).
  split; [exact P|]. split.
  - rewrite (Permutation_length P). unfold given, fragments_named.
    induction (shows_named (sr_title sr) tvShows) as [|sh l IH]; simpl; [reflexivity|].
    rewrite length_app, IH. reflexivity.
  - intro F.
    assert (F' : Forall positive_season (sr_seasons sr))
      by (eapply Permutation_Forall; [symmetry; exact P | exact F]).
    split.
    + apply (sorted_by_equal_keys season_key).
      * eapply Forall_impl; [|exact F']. intros f Hf. apply season_key_positive. exact Hf.
      * rewrite Hs. apply sort_sorted.
    + intro z.
      assert (K : forall l, Forall positive_season l ->
                    filter (has_key season_number_of z) l = filter (has_key season_key z) l).
      { intros l Fl. apply filter_ext_in. intros f Hf. unfold has_key.
        rewrite Forall_forall in Fl. rewrite (season_key_positive f (Fl f Hf)). reflexivity. }
      rewrite (K _ F'), (K _ F), Hs. apply sort_keeps_order.
Qed.

(** A show folder whose listing gives season 2 before season 1. *)
Definition two_seasons (path : jsstring) : AlistAPI.listing ContentDetector.item :=
  let dir := fun s => ContentDetector.Item (lit s) true in
  let file := fun s => ContentDetector.Item (lit s) false in
  if str_eqb path (lit "/tv/Show") then
    AlistAPI.Returned (Some [dir "S02"%string; dir "S01"%string])
  else if str_eqb path (lit "/tv/Show/S01") then
    AlistAPI.Returned (Some [file "Show.E01.mkv"%string])
  else if str_eqb path (lit "/tv/Show/S02") then
    AlistAPI.Returned (Some [file "Show.E01.mkv"%string])
  else AlistAPI.Rejected.

Definition two_seasons_shows : list show :=
  directory_shows (lit "http://alist") two_seasons (lit "/tv/Show").

Lemma merged_seasons_witness :
  exists sr,
    In sr (_mergeTvSeasons two_seasons_shows)
    /\ sr_title sr = lit "Show"
    /\ map sf_season (flat_map s_seasons two_seasons_shows) = [Some (Int 2); Some (Int 1)]
    /\ map sf_season (sr_seasons sr) = [Some (Int 1); Some (Int 2)]
    /\ length (sr_seasons sr) = 2
    /\ StronglySorted (key_le season_number_of) (sr_seasons sr).
Proof.
  destruct (_mergeTvSeasons two_seasons_shows) as [|sr l] eqn:E; [vm_compute in E; discriminate|].
  assert (Hin : In sr (_mergeTvSeasons two_seasons_shows)) by (rewrite E; left; reflexivity).
  exists sr. split; [rewrite <- E; exact Hin|].
  destruct (merged_seasons two_seasons_shows sr Hin) as (_ & Hlen & Hpos).
  assert (T : sr_title sr = lit "Show") by (vm_compute in E; injection E as <- _; reflexivity).
  split; [exact T|]. split; [vm_compute; reflexivity|].
  split; [vm_compute in E; injection E as <- _; reflexivity|].
  split; [rewrite Hlen, T; vm_compute; reflexivity|].
  apply Hpos. rewrite T.
  assert (G : map sf_season (fragments_named (lit "Show") two_seasons_shows)
              = [Some (Int 2); Some (Int 1)]) by (vm_compute; reflexivity).
  destruct (fragments_named (lit "Show") two_seasons_shows) as [|f1 [|f2 [|f3 fs]]];
    try discriminate G.
  cbn [map] in G. injection G as G1 G2.
  constructor; [exists 2%Z; split; [exact G1 | lia]|].
  constructor; [exists 1%Z; split; [exact G2 | lia]|]. constructor.
Defined.

(** The merge of shows that were enriched before: their season objects
    carry [season_number] and no [season], the comparator reads 1 for each
    of them, and the seasons stay in the order in which they were given. *)
Example merged_enriched_seasons_keep_order :
  map (fun sr => (sr_title sr, map sf_season_number (sr_seasons sr)))
    (_mergeTvSeasons
       [Show (lit "Dark") [] [SeasonFragment None (Some (Int 3)) []];
        Show (lit "Dark") [] [SeasonFragment None (Some (Int 1)) []]])
  = [(lit "Dark", [Some (Int 3); Some (Int 1)])].
Proof. vm_compute. reflexivity. Qed.

(** The episodes of a fragment built by [_getSeasonEpisodes] stay in the
    order of the listing: no episode object has the field [episode] that
    the comparator reads. *)
Lemma push_episode_no_episode_field : forall baseUrl seasonPath items acc,
  Forall (fun e => e_episode e = None) acc ->
  Forall (fun e => e_episode e = None) (fold_left (push_episode baseUrl seasonPath) items acc).
Proof.
  intros baseUrl seasonPath items. induction items as [|it items IH]; intros acc H; simpl; [exact H|].
  apply IH. unfold push_episode.
  destruct (negb _ && _)%bool; [|exact H].
  destruct (ContentDetector.truthy_field _); apply Forall_app; split; try exact H;
    constructor; try constructor; reflexivity.
Qed.

Lemma insert_all_equal : forall (l : list episode_ref) x,
  Forall (fun e => e_episode e = None) (x :: l) -> insert_stable episode_gt x l = x :: l.
Proof.
  intros l x H. destruct l as [|y l]; [reflexivity|]. simpl.
  inversion H as [|? ? Hx Hl]; subst. inversion Hl as [|? ? Hy _]; subst.
  unfold episode_gt. rewrite Hx, Hy. reflexivity.
Qed.

Lemma _getSeasonEpisodes_listing_order : forall baseUrl items seasonPath,
  _getSeasonEpisodes baseUrl (AlistAPI.Returned (Some items)) seasonPath =
  fold_left (push_episode baseUrl seasonPath) items [].
Proof.
  intros baseUrl items seasonPath. unfold _getSeasonEpisodes.
  pose proof (push_episode_no_episode_field baseUrl seasonPath items [] (Forall_nil _)) as H.
  induction H as [|x l Hx Hl IH]; [reflexivity|].
  unfold sort in *. simpl. rewrite IH. apply insert_all_equal. constructor; assumption.
Qed.

End SeasonMerge.

(* ------------------------------------------------------------------ *)
(** ** The matcher: what a match consumes and captures                 *)
(* ------------------------------------------------------------------ *)

(** The greedy repetition of one character set, by recursion on the input. *)
Fixpoint take_greedy (test : char -> bool) (k : cont) (lo : nat) (hi : option nat)
  (pv : option char) (s : jsstring) (cp : list (nat * jsstring)) {struct s} : option mstate :=
  let stop := if lo =? 0 then k (MState pv s cp) else None in
  match hi with
  | Some O => k (MState pv s cp)
  | _ =>
      match s with
      | c :: tl =>
          if test c
          then orelse (take_greedy test k (Nat.pred lo) (option_map Nat.pred hi) (Some c) tl cp) stop
          else stop
      | [] => stop
      end
  end.

Lemma orelse_none_r : forall {A} (x : option A), orelse x None = x.
Proof. intros A [x|]; reflexivity. Qed.

Lemma rep_chr_greedy : forall ic cs k fuel lo hi pv s cp,
  length s < fuel ->
  rep_loop (m ic (Chr cs)) k true fuel lo hi (MState pv s cp) =
  take_greedy (cset_test ic cs) k lo hi pv s cp.
Proof.
  intros ic cs k fuel. induction fuel as [|fuel IH]; intros lo hi pv s cp Hf; [lia|].
  destruct hi as [[|h]|].
  - destruct s; reflexivity.
  - cbn [rep_loop]. destruct s as [|c tl].
    + simpl. destruct lo; reflexivity.
    + cbn [m rest caps take_greedy]. destruct (cset_test ic cs c).
      * replace ((lo =? 0) && (length tl =? length (c :: tl)))%bool with false.
        2:{ symmetry. apply andb_false_iff. right. apply Nat.eqb_neq. simpl. lia. }
        rewrite IH by (simpl in Hf; lia).
        destruct lo; simpl; [reflexivity | apply eq_sym, orelse_none_r].
      * destruct lo; reflexivity.
  - cbn [rep_loop]. destruct s as [|c tl].
    + simpl. destruct lo; reflexivity.
    + cbn [m rest caps take_greedy]. destruct (cset_test ic cs c).
      * replace ((lo =? 0) && (length tl =? length (c :: tl)))%bool with false.
        2:{ symmetry. apply andb_false_iff. right. apply Nat.eqb_neq. simpl. lia. }
        rewrite IH by (simpl in Hf; lia).
        destruct lo; simpl; [reflexivity | apply eq_sym, orelse_none_r].
      * destruct lo; reflexivity.
Qed.

Lemma m_rep_chr : forall ic cs k lo hi st,
  m ic (Rep true lo hi (Chr cs)) k st =
  take_greedy (cset_test ic cs) k lo hi (prev st) (rest st) (caps st).
Proof.
  intros. destruct st as [pv s cp]. cbn [m rest prev caps].
  apply rep_chr_greedy. lia.
Qed.

(** * The declarative meaning of a pattern *)

Fixpoint iter_rel {S : Type} (R : S -> S -> Prop) (n : nat) (a c : S) : Prop :=
  match n with
  | O => c = a
  | S n' => exists b, R a b /\ iter_rel R n' b c
  end.

Fixpoint matches (ic : bool) (r : regex) (st st' : mstate) {struct r} : Prop :=
  match r with
  | Eps => st' = st
  | Chr cs =>
      exists c, rest st = c :: rest st' /\ cset_test ic cs c = true
                /\ prev st' = Some c /\ caps st' = caps st
  | Seq a b => exists mid, matches ic a st mid /\ matches ic b mid st'
  | Alt a b => matches ic a st st' \/ matches ic b st st'
  | Rep _ lo hi a =>
      exists n,
        match hi with Some h => Nat.min lo h <= n /\ n <= h | None => lo <= n end
        /\ iter_rel (matches ic a) n st st'
  | Grp i a =>
      exists st1, matches ic a st st1
                  /\ st' = MState (prev st1) (rest st1) ((i, consumed st st1) :: caps st1)
  | Bol => st' = st /\ prev st = None
  | Eol => st' = st /\ rest st = []
  | WordB =>
      st' = st /\ xorb (is_word_opt (prev st)) (is_word_opt (hd_error (rest st))) = true
  | NotBehind cs =>
      st' = st /\ match prev st with Some c => cset_test ic cs c = false | None => True end
  | NotAhead cs =>
      st' = st /\ match rest st with c :: _ => cset_test ic cs c = false | [] => True end
  end.

Lemma orelse_some : forall {A} (x y : option A) v,
  orelse x y = Some v -> x = Some v \/ y = Some v.
Proof. intros A [x|] y v H; simpl in H; auto. Qed.

Section Soundness.
Variable ic : bool.

Lemma rep_loop_sound : forall a k g,
  (forall k st res, m ic a k st = Some res ->
     exists st', matches ic a st st' /\ k st' = Some res) ->
  forall fuel lo hi st res,
    rep_loop (m ic a) k g fuel lo hi st = Some res ->
    exists n st',
      match hi with Some h => Nat.min lo h <= n /\ n <= h | None => lo <= n end
      /\ iter_rel (matches ic a) n st st' /\ k st' = Some res.
Proof.
  intros a k g IHa. induction fuel as [|fuel IH]; intros lo hi st res H; [discriminate|].
  assert (Stop : k st = Some res -> lo = 0 \/ hi = Some 0 ->
            exists n st',
              match hi with Some h => Nat.min lo h <= n /\ n <= h | None => lo <= n end
              /\ iter_rel (matches ic a) n st st' /\ k st' = Some res).
  { intros Hk Hlo. exists 0, st. split; [|split; [reflexivity | exact Hk]].
    destruct hi as [h|]; destruct Hlo as [->|E]; try discriminate; try lia.
    injection E as ->. lia. }
  assert (Iter : m ic a (fun st' =>
                   if ((lo =? 0) && (length (rest st') =? length (rest st)))%bool then None
                   else rep_loop (m ic a) k g fuel (Nat.pred lo) (option_map Nat.pred hi) st') st
                 = Some res -> hi <> Some 0 ->
            exists n st',
              match hi with Some h => Nat.min lo h <= n /\ n <= h | None => lo <= n end
              /\ iter_rel (matches ic a) n st st' /\ k st' = Some res).
  { intros Hi Hhi. apply IHa in Hi. destruct Hi as (st1 & M1 & C).
    destruct ((lo =? 0) && _)%bool; [discriminate|].
    apply IH in C. destruct C as (n & st' & B & I & K).
    exists (S n), st'. split; [|split; [exists st1; split; assumption | exact K]].
    destruct hi as [[|h]|]; simpl in B; [congruence | lia | lia]. }
  cbn [rep_loop] in H.
  destruct hi as [[|h]|].
  - apply Stop; auto.
  - destruct (0 <? lo) eqn:L; [apply Iter; [exact H | discriminate]|].
    apply Nat.ltb_ge in L.
    destruct g; apply orelse_some in H; destruct H as [H|H];
      try (apply Iter; [exact H | discriminate]); apply Stop; auto; lia.
  - destruct (0 <? lo) eqn:L; [apply Iter; [exact H | discriminate]|].
    apply Nat.ltb_ge in L.
    destruct g; apply orelse_some in H; destruct H as [H|H];
      try (apply Iter; [exact H | discriminate]); apply Stop; auto; lia.
Qed.

Theorem m_sound : forall r k st res,
  m ic r k st = Some res -> exists st', matches ic r st st' /\ k st' = Some res.
Proof.
  induction r as [|cs|a IHa b IHb|a IHa b IHb|g lo hi a IHa|i a IHa| | | |cs|cs];
    intros k st res H; cbn [m] in H.
  - exists st. split; [reflexivity | exact H].
  - destruct (rest st) as [|c tl] eqn:R; [discriminate|].
    destruct (cset_test ic cs c) eqn:T; [|discriminate].
    eexists. split; [|exact H]. exists c. simpl. auto.
  - apply IHa in H. destruct H as (mid & Ma & H). apply IHb in H. destruct H as (st' & Mb & H).
    exists st'. split; [exists mid; split; assumption | exact H].
  - apply orelse_some in H. destruct H as [H|H]; [apply IHa in H | apply IHb in H];
      destruct H as (st' & M & H); exists st'; (split; [|exact H]); [left | right]; exact M.
  - apply (rep_loop_sound a k g IHa) in H. destruct H as (n & st' & B & I & K).
    exists st'. split; [exists n; split; assumption | exact K].
  - apply IHa in H. destruct H as (st1 & M & H).
    eexists. split; [exists st1; split; [exact M | reflexivity] | exact H].
  - destruct (prev st) eqn:P; [discriminate|]. exists st. simpl. auto.
  - destruct (rest st) eqn:R; [|discriminate]. exists st. simpl. auto.
  - destruct (xorb _ _) eqn:X; [|discriminate]. exists st. simpl. auto.
  - exists st. simpl. destruct (prev st) as [c|]; [|auto].
    destruct (cset_test ic cs c); [discriminate | auto].
  - exists st. simpl. destruct (rest st) as [|c tl]; [auto|].
    destruct (cset_test ic cs c); [discriminate | auto].
Qed.

End Soundness.

(** * What a match consumes and captures *)

Lemma iter_rel_ind_inv : forall {S} (R : S -> S -> Prop) (P : S -> S -> Prop),
  (forall a, P a a) ->
  (forall a b c, R a b -> P b c -> P a c) ->
  forall n a c, iter_rel R n a c -> P a c.
Proof.
  intros S R P H0 HS. induction n as [|n IH]; intros a c H; simpl in H.
  - subst. apply H0.
  - destruct H as (b & Hab & Hbc). eapply HS; [exact Hab | apply IH; exact Hbc].
Qed.

(** A match consumes a prefix of the input. *)
Lemma matches_suffix : forall ic r st st',
  matches ic r st st' -> exists l, rest st = l ++ rest st'.
Proof.
  intros ic. induction r as [|cs|a IHa b IHb|a IHa b IHb|g lo hi a IHa|i a IHa| | | |cs|cs];
    intros st st' H; simpl in H.
  - subst. exists []. reflexivity.
  - destruct H as (c & R & _). exists [c]. exact R.
  - destruct H as (mid & Ha & Hb). apply IHa in Ha. apply IHb in Hb.
    destruct Ha as (l1 & E1). destruct Hb as (l2 & E2).
    exists (l1 ++ l2). rewrite E1, E2, app_assoc. reflexivity.
  - destruct H as [H|H]; [apply IHa | apply IHb]; exact H.
  - destruct H as (n & _ & I).
    revert I. apply (iter_rel_ind_inv (matches ic a)
                       (fun s s' => exists l, rest s = l ++ rest s')).
    + intro s. exists []. reflexivity.
    + intros s1 s2 s3 H12 (l2 & E2). apply IHa in H12. destruct H12 as (l1 & E1).
      exists (l1 ++ l2). rewrite E1, E2, app_assoc. reflexivity.
  - destruct H as (st1 & Ha & ->). simpl. apply IHa. exact Ha.
  - destruct H as [-> _]. exists []. reflexivity.
  - destruct H as [-> _]. exists []. reflexivity.
  - destruct H as [-> _]. exists []. reflexivity.
  - destruct H as [-> _]. exists []. reflexivity.
  - destruct H as [-> _]. exists []. reflexivity.
Qed.

Lemma consumed_prefix : forall st st' l,
  rest st = l ++ rest st' -> consumed st st' = l.
Proof.
  intros st st' l E. unfold consumed. rewrite E, length_app.
  replace (length l + length (rest st') - length (rest st')) with (length l) by lia.
  rewrite firstn_app, Nat.sub_diag, firstn_all. simpl. apply app_nil_r.
Qed.

(** ** The iteration bound of a repetition is never reached

    Any bound above [lo + length (rest st)] gives the same result, so the
    bound chosen by [m] for a repetition does not cut a match short. *)

(** A matcher calls its continuation on states that have no more input
    left than the state it started from. *)
Definition agree_below (st : mstate) (k k' : cont) : Prop :=
  forall st', length (rest st') <= length (rest st) -> k st' = k' st'.

Lemma rep_loop_cont_ext : forall (ma : cont -> mstate -> option mstate),
  (forall k k' st, agree_below st k k' -> ma k st = ma k' st) ->
  forall g fuel k k' lo hi st,
    agree_below st k k' ->
    rep_loop ma k g fuel lo hi st = rep_loop ma k' g fuel lo hi st.
Proof.
  intros ma Hma g. induction fuel as [|fuel IH]; intros k k' lo hi st H; [reflexivity|].
  cbn [rep_loop].
  assert (Hk : k st = k' st) by (apply H; lia).
  assert (Hi : forall h,
            ma (fun st' => if ((lo =? 0) && (length (rest st') =? length (rest st)))%bool
                           then None else rep_loop ma k g fuel (Nat.pred lo) h st') st
            = ma (fun st' => if ((lo =? 0) && (length (rest st') =? length (rest st)))%bool
                             then None else rep_loop ma k' g fuel (Nat.pred lo) h st') st).
  { intro h. apply Hma. intros st' L. destruct ((lo =? 0) && _)%bool; [reflexivity|].
    apply IH. intros st'' L'. apply H. lia. }
  destruct hi as [[|h]|]; [exact Hk | |]; rewrite Hi, Hk; reflexivity.
Qed.

Lemma m_cont_ext : forall ic r k k' st,
  agree_below st k k' -> m ic r k st = m ic r k' st.
Proof.
  intros ic. induction r as [|cs|a IHa b IHb|a IHa b IHb|g lo hi a IHa|i a IHa| | | |cs|cs];
    intros k k' st H; cbn [m];
    try (rewrite (H st (le_n _)); reflexivity).
  - destruct (rest st) as [|c tl] eqn:R; [reflexivity|].
    destruct (cset_test ic cs c); [|reflexivity].
    apply H. cbn [rest]. rewrite R. simpl. lia.
  - apply IHa. intros st' L. apply IHb. intros st'' L'. apply H. lia.
  - rewrite (IHa k k' st H), (IHb k k' st H). reflexivity.
  - apply rep_loop_cont_ext; [exact IHa | exact H].
  - apply IHa. intros st' L. apply H. exact L.
Qed.

(** The fuel of a quantifier is never exhausted: any amount above the
    minimum plus the input left gives the same answer. *)
Lemma rep_fuel_irrelevant : forall ic a k g fuel1 fuel2 lo hi st,
  lo + length (rest st) < fuel1 ->
  lo + length (rest st) < fuel2 ->
  rep_loop (m ic a) k g fuel1 lo hi st = rep_loop (m ic a) k g fuel2 lo hi st.
Proof.
  intros ic a k g. induction fuel1 as [|fuel1 IH]; intros fuel2 lo hi st H1 H2; [lia|].
  destruct fuel2 as [|fuel2]; [lia|]. cbn [rep_loop].
  assert (Hi : forall h,
            m ic a (fun st' => if ((lo =? 0) && (length (rest st') =? length (rest st)))%bool
                               then None else rep_loop (m ic a) k g fuel1 (Nat.pred lo) h st') st
            = m ic a (fun st' => if ((lo =? 0) && (length (rest st') =? length (rest st)))%bool
                                 then None
                                 else rep_loop (m ic a) k g fuel2 (Nat.pred lo) h st') st).
  { intro h. apply m_cont_ext. intros st' L.
    destruct ((lo =? 0) && (length (rest st') =? length (rest st)))%bool eqn:C; [reflexivity|].
    apply andb_false_iff in C.
    apply IH; destruct C as [C|C]; apply Nat.eqb_neq in C; lia. }
  destruct hi as [[|h]|]; [reflexivity | |]; rewrite Hi; reflexivity.
Qed.

Lemma m_rep_any_fuel : forall ic g lo hi a k st fuel,
  lo + length (rest st) < fuel ->
  m ic (Rep g lo hi a) k st = rep_loop (m ic a) k g fuel lo hi st.
Proof. intros. cbn [m]. apply rep_fuel_irrelevant; lia. Qed.

Fixpoint no_groups (r : regex) : bool :=
  match r with
  | Seq a b | Alt a b => (no_groups a && no_groups b)%bool
  | Rep _ _ _ a => no_groups a
  | Grp _ _ => false
  | _ => true
  end.

Lemma no_groups_caps : forall ic r st st',
  no_groups r = true -> matches ic r st st' -> caps st' = caps st.
Proof.
  intros ic. induction r as [|cs|a IHa b IHb|a IHa b IHb|g lo hi a IHa|i a IHa| | | |cs|cs];
    intros st st' W H; simpl in H, W; try discriminate.
  - subst. reflexivity.
  - destruct H as (c & _ & _ & _ & C). exact C.
  - apply andb_true_iff in W. destruct W as [Wa Wb].
    destruct H as (mid & Ha & Hb). rewrite (IHb _ _ Wb Hb). apply IHa; assumption.
  - apply andb_true_iff in W. destruct W as [Wa Wb].
    destruct H as [H|H]; [apply IHa | apply IHb]; assumption.
  - destruct H as (n & _ & I). revert I.
    apply (iter_rel_ind_inv (matches ic a) (fun s s' => caps s' = caps s)).
    + reflexivity.
    + intros s1 s2 s3 H12 E. rewrite E. apply IHa; assumption.
  - destruct H as [-> _]. reflexivity.
  - destruct H as [-> _]. reflexivity.
  - destruct H as [-> _]. reflexivity.
  - destruct H as [-> _]. reflexivity.
  - destruct H as [-> _]. reflexivity.
Qed.

(** Patterns whose groups are runs of digits, [(\d{lo,hi})], placed in
    sequence; [bound i] is the most digits that group [i] may take. *)
Fixpoint digit_groups (bound : nat -> nat) (r : regex) : bool :=
  match r with
  | Seq a b => (digit_groups bound a && digit_groups bound b)%bool
  | Alt a b => (no_groups a && no_groups b)%bool
  | Rep _ _ _ a => no_groups a
  | Grp i (Rep _ lo (Some hi) (Chr CDigit)) => ((1 <=? lo) && (lo <=? hi) && (hi <=? bound i))%bool
  | Grp _ _ => false
  | _ => true
  end.

Fixpoint groups_of (r : regex) : list nat :=
  match r with
  | Seq a b => groups_of a ++ groups_of b
  | Grp i _ => [i]
  | _ => []
  end.

Definition digit_string (n : nat) (v : jsstring) : Prop :=
  v <> [] /\ length v <= n /\ Forall (fun c => is_digit c = true) v.

Lemma iter_digits : forall ic n st st',
  iter_rel (matches ic (Chr CDigit)) n st st' ->
  exists l, rest st = l ++ rest st' /\ length l = n
            /\ Forall (fun c => is_digit c = true) l /\ caps st' = caps st.
Proof.
  intros ic. induction n as [|n IH]; intros st st' H; simpl in H.
  - subst. exists []. repeat split; constructor.
  - destruct H as (b & (c & R & T & _ & C) & I). apply IH in I.
    destruct I as (l & E & L & F & C').
    exists (c :: l). simpl. rewrite R, E. repeat split; try congruence.
    constructor; [exact T | exact F].
Qed.

Lemma digit_groups_no_groups : forall bound r, no_groups r = true -> digit_groups bound r = true.
Proof.
  intros bound. induction r; simpl; intro H; try reflexivity; try discriminate; try exact H.
  apply andb_true_iff in H. destruct H as [Ha Hb]. rewrite IHr1, IHr2 by assumption. reflexivity.
Qed.

Lemma digit_groups_caps : forall ic bound r st st',
  digit_groups bound r = true -> matches ic r st st' ->
  exists new,
    caps st' = new ++ caps st
    /\ map fst new = rev (groups_of r)
    /\ Forall (fun iv => digit_string (bound (fst iv)) (snd iv)) new.
Proof.
  intros ic bound.
  assert (Plain : forall r st st', no_groups r = true -> groups_of r = [] ->
            matches ic r st st' ->
            exists new, caps st' = new ++ caps st /\ map fst new = rev (groups_of r)
                        /\ Forall (fun iv => digit_string (bound (fst iv)) (snd iv)) new).
  { intros r st st' W G H. exists []. rewrite G. simpl.
    split; [apply (no_groups_caps ic r); assumption | split; constructor]. }
  induction r as [|cs|a IHa b IHb|a IHa b IHb|g lo hi a IHa|i a IHa| | | |cs|cs];
    intros st st' W H; try (apply Plain; [reflexivity | reflexivity | exact H]).
  - simpl in W. apply andb_true_iff in W. destruct W as [Wa Wb].
    simpl in H. destruct H as (mid & Ha & Hb).
    destruct (IHa _ _ Wa Ha) as (n1 & C1 & I1 & F1).
    destruct (IHb _ _ Wb Hb) as (n2 & C2 & I2 & F2).
    exists (n2 ++ n1). simpl. rewrite C2, C1, app_assoc, map_app, rev_app_distr, I1, I2.
    repeat split. apply Forall_app. split; assumption.
  - simpl in W. apply Plain; [simpl; exact W | reflexivity | exact H].
  - simpl in W. apply Plain; [simpl; exact W | reflexivity | exact H].
  - cbn [digit_groups] in W.
    destruct a as [| | | |g lo hi a'| | | | | |]; try discriminate.
    destruct hi as [hi|]; [|discriminate].
    destruct a' as [|cs| | | | | | | | |]; try discriminate.
    destruct cs; try discriminate.
    apply andb_true_iff in W. destruct W as [W Whi].
    apply andb_true_iff in W. destruct W as [Wlo Wle].
    apply Nat.leb_le in Whi, Wlo, Wle.
    simpl in H. destruct H as (st1 & (n & [Bl Bh] & I) & ->).
    apply (iter_digits ic) in I. destruct I as (l & E & L & F & C).
    exists [(i, l)]. simpl. rewrite (consumed_prefix _ _ _ E), C.
    repeat split. constructor; [|constructor]. simpl.
    unfold digit_string. repeat split; [|lia|exact F].
    destruct l; [simpl in L; lia | discriminate].
Qed.

Lemma lookup_in_new : forall (new : list (nat * jsstring)) i (P : nat -> jsstring -> Prop),
  In i (map fst new) ->
  Forall (fun iv => P (fst iv) (snd iv)) new ->
  exists v, lookup i new = Some v /\ P i v.
Proof.
  induction new as [|[j v] new IH]; intros i P Hin F; [contradiction|].
  inversion F as [|? ? Hv F']; subst. simpl.
  destruct (Nat.eqb i j) eqn:E.
  - apply Nat.eqb_eq in E. subst. exists v. split; [reflexivity | exact Hv].
  - apply Nat.eqb_neq in E. destruct Hin as [Hin|Hin]; [simpl in Hin; congruence|].
    apply IH; assumption.
Qed.

Lemma exec_from_some : forall p s pv idx r,
  exec_from p pv s idx = Some r ->
  exists pv' s' st', match_here p pv' s' = Some st' /\ m_caps r = caps st'
                     /\ (exists pre, s = pre ++ s') /\ m_text r = consumed (MState pv' s' []) st'.
Proof.
  intros p. induction s as [|c s IH]; intros pv idx r H; simpl in H.
  - destruct (match_here p pv []) as [st'|] eqn:M; [|discriminate].
    injection H as <-. exists pv, [], st'. simpl. repeat split; try assumption.
    exists []. reflexivity.
  - destruct (match_here p pv (c :: s)) as [st'|] eqn:M.
    + injection H as <-. exists pv, (c :: s), st'. simpl. repeat split; try assumption.
      exists []. reflexivity.
    + apply IH in H. destruct H as (pv' & s' & st' & M' & C & (pre & E) & T).
      exists pv', s', st'. repeat split; try assumption. exists (c :: pre). rewrite E. reflexivity.
Qed.

(** The groups of a match of such a pattern are runs of digits. *)
Theorem digit_groups_exec : forall bound p s r i,
  digit_groups bound (p_re p) = true ->
  exec p s = Some r ->
  In i (groups_of (p_re p)) ->
  exists v, group i r = Some v /\ digit_string (bound i) v.
Proof.
  intros bound p s r i W H Hin. unfold exec in H.
  apply exec_from_some in H. destruct H as (pv' & s' & st' & M & C & _ & _).
  unfold match_here in M. apply m_sound in M. destruct M as (st'' & M & E).
  injection E as ->.
  destruct (digit_groups_caps _ bound _ _ _ W M) as (new & Cn & I & F).
  simpl in Cn. rewrite app_nil_r in Cn.
  unfold group. rewrite C, Cn.
  apply (lookup_in_new new i (fun j v => digit_string (bound j) v)); [|exact F].
  rewrite I. apply in_rev in Hin. exact Hin.
Qed.

(** * parseInt on a run of digits *)

Lemma is_digit_range : forall c, is_digit c = true -> (48 <= c <= 57)%N.
Proof.
  intros c H. unfold is_digit, in_range in H. apply andb_true_iff in H.
  destruct H as [H1 H2]. apply N.leb_le in H1, H2. lia.
Qed.

Lemma is_digit_not_space : forall c, is_digit c = true -> is_space c = false.
Proof.
  intros c H. apply is_digit_range in H. unfold is_space, in_range.
  repeat (apply orb_false_iff; split);
    try (apply N.eqb_neq; lia);
    apply andb_false_iff; (left; apply N.leb_gt; lia) || (right; apply N.leb_gt; lia).
Qed.

Lemma digits_prefix_all : forall v,
  Forall (fun c => is_digit c = true) v -> digits_prefix v = v.
Proof.
  induction v as [|c v IH]; intro F; [reflexivity|].
  inversion F as [|? ? Hc Hv]; subst. simpl. rewrite Hc, IH by assumption. reflexivity.
Qed.

Lemma dec_value_bound_from : forall v acc,
  Forall (fun c => is_digit c = true) v -> (0 <= acc)%Z ->
  (0 <= fold_left (fun a c => 10 * a + digit_val c) v acc
   /\ fold_left (fun a c => 10 * a + digit_val c) v acc + 1 <= (acc + 1) * 10 ^ Z.of_nat (length v))%Z.
Proof.
  induction v as [|c v IH]; intros acc F Hacc.
  - simpl. lia.
  - inversion F as [|? ? Hc Hv]; subst.
    apply is_digit_range in Hc.
    assert (D : (0 <= digit_val c <= 9)%Z) by (unfold digit_val; lia).
    cbn [fold_left length]. destruct (IH (10 * acc + digit_val c)%Z Hv ltac:(lia)) as [L U].
    split; [exact L|].
    rewrite Nat2Z.inj_succ, Z.pow_succ_r by lia.
    assert (P : (0 < 10 ^ Z.of_nat (length v))%Z) by (apply Z.pow_pos_nonneg; lia).
    nia.
Qed.

Lemma dec_value_bound : forall n v,
  digit_string n v -> (0 <= dec_value v < 10 ^ Z.of_nat n)%Z.
Proof.
  intros n v (_ & L & F). unfold dec_value.
  destruct (dec_value_bound_from v 0%Z F ltac:(lia)) as [Lo Up].
  assert (M : (10 ^ Z.of_nat (length v) <= 10 ^ Z.of_nat n)%Z)
    by (apply Z.pow_le_mono_r; lia).
  lia.
Qed.

Lemma parseInt_digits : forall n v radix10,
  digit_string n v -> parseInt v radix10 = Int (dec_value v).
Proof.
  intros n v radix10 (Hne & _ & F). destruct v as [|c v]; [contradiction|].
  inversion F as [|? ? Hc Hv]; subst.
  pose proof (is_digit_range c Hc) as Rc.
  unfold parseInt. cbn [drop_while]. rewrite (is_digit_not_space c Hc).
  replace (N.eqb c 45) with false by (symmetry; apply N.eqb_neq; lia).
  replace (N.eqb c 43) with false by (symmetry; apply N.eqb_neq; lia).
  rewrite (digits_prefix_all (c :: v) F).
  destruct radix10; [reflexivity|].
  destruct v as [|x v]; [reflexivity|].
  inversion Hv as [|? ? Hx _]; subst. apply is_digit_range in Hx.
  replace (N.eqb x 120) with false by (symmetry; apply N.eqb_neq; lia).
  replace (N.eqb x 88) with false by (symmetry; apply N.eqb_neq; lia).
  rewrite andb_false_r. reflexivity.
Qed.

(** The number read from a digit group. *)
Lemma group_number : forall bound p s r i radix10,
  digit_groups bound (p_re p) = true ->
  exec p s = Some r ->
  In i (groups_of (p_re p)) ->
  exists z, match group i r with Some v => parseInt v radix10 | None => NaN end = Int z
            /\ (0 <= z < 10 ^ Z.of_nat (bound i))%Z.
Proof.
  intros bound p s r i radix10 W H Hin.
  destruct (digit_groups_exec bound p s r i W H Hin) as (v & G & D).
  rewrite G. exists (dec_value v). split; [apply (parseInt_digits (bound i)); exact D|].
  apply dec_value_bound. exact D.
Qed.

(* ------------------------------------------------------------------ *)
(** ** The bounds on season and episode numbers (C2)                   *)
(* ------------------------------------------------------------------ *)

Section NumberBounds.
Import ContentDetector.


Definition two_digits (_ : nat) : nat := 2.

Definition combined_shape (p : pattern) : Prop :=
  digit_groups two_digits (p_re p) = true
  /\ In 1 (groups_of (p_re p)) /\ In 2 (groups_of (p_re p)).

Definition single_shape (p : pattern) : Prop :=
  digit_groups two_digits (p_re p) = true /\ In 1 (groups_of (p_re p)).

Lemma seasonEpisodePatterns_shape : Forall combined_shape seasonEpisodePatterns.
Proof.
  repeat constructor; try (vm_compute; reflexivity); vm_compute; tauto.
Qed.

Lemma episodeOnlyPatterns_shape : Forall single_shape episodeOnlyPatterns.
Proof.
  repeat constructor; try (vm_compute; reflexivity); vm_compute; tauto.
Qed.

Definition in_bounds (o : option num) (hi : Z) : Prop :=
  forall n, o = Some n -> exists z, n = Int z /\ (0 <= z <= hi)%Z.

Lemma try_season_episode_bounds : forall filename ps res,
  Forall combined_shape ps ->
  try_season_episode ps filename = Some res ->
  in_bounds (season res) 50 /\ in_bounds (episode res) 99.
Proof.
  intros filename ps res F. induction F as [|p ps (W & I1 & I2) F IH]; intro H; [discriminate|].
  cbn [try_season_episode] in H.
  destruct (exec p filename) as [r|] eqn:E; [|apply IH; exact H].
  destruct (group_number two_digits p filename r 1 true W E I1) as (z1 & G1 & B1).
  destruct (group_number two_digits p filename r 2 true W E I2) as (z2 & G2 & B2).
  unfold group_int in H. rewrite G1, G2 in H.
  destruct (num_gt (Int z1) 50 || num_gt (Int z2) 200)%bool eqn:G; [apply IH; exact H|].
  apply orb_false_iff in G. destruct G as [Gs _]. simpl in Gs. apply Z.ltb_ge in Gs.
  injection H as <-. unfold two_digits in B1, B2. simpl in B1, B2.
  split; intros n Hn; injection Hn as <-; eexists; (split; [reflexivity|]); lia.
Qed.

Lemma try_episode_only_bounds : forall filename ps res,
  Forall single_shape ps ->
  try_episode_only ps filename = Some res ->
  season res = None /\ in_bounds (episode res) 99.
Proof.
  intros filename ps res F. induction F as [|p ps (W & I1) F IH]; intro H; [discriminate|].
  cbn [try_episode_only] in H.
  destruct (exec p filename) as [r|] eqn:E; [|apply IH; exact H].
  destruct (group_number two_digits p filename r 1 true W E I1) as (z1 & G1 & B1).
  unfold group_int in H. rewrite G1 in H.
  destruct (num_gt (Int z1) 200) eqn:G; [apply IH; exact H|].
  injection H as <-. unfold two_digits in B1. simpl in B1.
  split; [reflexivity|]. intros n Hn; injection Hn as <-; eexists; (split; [reflexivity|]); lia.
Qed.

Theorem extractSeasonEpisode_bounds : forall filename,
  in_bounds (season (extractSeasonEpisode filename)) 50
  /\ in_bounds (episode (extractSeasonEpisode filename)) 99.
Proof.
  intro filename. unfold extractSeasonEpisode.
  destruct (try_season_episode seasonEpisodePatterns filename) as [res|] eqn:C.
  - apply (try_season_episode_bounds filename _ res seasonEpisodePatterns_shape C).
  - destruct (try_episode_only episodeOnlyPatterns filename) as [res|] eqn:O.
    + destruct (try_episode_only_bounds filename _ res episodeOnlyPatterns_shape O) as [S B].
      split; [rewrite S; intros n Hn; discriminate | exact B].
    + split; intros n Hn; discriminate.
Qed.

(** The two patterns of [PathAnalyzer._analyzeFileName]. *)
Definition season2_episode3 (i : nat) : nat := if i =? 1 then 2 else 3.

Lemma _analyzeFileName_bounds : forall filename,
  in_bounds (PathAnalyzer.md_season (PathAnalyzer._analyzeFileName filename)) 99
  /\ in_bounds (PathAnalyzer.md_episode (PathAnalyzer._analyzeFileName filename)) 999.
Proof.
  intro filename. unfold PathAnalyzer._analyzeFileName.
  destruct (exec PathAnalyzer.re_season_episode filename) as [r|] eqn:E.
  - assert (W : digit_groups season2_episode3 (p_re PathAnalyzer.re_season_episode) = true)
      by (vm_compute; reflexivity).
    destruct (group_number season2_episode3 _ filename r 1 false W E) as (z1 & G1 & B1);
      [vm_compute; tauto|].
    destruct (group_number season2_episode3 _ filename r 2 false W E) as (z2 & G2 & B2);
      [vm_compute; tauto|].
    unfold PathAnalyzer.group_int. cbn [PathAnalyzer.md_season PathAnalyzer.md_episode].
    rewrite G1, G2. unfold season2_episode3 in B1, B2. simpl in B1, B2.
    split; intros n Hn; injection Hn as <-; eexists; (split; [reflexivity|]); lia.
  - destruct (exec PathAnalyzer.re_episode filename) as [r|] eqn:E2.
    + assert (W : digit_groups (fun _ => 3) (p_re PathAnalyzer.re_episode) = true)
        by (vm_compute; reflexivity).
      destruct (group_number (fun _ => 3) _ filename r 1 false W E2) as (z1 & G1 & B1);
        [vm_compute; tauto|].
      unfold PathAnalyzer.group_int. cbn [PathAnalyzer.md_season PathAnalyzer.md_episode].
      rewrite G1. simpl in B1.
      split; intros n Hn; [discriminate|].
      injection Hn as <-; eexists; (split; [reflexivity|]); lia.
    + cbn [PathAnalyzer.md_season PathAnalyzer.md_episode]. split; intros n Hn; discriminate.
Qed.

(** The claim as the specification words it, for a parsed name. *)
Definition within_limits (season episode : option num) : Prop :=
  in_bounds season 50 /\ in_bounds episode 200.

(** C2, counterexample: [PathAnalyzer._analyzeFileName] has no range
    guard and reads up to three episode digits. *)
Lemma analyzeFileName_reports_99_250 :
  PathAnalyzer.md_season (PathAnalyzer._analyzeFileName (lit "Show.S99E250.mkv")) = Some (Int 99)
  /\ PathAnalyzer.md_episode (PathAnalyzer._analyzeFileName (lit "Show.S99E250.mkv"))
     = Some (Int 250)
  /\ ~ within_limits
         (PathAnalyzer.md_season (PathAnalyzer._analyzeFileName (lit "Show.S99E250.mkv")))
         (PathAnalyzer.md_episode (PathAnalyzer._analyzeFileName (lit "Show.S99E250.mkv"))).
Proof.
  split; [vm_compute; reflexivity|]. split; [vm_compute; reflexivity|].
  intros [H _]. destruct (H (Int 99)) as (z & E & B); [vm_compute; reflexivity|].
  injection E as <-. lia.
Qed.

(** C2, amended: [ContentDetector.extractSeasonEpisode] never reports a
    season above 50 or an episode above 200 (its episodes have at most two
    digits, so at most 99), and a match of a combined pattern whose
    numbers are out of range is skipped, the next pattern being tried;
    [PathAnalyzer._analyzeFileName] has no range guard and reports a
    season of at most 99 and an episode of at most 999. *)
Theorem season_episode_limits : forall filename,
  (within_limits (season (extractSeasonEpisode filename))
     (episode (extractSeasonEpisode filename))
   /\ in_bounds (episode (extractSeasonEpisode filename)) 99)
  /\ (forall p ps r,
        exec p filename = Some r ->
        (num_gt (group_int 1 r) 50 || num_gt (group_int 2 r) 200)%bool = true ->
        try_season_episode (p :: ps) filename = try_season_episode ps filename)
  /\ (forall p ps r,
        exec p filename = Some r ->
        num_gt (group_int 1 r) 200 = true ->
        try_episode_only (p :: ps) filename = try_episode_only ps filename)
  /\ in_bounds (PathAnalyzer.md_season (PathAnalyzer._analyzeFileName filename)) 99
  /\ in_bounds (PathAnalyzer.md_episode (PathAnalyzer._analyzeFileName filename)) 999.
Proof.
  intro filename. destruct (extractSeasonEpisode_bounds filename) as [S E].
  split; [|split; [|split]].
  - split; [split|]; [exact S | | exact E].
    intros n Hn. destruct (E n Hn) as (z & -> & B). exists z. split; [reflexivity | lia].
  - intros p ps r X G. cbn [try_season_episode]. rewrite X. cbv zeta. rewrite G. reflexivity.
  - intros p ps r X G. cbn [try_episode_only]. rewrite X. cbv zeta. rewrite G. reflexivity.
  - apply _analyzeFileName_bounds.
Qed.

(** In [Show.S99E01.mkv] the first pattern matches with season 99; the
    match is skipped and the episode-only pattern reports episode 1. *)
Lemma season_episode_limits_witness :
  (exists r, exec (hd (Pattern false Eps) seasonEpisodePatterns) (lit "Show.S99E01.mkv") = Some r
             /\ group_int 1 r = Int 99)
  /\ try_season_episode seasonEpisodePatterns (lit "Show.S99E01.mkv")
     = try_season_episode (tl seasonEpisodePatterns) (lit "Show.S99E01.mkv")
  /\ extractSeasonEpisode (lit "Show.S99E01.mkv") = SeasonEpisode None (Some (Int 1)).
Proof.
  destruct (exec (hd (Pattern false Eps) seasonEpisodePatterns) (lit "Show.S99E01.mkv"))
    as [r|] eqn:E; [|vm_compute in E; discriminate].
  assert (G : group_int 1 r = Int 99) by (vm_compute in E; injection E as <-; reflexivity).
  split; [exists r; split; [reflexivity | exact G]|].
  split; [|vm_compute; reflexivity].
  destruct (season_episode_limits (lit "Show.S99E01.mkv")) as (_ & Skip & _).
  apply (Skip _ _ r E). rewrite G. reflexivity.
Defined.

End NumberBounds.

(* ------------------------------------------------------------------ *)
(** ** The season-episode token (C5)                                   *)
(* ------------------------------------------------------------------ *)

Section Token.
Import ContentDetector.

(** An ASCII letter in either case. *)
Definition letter (upper c : char) : Prop := c = upper \/ c = (upper + 32)%N.

Lemma test_letter : forall upper c,
  (65 <= upper <= 90)%N ->
  (cset_test true (CChar upper) c = true <-> letter upper c).
Proof.
  intros upper c U. unfold letter. cbn [cset_test]. unfold canonicalize, is_lower, in_range.
  replace ((97 <=? upper) && (upper <=? 122))%N with false
    by (symmetry; apply andb_false_iff; left; apply N.leb_gt; lia).
  destruct ((97 <=? c) && (c <=? 122))%N eqn:L.
  - apply andb_true_iff in L. destruct L as [L1 L2]. apply N.leb_le in L1, L2.
    rewrite N.eqb_eq. lia.
  - rewrite N.eqb_eq. split; [auto|]. intros [H|H]; [exact H|].
    subst. apply andb_false_iff in L. destruct L as [L|L]; apply N.leb_gt in L; lia.
Qed.

Lemma letter_not_digit : forall upper c,
  (65 <= upper <= 90)%N -> letter upper c -> is_digit c = false.
Proof.
  intros upper c U [->| ->]; unfold is_digit, in_range; apply andb_false_iff; right;
    apply N.leb_gt; lia.
Qed.

(** The code unit before the position reached after [l]. *)
Definition prev_after (pv : option char) (l : jsstring) : option char :=
  fold_left (fun _ c => Some c) l pv.

Definition not_at_digit (s : jsstring) : Prop :=
  match s with c :: _ => is_digit c = false | [] => True end.

(** A greedy run of digits takes the whole of a maximal run. *)
Lemma take_greedy_digits : forall l k lo hi pv s cp res,
  Forall (fun c => is_digit c = true) l ->
  lo <= length l -> length l <= hi ->
  (length l = hi \/ not_at_digit s) ->
  k (MState (prev_after pv l) s cp) = Some res ->
  take_greedy is_digit k lo (Some hi) pv (l ++ s) cp = Some res.
Proof.
  induction l as [|c l IH]; intros k lo hi pv s cp res F Hlo Hhi Hmax Hk.
  - simpl in Hlo, Hhi, Hk. assert (lo = 0) by lia. subst lo. simpl app.
    destruct hi as [|hi].
    + destruct s; exact Hk.
    + destruct Hmax as [Hmax|Hmax]; [discriminate|].
      destruct s as [|c s]; simpl; [exact Hk|]. simpl in Hmax. rewrite Hmax. exact Hk.
  - inversion F as [|? ? Hc Hl]; subst. simpl in Hlo, Hhi.
    destruct hi as [|hi]; [lia|].
    cbn [app take_greedy option_map Nat.pred]. rewrite Hc.
    rewrite (IH k (Nat.pred lo) hi (Some c) s cp res); try assumption; try lia.
    + reflexivity.
    + destruct Hmax as [Hmax|Hmax]; [left; simpl in Hmax; lia | right; exact Hmax].
Qed.

Lemma m_seq : forall ic a b k st, m ic (Seq a b) k st = m ic a (m ic b k) st.
Proof. reflexivity. Qed.

Lemma m_chr_cons : forall ic cs k pv c tl cp,
  m ic (Chr cs) k (MState pv (c :: tl) cp) =
  if cset_test ic cs c then k (MState (Some c) tl cp) else None.
Proof. reflexivity. Qed.

Lemma m_grp : forall ic i a k st,
  m ic (Grp i a) k st =
  m ic a (fun st' => k (MState (prev st') (rest st') ((i, consumed st st') :: caps st'))) st.
Proof. reflexivity. Qed.

(** [S(\d{1,2})E(\d{1,n})] with the [i] flag. *)
Definition sxe (n : nat) : regex :=
  Seq (Chr (CChar 83%N))
      (Seq (Grp 1 (Rep true 1 (Some 2) (Chr CDigit)))
           (Seq (Chr (CChar 69%N)) (Grp 2 (Rep true 1 (Some n) (Chr CDigit))))).

Lemma sxe_matches_token : forall n pv cS ds cE de tail,
  letter 83%N cS -> letter 69%N cE ->
  digit_string 2 ds -> digit_string n de ->
  (length de = n \/ not_at_digit tail) ->
  m true (sxe n) Some (MState pv (cS :: ds ++ cE :: de ++ tail) [])
  = Some (MState (prev_after (Some cE) de) tail [(2, de); (1, ds)]).
Proof.
  intros n pv cS ds cE de tail HS HE (Ns & Ls & Fs) (Ne & Le & Fe) Hmax.
  unfold sxe. rewrite m_seq, m_chr_cons.
  rewrite (proj2 (test_letter 83%N cS ltac:(lia)) HS).
  rewrite m_seq, m_grp, m_rep_chr. cbn [prev rest caps cset_test].
  apply take_greedy_digits; try assumption.
  - destruct ds; [contradiction | simpl; lia].
  - right. simpl. apply (letter_not_digit 69%N); [lia | exact HE].
  - cbn [prev rest caps]. rewrite m_seq, m_chr_cons.
    rewrite (proj2 (test_letter 69%N cE ltac:(lia)) HE).
    rewrite m_grp, m_rep_chr. cbn [prev rest caps cset_test].
    apply take_greedy_digits; try assumption.
    + destruct de; [contradiction | simpl; lia].
    + cbn [prev rest caps].
      rewrite (consumed_prefix (MState (Some cE) (de ++ tail) _)
                 (MState (prev_after (Some cE) de) tail _) de) by reflexivity.
      rewrite (consumed_prefix (MState (Some cS) (ds ++ cE :: de ++ tail) [])
                 (MState (prev_after (Some cS) ds) (cE :: de ++ tail) []) ds) by reflexivity.
      reflexivity.
Qed.

(** Conversely, where the pattern matches there is a token. *)
Lemma sxe_match_is_token : forall n pv s st,
  1 <= n ->
  m true (sxe n) Some (MState pv s []) = Some st ->
  exists cS ds cE de tail,
    s = cS :: ds ++ cE :: de ++ tail
    /\ letter 83%N cS /\ letter 69%N cE /\ digit_string 2 ds /\ digit_string n de.
Proof.
  intros n pv s st Hn H. apply m_sound in H. destruct H as (st' & M & _).
  unfold sxe in M. cbn [matches] in M.
  destruct M as (m1 & (cS & R1 & T1 & _ & _) & m2 & (a1 & (n1 & [B1 B1'] & I1) & E2)
                 & m3 & (cE & R3 & T3 & _ & _) & (a2 & (n2 & [B2 B2'] & I2) & E4)).
  apply (iter_digits true) in I1. destruct I1 as (ds & Rd & Ld & Fd & _).
  apply (iter_digits true) in I2. destruct I2 as (de & Re & Le & Fe & _).
  subst m2 st'. cbn [rest] in *.
  exists cS, ds, cE, de, (rest a2).
  split; [simpl in R1; rewrite R1, Rd, R3, Re; reflexivity|].
  split; [apply test_letter; [lia | exact T1]|].
  split; [apply test_letter; [lia | exact T3]|].
  split; (split; [|split]); try assumption; try lia.
  - destruct ds; [simpl in Ld; lia | discriminate].
  - destruct de; [simpl in Le; lia | discriminate].
Qed.

Lemma exec_from_skip : forall p pre pv s idx,
  (forall pv' pre1 pre2, pre = pre1 ++ pre2 -> pre2 <> [] ->
     match_here p pv' (pre2 ++ s) = None) ->
  exec_from p pv (pre ++ s) idx = exec_from p (prev_after pv pre) s (idx + length pre).
Proof.
  intros p. induction pre as [|c pre IH]; intros pv s idx H.
  - simpl. rewrite Nat.add_0_r. reflexivity.
  - assert (N : match_here p pv ((c :: pre) ++ s) = None)
      by (apply (H pv []); [reflexivity | discriminate]).
    simpl app in *. cbn [exec_from]. rewrite N.
    rewrite IH.
    + simpl. rewrite Nat.add_succ_r. reflexivity.
    + intros pv' pre1 pre2 E Hne. apply (H pv' (c :: pre1)); [rewrite E; reflexivity | exact Hne].
Qed.

Lemma exec_from_here : forall p pv s idx st,
  match_here p pv s = Some st ->
  exec_from p pv s idx = Some (MatchResult idx (firstn (length s - length (rest st)) s) (caps st)).
Proof. intros p pv s idx st H. destruct s; simpl; rewrite H; reflexivity. Qed.

(** A token [S<ds>E<de>] at the head of [s]. *)
Definition token (s ds de : jsstring) : Prop :=
  exists cS cE tail,
    s = cS :: ds ++ cE :: de ++ tail
    /\ letter 83%N cS /\ letter 69%N cE /\ digit_string 2 ds /\ digit_string 2 de.

(** The leftmost token of a name, its episode digits read greedily;
    [tail] is what follows it. *)
Definition leftmost_token (filename ds de tail : jsstring) : Prop :=
  exists pre cS cE,
    filename = pre ++ cS :: ds ++ cE :: de ++ tail
    /\ letter 83%N cS /\ letter 69%N cE /\ digit_string 2 ds /\ digit_string 2 de
    /\ (length de = 2 \/ not_at_digit tail)
    /\ (forall pre1 pre2 ds' de', pre = pre1 ++ pre2 -> pre2 <> [] ->
          ~ token (pre2 ++ cS :: ds ++ cE :: de ++ tail) ds' de').

Lemma digit_string_firstn : forall n k v,
  digit_string n v -> 1 <= k -> digit_string k (firstn k v).
Proof.
  intros n k v (Ne & _ & F) Hk. split; [|split].
  - destruct v; [contradiction|]. destruct k; [lia | discriminate].
  - rewrite length_firstn. lia.
  - apply Forall_forall. intros c Hc. rewrite Forall_forall in F. apply F.
    rewrite <- (firstn_skipn k v). apply in_or_app. left. exact Hc.
Qed.

Lemma digit_string_weaken : forall n k v, digit_string n v -> n <= k -> digit_string k v.
Proof. intros n k v (Ne & L & F) H. split; [exact Ne | split; [lia | exact F]]. Qed.

Lemma sxe_exec_leftmost : forall n filename ds de tail,
  2 <= n ->
  leftmost_token filename ds de tail ->
  (length de = n \/ not_at_digit tail) ->
  exists r, exec (Pattern true (sxe n)) filename = Some r
            /\ group 1 r = Some ds /\ group 2 r = Some de.
Proof.
  intros n filename ds de tail Hn (pre & cS & cE & -> & HS & HE & Ds & De & _ & Left) Hmax.
  unfold exec. rewrite exec_from_skip.
  - assert (M : match_here (Pattern true (sxe n)) (prev_after None pre)
                 (cS :: ds ++ cE :: de ++ tail)
               = Some (MState (prev_after (Some cE) de) tail [(2, de); (1, ds)])).
    { unfold match_here. cbn [p_icase p_re].
      apply sxe_matches_token; try assumption.
      apply (digit_string_weaken 2); [exact De | exact Hn]. }
    rewrite (exec_from_here _ _ _ _ _ M).
    eexists. split; [reflexivity|]. split; reflexivity.
  - intros pv' pre1 pre2 E Hne.
    destruct (match_here (Pattern true (sxe n)) pv' (pre2 ++ cS :: ds ++ cE :: de ++ tail))
      as [st|] eqn:M; [|reflexivity].
    exfalso. unfold match_here in M. cbn [p_icase p_re] in M.
    apply sxe_match_is_token in M; [|lia].
    destruct M as (cS' & ds' & cE' & de' & tail' & Es & HS' & HE' & Ds' & De').
    apply (Left pre1 pre2 ds' (firstn 2 de') E Hne).
    exists cS', cE', (skipn 2 de' ++ tail').
    split; [rewrite Es, app_assoc, firstn_skipn; reflexivity|].
    repeat split; try assumption; try apply Ds'.
    + destruct De' as (Ne' & _ & _). destruct de'; [contradiction | discriminate].
    + rewrite length_firstn. lia.
    + apply (digit_string_firstn n); [exact De' | lia].
Qed.

(** The head of a token: the letter S and a digit. *)
Lemma token_head : forall s ds de,
  token s ds de ->
  exists c d s', s = c :: d :: s' /\ letter 83%N c /\ is_digit d = true.
Proof.
  intros s ds de (cS & cE & tail & E & HS & _ & (Ne & _ & F) & _).
  destruct ds as [|d ds]; [contradiction|]. inversion F; subst.
  exists cS, d, (ds ++ cE :: de ++ tail). repeat split; assumption.
Qed.

(** A decision procedure for "no token starts inside [pre]". *)
Definition token_headb (s : jsstring) : bool :=
  match s with
  | c :: d :: _ => ((N.eqb c 83 || N.eqb c 115) && is_digit d)%bool
  | _ => false
  end.

Fixpoint no_token_head (pre s : jsstring) : bool :=
  match pre with
  | [] => true
  | _ :: pre' => (negb (token_headb (pre ++ s)) && no_token_head pre' s)%bool
  end.

Lemma no_token_head_before : forall pre s,
  no_token_head pre s = true ->
  forall pre1 pre2 ds' de', pre = pre1 ++ pre2 -> pre2 <> [] -> ~ token (pre2 ++ s) ds' de'.
Proof.
  induction pre as [|c pre IH]; intros s H pre1 pre2 ds' de' E Hne T.
  - destruct pre1; [simpl in E; subst; contradiction | discriminate].
  - cbn [no_token_head] in H. apply andb_true_iff in H. destruct H as [H1 H2].
    destruct pre1 as [|a pre1].
    + simpl in E. subst pre2. apply token_head in T.
      destruct T as (x & d & s' & Es & Hx & Hd).
      rewrite Es in H1. simpl in H1. rewrite Hd in H1.
      destruct Hx as [->| ->]; discriminate.
    + injection E as _ E. apply (IH s H2 pre1 pre2 ds' de' E Hne T).
Qed.

(** The claim as the specification words it: whatever token the name
    contains, the parser returns its pair. *)
Definition contains_token (filename ds de : jsstring) : Prop :=
  exists pre s, filename = pre ++ s /\ token s ds de.

Definition returns_token_pairs (parser : jsstring -> option num * option num)
  (filename : jsstring) : Prop :=
  forall ds de,
    contains_token filename ds de ->
    (dec_value ds <= 50)%Z -> (dec_value de <= 200)%Z ->
    parser filename = (Some (Int (dec_value ds)), Some (Int (dec_value de))).

Definition content_detector_pair (filename : jsstring) : option num * option num :=
  (season (extractSeasonEpisode filename), episode (extractSeasonEpisode filename)).

Definition path_analyzer_pair (filename : jsstring) : option num * option num :=
  (PathAnalyzer.md_season (PathAnalyzer._analyzeFileName filename),
   PathAnalyzer.md_episode (PathAnalyzer._analyzeFileName filename)).

Lemma two_digit_string : forall a b,
  is_digit a = true -> is_digit b = true -> digit_string 2 [a; b].
Proof.
  intros a b Ha Hb. split; [discriminate|]. split; [simpl; lia|].
  repeat constructor; assumption.
Qed.

(** C5, counterexample: [Show.S01E123.mkv] contains the token [S01E12],
    and [PathAnalyzer._analyzeFileName] reports episode 123; a file that
    holds two episodes, [Show.S01E01-S01E02.mkv], contains the token
    [S01E02], and [extractSeasonEpisode] reports the first token only. *)
Lemma token_pair_not_returned :
  path_analyzer_pair (lit "Show.S01E123.mkv") = (Some (Int 1), Some (Int 123))
  /\ ~ returns_token_pairs path_analyzer_pair (lit "Show.S01E123.mkv")
  /\ content_detector_pair (lit "Show.S01E01-S01E02.mkv") = (Some (Int 1), Some (Int 1))
  /\ ~ returns_token_pairs content_detector_pair (lit "Show.S01E01-S01E02.mkv").
Proof.
  split; [vm_compute; reflexivity|]. split; [|split; [vm_compute; reflexivity|]].
  - intro H. specialize (H (lit "01") (lit "12")).
    assert (C : contains_token (lit "Show.S01E123.mkv") (lit "01") (lit "12")).
    { exists (lit "Show."), (lit "S01E123.mkv"). split; [reflexivity|].
      exists 83%N, 69%N, (lit "3.mkv"). split; [reflexivity|].
      split; [left; reflexivity|]. split; [left; reflexivity|].
      split; apply two_digit_string; reflexivity. }
    assert (E := H C ltac:(vm_compute; discriminate) ltac:(vm_compute; discriminate)).
    vm_compute in E. discriminate E.
  - intro H. specialize (H (lit "01") (lit "02")).
    assert (C : contains_token (lit "Show.S01E01-S01E02.mkv") (lit "01") (lit "02")).
    { exists (lit "Show.S01E01-"), (lit "S01E02.mkv"). split; [reflexivity|].
      exists 83%N, 69%N, (lit ".mkv"). split; [reflexivity|].
      split; [left; reflexivity|]. split; [left; reflexivity|].
      split; apply two_digit_string; reflexivity. }
    assert (E := H C ltac:(vm_compute; discriminate) ltac:(vm_compute; discriminate)).
    vm_compute in E. discriminate E.
Qed.

Lemma first_pattern_is_sxe :
  seasonEpisodePatterns = Pattern true (sxe 2) :: tl seasonEpisodePatterns.
Proof. reflexivity. Qed.

Lemma path_pattern_is_sxe : PathAnalyzer.re_season_episode = Pattern true (sxe 3).
Proof. reflexivity. Qed.

(** C5, amended: let [S<ds>E<de>] be the leftmost token of the name (an
    S or s, one or two digits, an E or e, one or two digits, the episode
    digits read greedily).  When its season is at most 50,
    [extractSeasonEpisode] returns exactly that season and episode; and
    when no further digit follows the token,
    [PathAnalyzer._analyzeFileName] returns the same pair (otherwise it
    reads a third episode digit, and it has no bound). *)
Theorem leftmost_token_pair : forall filename ds de tail,
  leftmost_token filename ds de tail ->
  (dec_value ds <= 50)%Z ->
  extractSeasonEpisode filename
  = SeasonEpisode (Some (Int (dec_value ds))) (Some (Int (dec_value de)))
  /\ (not_at_digit tail ->
      PathAnalyzer.md_type (PathAnalyzer._analyzeFileName filename) = lit "episode"
      /\ path_analyzer_pair filename = (Some (Int (dec_value ds)), Some (Int (dec_value de)))).
Proof.
  intros filename ds de tail L Hs.
  assert (D : digit_string 2 ds /\ digit_string 2 de /\ (length de = 2 \/ not_at_digit tail)).
  { destruct L as (pre & cS & cE & _ & _ & _ & Ds & De & Hm & _). auto. }
  destruct D as (Ds & De & Hm).
  pose proof (dec_value_bound 2 de De) as Be. simpl in Be.
  split.
  - destruct (sxe_exec_leftmost 2 filename ds de tail (le_n 2) L Hm) as (r & E & G1 & G2).
    unfold extractSeasonEpisode. rewrite first_pattern_is_sxe. cbn [try_season_episode].
    rewrite E. unfold group_int. rewrite G1, G2.
    rewrite (parseInt_digits 2 ds true Ds), (parseInt_digits 2 de true De).
    cbn [num_gt].
    replace (50 <? dec_value ds)%Z with false by (symmetry; apply Z.ltb_ge; lia).
    replace (200 <? dec_value de)%Z with false by (symmetry; apply Z.ltb_ge; lia).
    reflexivity.
  - intro Ht.
    destruct (sxe_exec_leftmost 3 filename ds de tail ltac:(lia) L (or_intror Ht))
      as (r & E & G1 & G2).
    unfold path_analyzer_pair, PathAnalyzer._analyzeFileName.
    rewrite path_pattern_is_sxe, E.
    cbn [PathAnalyzer.md_type PathAnalyzer.md_season PathAnalyzer.md_episode].
    unfold PathAnalyzer.group_int. rewrite G1, G2.
    rewrite (parseInt_digits 2 ds false Ds), (parseInt_digits 2 de false De).
    split; reflexivity.
Qed.

(** The example of the specification: [Show.S02E05.1080p.mkv] yields
    season 2 and episode 5. *)
Lemma leftmost_token_pair_witness :
  leftmost_token (lit "Show.S02E05.1080p.mkv") (lit "02") (lit "05") (lit ".1080p.mkv")
  /\ extractSeasonEpisode (lit "Show.S02E05.1080p.mkv")
     = SeasonEpisode (Some (Int 2)) (Some (Int 5))
  /\ path_analyzer_pair (lit "Show.S02E05.1080p.mkv") = (Some (Int 2), Some (Int 5)).
Proof.
  assert (L : leftmost_token (lit "Show.S02E05.1080p.mkv") (lit "02") (lit "05")
                (lit ".1080p.mkv")).
  { exists (lit "Show."), 83%N, 69%N. split; [reflexivity|].
    split; [left; reflexivity|]. split; [left; reflexivity|].
    split; [apply two_digit_string; reflexivity|].
    split; [apply two_digit_string; reflexivity|].
    split; [left; reflexivity|].
    apply no_token_head_before. vm_compute. reflexivity. }
  split; [exact L|].
  destruct (leftmost_token_pair _ _ _ _ L ltac:(vm_compute; discriminate)) as [X Y].
  split; [exact X|]. apply Y. reflexivity.
Defined.

End Token.

(* ------------------------------------------------------------------ *)
(** ** Replacement where nothing matches, and of runs of characters    *)
(* ------------------------------------------------------------------ *)

Lemma exec_from_none : forall p s pv idx,
  exec_from p pv s idx = None ->
  match_here p pv s = None
  /\ match s with c :: tl => exec_from p (Some c) tl (S idx) = None | [] => True end.
Proof.
  intros p s pv idx H. destruct s as [|c tl]; simpl in H;
    destruct (match_here p pv _); try discriminate; auto.
Qed.

Lemma replace_all_no_match : forall p by_ s pv idx,
  exec_from p pv s idx = None -> replace_all_from p by_ pv s 0 = s.
Proof.
  intros p by_. induction s as [|c tl IH]; intros pv idx H;
    apply exec_from_none in H; destruct H as [M N]; cbn [replace_all_from]; rewrite M.
  - reflexivity.
  - rewrite (IH _ _ N). reflexivity.
Qed.

Lemma replace_first_no_match : forall p by_ s pv idx,
  exec_from p pv s idx = None -> replace_first_from p by_ pv s = s.
Proof.
  intros p by_. induction s as [|c tl IH]; intros pv idx H;
    apply exec_from_none in H; destruct H as [M N]; cbn [replace_first_from]; rewrite M.
  - reflexivity.
  - rewrite (IH _ _ N). reflexivity.
Qed.

(** Where no pattern of a list matches, deleting their matches one
    pattern after the other changes nothing. *)
Lemma fold_replace_no_match : forall ps s,
  (forall p, In p ps -> exec p s = None) ->
  fold_left (fun t p => replace_all p [] t) ps s = s.
Proof.
  induction ps as [|p ps IH]; intros s H; [reflexivity|].
  simpl. unfold replace_all at 2.
  rewrite (replace_all_no_match p [] s None 0) by (apply H; left; reflexivity).
  apply IH. intros q Hq. apply H. right. exact Hq.
Qed.

Section Runs.

Variable test : char -> bool.

(** Each maximal run of characters of the set replaced by [by_]. *)
Fixpoint squeeze (by_ : jsstring) (in_run : bool) (s : jsstring) : jsstring :=
  match s with
  | [] => []
  | c :: tl =>
      if test c then (if in_run then squeeze by_ true tl else by_ ++ squeeze by_ true tl)
      else c :: squeeze by_ false tl
  end.

Definition no_lead (s : jsstring) : Prop :=
  match s with c :: _ => test c = false | [] => True end.

Fixpoint prev_run (pv : option char) (s : jsstring) : option char :=
  match s with
  | c :: tl => if test c then prev_run (Some c) tl else pv
  | [] => pv
  end.

Lemma drop_while_no_lead : forall s, no_lead (drop_while test s).
Proof.
  induction s as [|c s IH]; simpl; [exact I|].
  destruct (test c) eqn:T; [exact IH | simpl; exact T].
Qed.

Lemma no_lead_drop_while : forall s, no_lead s -> drop_while test s = s.
Proof. intros [|c s] H; simpl in *; [reflexivity | rewrite H; reflexivity]. Qed.

Lemma drop_while_split : forall s,
  exists run, s = run ++ drop_while test s /\ Forall (fun c => test c = true) run.
Proof.
  induction s as [|c s (run & E & F)]; [exists []; split; [reflexivity | constructor]|].
  simpl. destruct (test c) eqn:T.
  - exists (c :: run). split; [simpl; rewrite <- E; reflexivity | constructor; assumption].
  - exists []. split; [reflexivity | constructor].
Qed.

Lemma take_greedy_star : forall s pv cp,
  take_greedy test Some 0 None pv s cp = Some (MState (prev_run pv s) (drop_while test s) cp).
Proof.
  induction s as [|c s IH]; intros pv cp; [reflexivity|].
  cbn [take_greedy option_map Nat.pred drop_while prev_run].
  destruct (test c); [rewrite IH|]; reflexivity.
Qed.

Lemma take_greedy_plus : forall s pv cp,
  take_greedy test Some 1 None pv s cp =
  match s with
  | c :: tl =>
      if test c then Some (MState (prev_run (Some c) tl) (drop_while test tl) cp) else None
  | [] => None
  end.
Proof.
  intros [|c s] pv cp; [reflexivity|].
  cbn [take_greedy option_map Nat.pred]. destruct (test c); [|reflexivity].
  rewrite take_greedy_star. reflexivity.
Qed.

End Runs.

(** [/[...]+/]: one or more characters of a set. *)
Definition run_of (cs : cset) : pattern := Pattern false (Plus (Chr cs)).

Lemma match_run : forall cs pv s,
  match_here (run_of cs) pv s =
  match s with
  | c :: tl =>
      if cset_test false cs c
      then Some (MState (prev_run (cset_test false cs) (Some c) tl)
                   (drop_while (cset_test false cs) tl) [])
      else None
  | [] => None
  end.
Proof.
  intros cs pv s. unfold match_here, run_of, Plus. cbn [p_icase p_re].
  rewrite m_rep_chr. cbn [prev rest caps]. apply take_greedy_plus.
Qed.

Lemma replace_run_squeeze : forall cs by_ s,
  (forall pv, replace_all_from (run_of cs) by_ pv s 0 = squeeze (cset_test false cs) by_ false s)
  /\ (forall pv run tl,
        s = run ++ tl -> Forall (fun c => cset_test false cs c = true) run ->
        no_lead (cset_test false cs) tl ->
        replace_all_from (run_of cs) by_ pv s (length run)
        = squeeze (cset_test false cs) by_ true s).
Proof.
  intros cs by_. set (test := cset_test false cs).
  induction s as [|c s [IHa IHb]].
  - split.
    + intro pv. cbn [replace_all_from]. rewrite match_run. reflexivity.
    + intros pv run tl E _ _. destruct run; [|discriminate].
      cbn [replace_all_from length]. rewrite match_run. reflexivity.
  - assert (A : forall pv, replace_all_from (run_of cs) by_ pv (c :: s) 0
                           = squeeze test by_ false (c :: s)).
    { intro pv. cbn [replace_all_from squeeze]. rewrite match_run. fold test.
      destruct (test c) eqn:T.
      - cbn [rest]. destruct (drop_while_split test s) as (run & E & F).
        assert (L : length (c :: s) - length (drop_while test s) = S (length run)).
        { rewrite E at 1. cbn [length]. rewrite length_app. lia. }
        rewrite L. f_equal.
        apply (IHb (Some c) run (drop_while test s) E F). apply drop_while_no_lead.
      - rewrite IHa. reflexivity. }
    split; [exact A|].
    intros pv run tl E F N. destruct run as [|x run].
    + simpl in E. subst tl. simpl in N. cbn [length]. rewrite A.
      cbn [squeeze]. rewrite N. reflexivity.
    + injection E as -> E. inversion F as [|? ? Hx Hrun]; subst.
      cbn [replace_all_from length squeeze]. fold test in Hx. rewrite Hx.
      apply (IHb (Some x) run tl eq_refl Hrun N).
Qed.

Lemma replace_all_run : forall cs by_ s,
  replace_all (run_of cs) by_ s = squeeze (cset_test false cs) by_ false s.
Proof. intros. unfold replace_all. apply replace_run_squeeze. Qed.

Section Squeeze.

Variable test : char -> bool.

Lemma squeeze_none : forall by_ s b,
  Forall (fun c => test c = false) s -> squeeze test by_ b s = s.
Proof.
  intros by_. induction s as [|c s IH]; intros b F; [reflexivity|].
  inversion F as [|? ? Hc Hs]; subst. simpl. rewrite Hc, IH by assumption. reflexivity.
Qed.

Lemma squeeze_forall : forall (P : char -> Prop) by_ s b,
  Forall P by_ -> Forall P s -> Forall P (squeeze test by_ b s).
Proof.
  intros P by_. induction s as [|c s IH]; intros b Fb F; [constructor|].
  inversion F as [|? ? Hc Hs]; subst. simpl.
  destruct (test c); [destruct b|].
  - apply IH; assumption.
  - apply Forall_app. split; [exact Fb | apply IH; assumption].
  - constructor; [exact Hc | apply IH; assumption].
Qed.

Lemma squeeze_removes : forall by_ s b,
  Forall (fun c => test c = false) by_ ->
  Forall (fun c => test c = false) (squeeze test by_ b s).
Proof.
  intros by_. induction s as [|c s IH]; intros b Fb; [constructor|].
  simpl. destruct (test c) eqn:T; [destruct b|].
  - apply IH. exact Fb.
  - apply Forall_app. split; [exact Fb | apply IH; exact Fb].
  - constructor; [exact T | apply IH; exact Fb].
Qed.

Lemma drop_while_suffix : forall s, exists l, s = l ++ drop_while test s.
Proof.
  intro s. destruct (drop_while_split test s) as (run & E & _). exists run. exact E.
Qed.

Lemma drop_while_snoc : forall l h,
  test h = false -> drop_while test (l ++ [h]) = drop_while test l ++ [h].
Proof.
  induction l as [|c l IH]; intros h H; simpl; [rewrite H; reflexivity|].
  destruct (test c); [apply IH; exact H | reflexivity].
Qed.

End Squeeze.

(** [trim] keeps a middle part of the string. *)
Lemma trim_infix : forall s, exists l r, s = l ++ trim s ++ r.
Proof.
  intro s. unfold trim.
  destruct (drop_while_suffix is_space s) as (l & E).
  destruct (drop_while_suffix is_space (rev (drop_while is_space s))) as (r & E').
  exists l, (rev r). rewrite E at 1. f_equal.
  rewrite <- rev_app_distr, <- E', rev_involutive. reflexivity.
Qed.

Lemma trim_forall : forall (P : char -> Prop) s, Forall P s -> Forall P (trim s).
Proof.
  intros P s F. destruct (trim_infix s) as (l & r & E). rewrite E in F.
  apply Forall_app in F. destruct F as [_ F]. apply Forall_app in F. apply F.
Qed.

Lemma trim_no_lead : forall s, no_lead is_space (trim s).
Proof.
  intro s. unfold trim.
  pose proof (drop_while_no_lead is_space s) as N.
  destruct (drop_while is_space s) as [|h u]; [exact I|].
  simpl in N. simpl rev. rewrite drop_while_snoc by exact N.
  rewrite rev_app_distr. simpl. exact N.
Qed.

Lemma trim_idempotent : forall s, trim (trim s) = trim s.
Proof.
  intro s. pose proof (trim_no_lead s) as N.
  unfold trim at 1. rewrite (no_lead_drop_while is_space _ N).
  unfold trim. rewrite rev_involutive.
  rewrite (no_lead_drop_while is_space (drop_while is_space (rev (drop_while is_space s))))
    by apply drop_while_no_lead.
  reflexivity.
Qed.

(** White space made of single ASCII spaces. *)
Fixpoint single_spaces (after_space : bool) (s : jsstring) : bool :=
  match s with
  | [] => true
  | c :: tl =>
      if is_space c then (N.eqb c 32 && negb after_space && single_spaces true tl)%bool
      else single_spaces false tl
  end.

Lemma squeeze_single_spaces : forall s b,
  single_spaces b (squeeze is_space (lit " ") b s) = true.
Proof.
  induction s as [|c s IH]; intro b; [reflexivity|].
  simpl. destruct (is_space c) eqn:T; [destruct b|].
  - apply IH.
  - change (lit " " ++ squeeze is_space (lit " ") true s)
      with (32%N :: squeeze is_space (lit " ") true s).
    simpl. apply IH.
  - simpl. rewrite T. apply IH.
Qed.

Lemma single_spaces_squeeze : forall s b,
  single_spaces b s = true -> squeeze is_space (lit " ") b s = s.
Proof.
  induction s as [|c s IH]; intros b H; [reflexivity|].
  simpl in *. destruct (is_space c).
  - apply andb_true_iff in H. destruct H as [H Hs].
    apply andb_true_iff in H. destruct H as [Hc Hb].
    apply N.eqb_eq in Hc. subst c. apply negb_true_iff in Hb. subst b.
    rewrite (IH true Hs). reflexivity.
  - rewrite (IH false H). reflexivity.
Qed.

Lemma single_spaces_weaken : forall s, single_spaces true s = true -> single_spaces false s = true.
Proof.
  intros [|c s] H; [reflexivity|]. simpl in *. destruct (is_space c); [|exact H].
  rewrite andb_false_r in H. discriminate.
Qed.

Lemma single_spaces_suffix : forall l r b,
  single_spaces b (l ++ r) = true -> single_spaces false r = true.
Proof.
  induction l as [|c l IH]; intros r b H.
  - destruct b; [apply single_spaces_weaken|]; exact H.
  - simpl in H. destruct (is_space c).
    + apply andb_true_iff in H. destruct H as [_ H]. apply (IH r true H).
    + apply (IH r false H).
Qed.

Lemma single_spaces_prefix : forall l r b,
  single_spaces b (l ++ r) = true -> single_spaces b l = true.
Proof.
  induction l as [|c l IH]; intros r b H; [reflexivity|].
  simpl in *. destruct (is_space c).
  - apply andb_true_iff in H. destruct H as [H1 H]. rewrite H1. apply (IH r true H).
  - apply (IH r false H).
Qed.

Lemma trim_single_spaces : forall s,
  single_spaces false s = true -> single_spaces false (trim s) = true.
Proof.
  intros s H. destruct (trim_infix s) as (l & r & E). rewrite E in H.
  apply single_spaces_suffix in H. apply single_spaces_prefix in H. exact H.
Qed.

(* ------------------------------------------------------------------ *)
(** ** Title extraction (C4, C7)                                       *)
(* ------------------------------------------------------------------ *)

Section Titles.
Import ContentDetector.

Definition is_separator : char -> bool :=
  cset_test false (CClass [AChar (ch "."); AChar (ch "-"); AChar (ch "_")]).

Lemma normalize_spaces_squeeze : forall s,
  normalize_spaces s
  = trim (squeeze is_space (lit " ") false (squeeze is_separator (lit " ") false s)).
Proof.
  intro s. unfold normalize_spaces.
  change re_spaces with (run_of CSpace).
  change re_separators
    with (run_of (CClass [AChar (ch "."); AChar (ch "-"); AChar (ch "_")])).
  rewrite !replace_all_run. reflexivity.
Qed.

Lemma normalize_spaces_no_separator : forall s,
  Forall (fun c => is_separator c = false) (normalize_spaces s).
Proof.
  intro s. rewrite normalize_spaces_squeeze.
  apply trim_forall. apply squeeze_forall; [repeat constructor|].
  apply squeeze_removes. repeat constructor.
Qed.

Lemma normalize_spaces_single_spaces : forall s,
  single_spaces false (normalize_spaces s) = true.
Proof.
  intro s. rewrite normalize_spaces_squeeze.
  apply trim_single_spaces. apply squeeze_single_spaces.
Qed.

(** A second normalisation changes nothing. *)
Lemma normalize_spaces_idempotent : forall s,
  normalize_spaces (normalize_spaces s) = normalize_spaces s.
Proof.
  intro s. rewrite (normalize_spaces_squeeze (normalize_spaces s)).
  rewrite (squeeze_none is_separator) by apply normalize_spaces_no_separator.
  rewrite single_spaces_squeeze by apply normalize_spaces_single_spaces.
  unfold normalize_spaces. apply trim_idempotent.
Qed.

(** The extension pattern needs a dot. *)
Lemma no_dot_no_extension : forall s pv idx,
  Forall (fun c => is_separator c = false) s -> exec_from re_extension pv s idx = None.
Proof.
  induction s as [|c s IH]; intros pv idx F.
  - reflexivity.
  - inversion F as [|? ? Hc Hs]; subst. cbn [exec_from].
    assert (M : match_here re_extension pv (c :: s) = None).
    { unfold match_here, re_extension. cbn [p_icase p_re seq].
      rewrite m_seq. unfold Str. cbn [lit chars list_ascii_of_string map].
      rewrite m_chr_cons. cbn [cset_test].
      destruct (N.eqb c (N_of_ascii "."%char)) eqn:E; [|reflexivity].
      apply N.eqb_eq in E. subst c. discriminate Hc. }
    rewrite M. apply IH. exact Hs.
Qed.

(** The claim as the specification words it. *)
Definition idempotent_at (x : jsstring) : Prop :=
  extractTitle (extractTitle x) = extractTitle x.

(** C4, counterexample: the year is removed before the resolution, so in
    [Movie (1080p2019).mkv] the year appears only after the first pass. *)
Lemma extractTitle_twice_differs :
  extractTitle (lit "Movie (1080p2019).mkv") = lit "Movie (2019)"
  /\ extractTitle (lit "Movie (2019)") = lit "Movie"
  /\ ~ idempotent_at (lit "Movie (1080p2019).mkv").
Proof.
  split; [vm_compute; reflexivity|]. split; [vm_compute; reflexivity|].
  unfold idempotent_at. vm_compute. discriminate.
Qed.

(** C4, amended: a second application of [extractTitle] changes nothing
    whenever the title it is applied to contains no match of a removal
    pattern (bracketed year, resolution, codec, audio, source or
    season-episode token). *)
Theorem extractTitle_idempotent_without_tokens : forall x,
  (forall p, In p token_patterns -> exec p (extractTitle x) = None) ->
  extractTitle (extractTitle x) = extractTitle x.
Proof.
  intros x H. unfold extractTitle at 1.
  assert (E : strip_extension (extractTitle x) = extractTitle x).
  { unfold strip_extension, replace_first. apply (replace_first_no_match _ _ _ _ 0).
    apply no_dot_no_extension. unfold extractTitle. apply normalize_spaces_no_separator. }
  rewrite E. unfold strip_tokens. rewrite (fold_replace_no_match _ _ H).
  unfold extractTitle. apply normalize_spaces_idempotent.
Qed.

Lemma extractTitle_idempotent_witness :
  (forall p, In p token_patterns -> exec p (extractTitle (lit "Avatar.2009.1080p.mkv")) = None)
  /\ extractTitle (lit "Avatar.2009.1080p.mkv") = lit "Avatar 2009"
  /\ extractTitle (lit "Avatar 2009") = lit "Avatar 2009".
Proof.
  assert (H : forall p, In p token_patterns ->
                exec p (extractTitle (lit "Avatar.2009.1080p.mkv")) = None).
  { intros p Hp. unfold token_patterns in Hp. simpl in Hp.
    repeat (destruct Hp as [<-|Hp]; [vm_compute; reflexivity|]). contradiction. }
  assert (T : extractTitle (lit "Avatar.2009.1080p.mkv") = lit "Avatar 2009")
    by (vm_compute; reflexivity).
  split; [exact H|]. split; [exact T|].
  rewrite <- T.
  apply extractTitle_idempotent_without_tokens. exact H.
Defined.

(** The patterns of [extractTitle] whose matches are deleted or replaced
    by a space; the white-space pattern is not among them. *)
Definition cleaning_rules : list pattern :=
  re_extension :: token_patterns ++ [re_separators].

(** The claim as the specification words it: the title is not the empty
    string when the trimmed name is not. *)
Definition never_empty (extract : jsstring -> jsstring) (filename : jsstring) : Prop :=
  trim filename <> [] -> extract filename <> [].

(** C7, counterexample: every character of [1080p.mkv] belongs to a
    match of a cleaning rule, and [extractTitle] returns the empty
    string. *)
Lemma extractTitle_can_be_empty :
  extractTitle (lit "1080p.mkv") = []
  /\ trim (lit "1080p.mkv") = lit "1080p.mkv"
  /\ ~ never_empty extractTitle (lit "1080p.mkv").
Proof.
  split; [vm_compute; reflexivity|]. split; [vm_compute; reflexivity|].
  intro H. apply H; vm_compute; [discriminate | reflexivity].
Qed.

(** C7, amended: title extraction is a total function of the name (no
    step of it can throw).  When no cleaning rule of
    [ContentDetector.extractTitle] matches, it returns the name with its
    runs of white space collapsed and its ends trimmed, which is the
    trimmed name when the white space of the name is single spaces;
    when the rules match everything it returns the empty string, for it
    has no fallback.  [PathAnalyzer._extractTitle] has one: when its
    cleaning leaves nothing it returns the name as it was given, so it
    returns the empty string for the empty name only. *)
Theorem title_worst_case : forall filename,
  ((forall p, In p cleaning_rules -> exec p filename = None) ->
   extractTitle filename = trim (replace_all re_spaces (lit " ") filename)
   /\ (single_spaces false filename = true -> extractTitle filename = trim filename))
  /\ (PathAnalyzer.clean_title filename = [] ->
      PathAnalyzer._extractTitle filename = filename)
  /\ (PathAnalyzer.clean_title filename <> [] ->
      PathAnalyzer._extractTitle filename = PathAnalyzer.clean_title filename)
  /\ (filename <> [] -> PathAnalyzer._extractTitle filename <> []).
Proof.
  intro filename. split; [|split; [|split]].
  - intro H.
    assert (E : extractTitle filename = trim (replace_all re_spaces (lit " ") filename)).
    { unfold extractTitle, strip_extension, replace_first.
      rewrite (replace_first_no_match _ _ _ _ 0) by (apply H; left; reflexivity).
      unfold strip_tokens. rewrite fold_replace_no_match.
      - unfold normalize_spaces. unfold replace_all at 2.
        rewrite (replace_all_no_match _ _ _ _ 0); [reflexivity|].
        apply H. right. apply in_or_app. right. left. reflexivity.
      - intros p Hp. apply H. right. apply in_or_app. left. exact Hp. }
    split; [exact E|]. intro S. rewrite E.
    change re_spaces with (run_of CSpace). rewrite replace_all_run.
    change (cset_test false CSpace) with is_space.
    rewrite single_spaces_squeeze by exact S. reflexivity.
  - intro E. unfold PathAnalyzer._extractTitle. rewrite E. reflexivity.
  - intro N. unfold PathAnalyzer._extractTitle.
    destruct (PathAnalyzer.clean_title filename); [contradiction | reflexivity].
  - intro N. unfold PathAnalyzer._extractTitle.
    destruct (PathAnalyzer.clean_title filename); [exact N | discriminate].
Qed.

Lemma title_worst_case_witness :
  (forall p, In p cleaning_rules -> exec p (lit " The Matrix ") = None)
  /\ single_spaces false (lit " The Matrix ") = true
  /\ extractTitle (lit " The Matrix ") = trim (lit " The Matrix ")
  /\ trim (lit " The Matrix ") = lit "The Matrix"
  /\ PathAnalyzer.clean_title (lit "1080p.mkv") = []
  /\ PathAnalyzer._extractTitle (lit "1080p.mkv") = lit "1080p.mkv".
Proof.
  assert (H : forall p, In p cleaning_rules -> exec p (lit " The Matrix ") = None).
  { intros p Hp. unfold cleaning_rules, token_patterns in Hp. simpl in Hp.
    repeat (destruct Hp as [<-|Hp]; [vm_compute; reflexivity|]). contradiction. }
  assert (S : single_spaces false (lit " The Matrix ") = true) by (vm_compute; reflexivity).
  assert (C : PathAnalyzer.clean_title (lit "1080p.mkv") = []) by (vm_compute; reflexivity).
  split; [exact H|]. split; [exact S|].
  split; [exact (proj2 (proj1 (title_worst_case (lit " The Matrix ")) H) S)|].
  split; [vm_compute; reflexivity|].
  split; [exact C|].
  exact (proj1 (proj2 (title_worst_case (lit "1080p.mkv"))) C).
Defined.

End Titles.

(* ================================================================== *)
(** * Further properties of the code                                   *)
(* ================================================================== *)

(* ------------------------------------------------------------------ *)
(** ** PathAnalyzer: invariants of the walk                            *)
(* ------------------------------------------------------------------ *)

Section WalkInvariants.
Import PathAnalyzer.

(** The directories recorded in the four categories. *)
Definition categorized (a : analysis) : list path_info :=
  cat_movies a ++ cat_tvShows a ++ cat_mixed a ++ cat_unknown a.

(** An induction principle for the walk.  [P a a'] relates the analysis
    before and after one call of [_analyzeRecursive]; [Q p a a'] relates
    the path information and the analysis at some point of the loop over
    the entries of a directory to the analysis at the end of that loop. *)
Section WalkInduction.
Variable cfg : config.
Variable P : jsstring -> nat -> analysis -> analysis -> Prop.
Variable Q : jsstring -> nat -> path_info -> analysis -> analysis -> Prop.
Hypothesis P_skip : forall currentPath depth a, P currentPath depth a a.
Hypothesis P_enter : forall currentPath depth a a',
  depth <= maxDepth cfg ->
  Q currentPath depth (PathInfo currentPath depth (lit "unknown") [] [] [])
    (enter_directory depth a) a' ->
  P currentPath depth a a'.
Hypothesis Q_finish : forall currentPath depth p a,
  Q currentPath depth p a (finish_directory currentPath p a).
Hypothesis Q_dir : forall currentPath depth nm p a a1 a2,
  P (child_path currentPath nm) (S depth) a a1 ->
  Q currentPath depth (add_subdirectory cfg currentPath nm p) a1 a2 ->
  Q currentPath depth p a a2.
Hypothesis Q_file : forall currentPath depth nm p a a2,
  Q currentPath depth (add_file currentPath nm p)
    (if _isVideoFile nm then count_file a else a) a2 ->
  Q currentPath depth p a a2.

Lemma each_item_ind : forall currentPath depth children,
  Forall (fun n => forall currentPath a depth,
            P currentPath depth a (_analyzeRecursive cfg n currentPath a depth)) children ->
  forall p a, Q currentPath depth p a (each_item cfg currentPath depth children p a).
Proof.
  intros currentPath depth children H.
  induction H as [|c cs Hc Hcs IH]; intros p a.
  - apply Q_finish.
  - destruct c as [nm|nm o ch]; cbn [each_item].
    + apply (Q_file currentPath depth nm). apply IH.
    + destruct (_shouldIgnoreDirectory cfg nm).
      * apply IH.
      * apply (Q_dir currentPath depth nm p a _ _ (Hc (child_path currentPath nm) a (S depth))).
        apply IH.
Qed.

Lemma walk_ind : forall n currentPath a depth,
  P currentPath depth a (_analyzeRecursive cfg n currentPath a depth).
Proof.
  induction n as [nm|nm o children IH] using node_nested_ind; intros currentPath a depth.
  - apply P_skip.
  - rewrite _analyzeRecursive_dir.
    destruct (maxDepth cfg <? depth) eqn:D; [apply P_skip|].
    apply Nat.ltb_ge in D.
    destruct o; try apply P_skip.
    destruct children as [|c cs]; [apply P_skip|].
    apply (P_enter currentPath depth _ _ D).
    apply each_item_ind. exact IH.
Qed.

End WalkInduction.

Lemma categorized_finish : forall currentPath p a,
  exists l r,
    categorized a = l ++ r
    /\ categorized (finish_directory currentPath p a)
       = l ++ PathInfo (pi_path p) (pi_depth p) (_analyzeDirectoryType p) (pi_items p)
                (pi_videoFiles p) (pi_subdirectories p) :: r.
Proof.
  intros currentPath p a. unfold finish_directory, set_path, _categorizeDirectory, categorized.
  cbn [pi_type].
  set (p' := PathInfo _ _ _ _ _ _).
  destruct (_ || _)%bool.
  - exists (cat_movies a), (cat_tvShows a ++ cat_mixed a ++ cat_unknown a).
    cbn. rewrite <- app_assoc. split; reflexivity.
  - destruct (_ || _)%bool.
    + exists (cat_movies a ++ cat_tvShows a), (cat_mixed a ++ cat_unknown a).
      cbn. rewrite <- !app_assoc. split; reflexivity.
    + destruct (str_eqb _ _).
      * exists (cat_movies a ++ cat_tvShows a ++ cat_mixed a), (cat_unknown a).
        cbn. rewrite <- !app_assoc. split; reflexivity.
      * exists (cat_movies a ++ cat_tvShows a ++ cat_mixed a ++ cat_unknown a), [].
        cbn. rewrite <- !app_assoc, app_nil_r. split; reflexivity.
Qed.

Lemma stats_finish : forall currentPath p a,
  stats (finish_directory currentPath p a) = stats a.
Proof.
  intros. unfold finish_directory, set_path, _categorizeDirectory. cbn [pi_type].
  destruct (_ || _)%bool; [reflexivity|].
  destruct (_ || _)%bool; [reflexivity|].
  destruct (str_eqb _ _); reflexivity.
Qed.

Lemma categorized_count_file : forall a, categorized (count_file a) = categorized a.
Proof. reflexivity. Qed.

Lemma categorized_enter : forall d a, categorized (enter_directory d a) = categorized a.
Proof. reflexivity. Qed.

(** The video files of the recorded directories. *)
Definition recorded_files (a : analysis) : nat :=
  list_sum (map (fun p => length (pi_videoFiles p)) (categorized a)).

Lemma list_sum_insert : forall (l r : list nat) x,
  list_sum (l ++ x :: r) = x + list_sum (l ++ r).
Proof.
  induction l as [|y l IH]; intros r x; simpl; [reflexivity|]. rewrite IH. lia.
Qed.

Lemma length_add_file : forall currentPath nm p,
  length (pi_videoFiles (add_file currentPath nm p))
  = length (pi_videoFiles p) + (if _isVideoFile nm then 1 else 0).
Proof.
  intros. unfold add_file. cbn [pi_videoFiles].
  destruct (_isVideoFile nm); [rewrite length_app; simpl|]; lia.
Qed.

(** The walk counts what it records: every directory counted in
    [totalDirectories] is in exactly one category, and [totalFiles] is the
    number of video files of the recorded directories. *)
Lemma walk_counts : forall cfg n currentPath a depth,
  let a' := _analyzeRecursive cfg n currentPath a depth in
  totalDirectories (stats a') + length (categorized a)
  = totalDirectories (stats a) + length (categorized a')
  /\ totalFiles (stats a') + recorded_files a = totalFiles (stats a) + recorded_files a'.
Proof.
  intros cfg n currentPath a depth.
  apply (walk_ind cfg
    (fun _ _ a a' =>
       totalDirectories (stats a') + length (categorized a)
       = totalDirectories (stats a) + length (categorized a')
       /\ totalFiles (stats a') + recorded_files a = totalFiles (stats a) + recorded_files a')
    (fun _ _ p a a' =>
       totalDirectories (stats a') + length (categorized a) + 1
       = totalDirectories (stats a) + length (categorized a')
       /\ totalFiles (stats a') + recorded_files a + length (pi_videoFiles p)
          = totalFiles (stats a) + recorded_files a')).
  - intros _ _ a0. split; reflexivity.
  - intros cp d a0 a' _ [H1 H2].
    unfold recorded_files in *. rewrite categorized_enter in *.
    cbn [enter_directory stats totalDirectories totalFiles pi_videoFiles length] in *. lia.
  - intros cp d p a0. rewrite stats_finish.
    destruct (categorized_finish cp p a0) as (l & r & E & E').
    unfold recorded_files. rewrite E, E'.
    rewrite !map_app, !length_app. cbn [map length pi_videoFiles].
    rewrite list_sum_insert. lia.
  - intros cp d nm p a0 a1 a2 [H1 H2] [H3 H4].
    unfold add_subdirectory in H4. cbn [pi_videoFiles] in H4. lia.
  - intros cp d nm p a0 a2 [H1 H2].
    rewrite length_add_file in H2.
    destruct (_isVideoFile nm); unfold recorded_files in *;
      try rewrite categorized_count_file in *;
      cbn [count_file stats totalDirectories totalFiles] in *; lia.
Qed.


(** The greatest depth of a recorded directory, 0 when there is none. *)
Definition recorded_depth (a : analysis) : nat := list_max (map pi_depth (categorized a)).

Lemma list_max_insert : forall (l r : list nat) x,
  list_max (l ++ x :: r) = Nat.max x (list_max (l ++ r)).
Proof. intros. rewrite !list_max_app. simpl. lia. Qed.

Lemma recorded_depth_finish : forall currentPath p a,
  recorded_depth (finish_directory currentPath p a) = Nat.max (pi_depth p) (recorded_depth a).
Proof.
  intros. unfold recorded_depth.
  destruct (categorized_finish currentPath p a) as (l & r & E & E').
  rewrite E, E', !map_app. cbn [map pi_depth]. apply list_max_insert.
Qed.

Lemma walk_depth : forall cfg n currentPath a depth,
  let a' := _analyzeRecursive cfg n currentPath a depth in
  recorded_depth a <= recorded_depth a'
  /\ (forall X, st_maxDepth (stats a) = Nat.max X (recorded_depth a) ->
                st_maxDepth (stats a') = Nat.max X (recorded_depth a'))
  /\ (st_maxDepth (stats a) <= maxDepth cfg -> st_maxDepth (stats a') <= maxDepth cfg).
Proof.
  intros cfg n currentPath a depth.
  apply (walk_ind cfg
    (fun _ _ a a' =>
       recorded_depth a <= recorded_depth a'
       /\ (forall X, st_maxDepth (stats a) = Nat.max X (recorded_depth a) ->
                     st_maxDepth (stats a') = Nat.max X (recorded_depth a'))
       /\ (st_maxDepth (stats a) <= maxDepth cfg -> st_maxDepth (stats a') <= maxDepth cfg))
    (fun _ _ p a a' =>
       pi_depth p <= recorded_depth a'
       /\ recorded_depth a <= recorded_depth a'
       /\ (forall X, st_maxDepth (stats a) = Nat.max X (recorded_depth a) -> pi_depth p <= X ->
                     st_maxDepth (stats a') = Nat.max X (recorded_depth a'))
       /\ (st_maxDepth (stats a) <= maxDepth cfg -> st_maxDepth (stats a') <= maxDepth cfg))).
  - intros _ _ a0. repeat split; auto.
  - intros cp d a0 a' D (H1 & H2 & H3 & H4).
    cbn [pi_depth] in *.
    change (recorded_depth (enter_directory d a0)) with (recorded_depth a0) in *.
    cbn [enter_directory stats st_maxDepth] in *.
    split; [exact H2|]. split.
    + intros X HX. rewrite (H3 (Nat.max X d)); lia.
    + intros HM. apply H4. lia.
  - intros cp d p a0. rewrite stats_finish, recorded_depth_finish.
    repeat split; lia.
  - intros cp d nm p a0 a1 a2 (H1 & H2 & H3) (H4 & H5 & H6 & H7).
    cbn [add_subdirectory pi_depth] in *.
    repeat split; try lia; try (intros X HX Hp; apply H6; auto); auto.
  - intros cp d nm p a0 a2 (H1 & H2 & H3 & H4).
    cbn [add_file pi_depth] in *.
    assert (E1 : recorded_depth (if _isVideoFile nm then count_file a0 else a0) = recorded_depth a0)
      by (destruct (_isVideoFile nm); reflexivity).
    assert (E2 : st_maxDepth (stats (if _isVideoFile nm then count_file a0 else a0))
                 = st_maxDepth (stats a0))
      by (destruct (_isVideoFile nm); reflexivity).
    rewrite E1, E2 in *. repeat split; auto.
Qed.

Lemma starts_with_app : forall root s x,
  starts_with root s = true -> starts_with root (s ++ x) = true.
Proof.
  induction root as [|c root IH]; intros s x H; [reflexivity|].
  destruct s as [|d s]; [discriminate|]. simpl in *.
  apply andb_true_iff in H. destruct H as [H1 H2]. rewrite H1. simpl. apply IH. exact H2.
Qed.

Lemma starts_with_refl : forall s, starts_with s s = true.
Proof. induction s as [|c s IH]; simpl; [reflexivity|]. rewrite N.eqb_refl. exact IH. Qed.

Lemma Forall_insert : forall {A} (R : A -> Prop) l r x,
  Forall R (l ++ r) -> R x -> Forall R (l ++ x :: r).
Proof.
  intros A R l r x H Hx. apply Forall_app in H. destruct H as [Hl Hr].
  apply Forall_app. split; [exact Hl|]. constructor; assumption.
Qed.

Lemma walk_paths : forall cfg n currentPath a depth root,
  starts_with root currentPath = true ->
  Forall (fun p => starts_with root (pi_path p) = true) (categorized a) ->
  Forall (fun p => starts_with root (pi_path p) = true)
    (categorized (_analyzeRecursive cfg n currentPath a depth)).
Proof.
  intros cfg n currentPath a depth.
  apply (walk_ind cfg
    (fun cp _ a a' => forall root,
       starts_with root cp = true ->
       Forall (fun p => starts_with root (pi_path p) = true) (categorized a) ->
       Forall (fun p => starts_with root (pi_path p) = true) (categorized a'))
    (fun cp _ p a a' => forall root,
       starts_with root cp = true -> pi_path p = cp ->
       Forall (fun p => starts_with root (pi_path p) = true) (categorized a) ->
       Forall (fun p => starts_with root (pi_path p) = true) (categorized a'))).
  - auto.
  - intros cp d a0 a' _ H root Hr Ha. apply (H root Hr eq_refl). exact Ha.
  - intros cp d p a0 root Hr Hp Ha.
    destruct (categorized_finish cp p a0) as (l & r & E & E'). rewrite E'. rewrite E in Ha.
    apply Forall_insert; [exact Ha|]. cbn [pi_path]. rewrite Hp. exact Hr.
  - intros cp d nm p a0 a1 a2 H1 H2 root Hr Hp Ha.
    apply (H2 root Hr Hp). apply (H1 root); [|exact Ha].
    unfold child_path. apply starts_with_app. exact Hr.
  - intros cp d nm p a0 a2 H root Hr Hp Ha.
    apply (H root Hr Hp). destruct (_isVideoFile nm); exact Ha.
Qed.


(** ** Types and categories *)

Definition movie_type (t : jsstring) : Prop :=
  t = lit "movie_collection" \/ t = lit "movie_library".
Definition tv_type (t : jsstring) : Prop :=
  t = lit "tv_season" \/ t = lit "tv_show".
Definition other_type (t : jsstring) : Prop :=
  t = lit "content_library" \/ t = lit "unknown".

Definition sorted_by_type (a : analysis) : Prop :=
  Forall (fun p => movie_type (pi_type p)) (cat_movies a)
  /\ Forall (fun p => tv_type (pi_type p)) (cat_tvShows a)
  /\ Forall (fun p => pi_type p = lit "mixed_content") (cat_mixed a)
  /\ Forall (fun p => other_type (pi_type p)) (cat_unknown a).

Definition typed_by_content (a : analysis) : Prop :=
  Forall (fun p => pi_type p = _analyzeDirectoryType p) (categorized a).

Lemma directory_type_cases : forall p,
  let t := _analyzeDirectoryType p in
  movie_type t \/ tv_type t \/ t = lit "mixed_content" \/ other_type t.
Proof.
  intros p. unfold _analyzeDirectoryType, movie_type, tv_type, other_type.
  repeat match goal with
         | |- context [if ?b then _ else _] => destruct b
         end; auto 10.
Qed.

Lemma finish_sorted : forall currentPath p a,
  sorted_by_type a -> sorted_by_type (finish_directory currentPath p a).
Proof.
  intros currentPath p a (H1 & H2 & H3 & H4).
  unfold finish_directory, set_path, _categorizeDirectory, sorted_by_type. cbn [pi_type].
  pose proof (directory_type_cases p) as C. cbv zeta in C.
  set (t := _analyzeDirectoryType p) in *.
  assert (R : forall (R : path_info -> Prop) l x, Forall R l -> R x -> Forall R (l ++ [x])).
  { intros R l x Hl Hx. apply Forall_app. split; [exact Hl|]. constructor; [exact Hx|constructor]. }
  destruct C as [[E|E]|[[E|E]|[E|[E|E]]]]; rewrite E; cbn;
    repeat split; auto; apply R; auto; cbn [pi_type];
    unfold movie_type, tv_type, other_type; auto.
Qed.

Lemma walk_sorted : forall cfg n currentPath a depth,
  sorted_by_type a -> sorted_by_type (_analyzeRecursive cfg n currentPath a depth).
Proof.
  intros cfg n currentPath a depth.
  apply (walk_ind cfg
    (fun _ _ a a' => sorted_by_type a -> sorted_by_type a')
    (fun _ _ _ a a' => sorted_by_type a -> sorted_by_type a')).
  - auto.
  - intros cp d a0 a' _ H Ha. apply H. exact Ha.
  - intros cp d p a0. apply finish_sorted.
  - auto.
  - intros cp d nm p a0 a2 H Ha. apply H. destruct (_isVideoFile nm); exact Ha.
Qed.

Lemma walk_typed : forall cfg n currentPath a depth,
  typed_by_content a -> typed_by_content (_analyzeRecursive cfg n currentPath a depth).
Proof.
  intros cfg n currentPath a depth.
  apply (walk_ind cfg
    (fun _ _ a a' => typed_by_content a -> typed_by_content a')
    (fun _ _ _ a a' => typed_by_content a -> typed_by_content a')).
  - auto.
  - intros cp d a0 a' _ H Ha. apply H. exact Ha.
  - intros cp d p a0 Ha. unfold typed_by_content in *.
    destruct (categorized_finish cp p a0) as (l & r & E & E'). rewrite E'. rewrite E in Ha.
    apply Forall_insert; [exact Ha|]. reflexivity.
  - auto.
  - intros cp d nm p a0 a2 H Ha. apply H. destruct (_isVideoFile nm); exact Ha.
Qed.

Lemma mixed_content_iff : forall p,
  _analyzeDirectoryType p = lit "mixed_content" <-> 0 < movie_files p /\ 0 < episode_files p.
Proof.
  intros p. unfold _analyzeDirectoryType, movie_files, episode_files.
  pose proof (filter_length_le (type_is "movie") (pi_videoFiles p)) as Hm.
  pose proof (filter_length_le (type_is "episode") (pi_videoFiles p)) as He.
  destruct (length (filter (type_is "movie") (pi_videoFiles p))) as [|mf];
    destruct (length (filter (type_is "episode") (pi_videoFiles p))) as [|ef];
    destruct (length (pi_videoFiles p)) as [|vf]; try lia;
    cbn [Nat.ltb Nat.leb Nat.eqb andb];
    repeat match goal with
           | |- context [if ?b then _ else _] => destruct b
           end;
    split; intro H; try discriminate H; try lia; try reflexivity.
Qed.


(** ** Ignored directories *)

Lemma each_item_ignored : forall cfg currentPath depth nm o ch pre post p a,
  _shouldIgnoreDirectory cfg nm = true ->
  each_item cfg currentPath depth (pre ++ Dir nm o ch :: post) p a
  = each_item cfg currentPath depth (pre ++ post) p a.
Proof.
  intros cfg currentPath depth nm o ch pre post p a H. revert p a.
  induction pre as [|c pre IH]; intros p a; cbn [app each_item].
  - rewrite H. reflexivity.
  - destruct c as [n|n o' ch'].
    + apply IH.
    + destruct (_shouldIgnoreDirectory cfg n); apply IH.
Qed.

Lemma starts_with_prefix : forall sub post, starts_with sub (sub ++ post) = true.
Proof. intros. apply starts_with_app. apply starts_with_refl. Qed.

Lemma includes_infix : forall sub pre post, includes sub (pre ++ sub ++ post) = true.
Proof.
  intros sub pre post. induction pre as [|c pre IH].
  - cbn [app]. destruct (sub ++ post) eqn:E; cbn [includes]; rewrite <- E;
      rewrite starts_with_prefix; reflexivity.
  - cbn [app includes]. rewrite IH. apply orb_true_r.
Qed.

(** Text of ASCII code units, on which [toLowerCase] maps A-Z to a-z and
    changes nothing else. *)
Definition ascii_text (s : jsstring) : Prop := Forall (fun c => (c < 128)%N) s.

Definition ascii_lower (c : char) : char := if is_upper c then (c + 32)%N else c.

Lemma toLowerCase_ascii : forall s, ascii_text s -> toLowerCase s = map ascii_lower s.
Proof.
  induction s as [|c s IH]; intro F; [reflexivity|].
  inversion F as [|? ? Hc Hs]; subst.
  unfold toLowerCase in *. cbn [flat_map map]. rewrite (IH Hs).
  unfold lower_char, ascii_lower.
  destruct (is_upper c); [reflexivity|].
  replace (N.eqb c 8490) with false by (symmetry; apply N.eqb_neq; lia).
  replace (N.eqb c 304) with false by (symmetry; apply N.eqb_neq; lia).
  reflexivity.
Qed.

Lemma ignored_by_infix : forall cfg ignore pre mid post,
  In ignore (ignoreDirs cfg) ->
  ascii_text ignore -> ascii_text (pre ++ mid ++ post) ->
  toLowerCase mid = toLowerCase ignore ->
  _shouldIgnoreDirectory cfg (pre ++ mid ++ post) = true.
Proof.
  intros cfg ignore pre mid post Hin Ai An Hmid. unfold _shouldIgnoreDirectory.
  apply existsb_exists. exists ignore. split; [exact Hin|].
  pose proof An as An'. apply Forall_app in An'. destruct An' as [_ Am].
  apply Forall_app in Am. destruct Am as [Am _].
  rewrite (toLowerCase_ascii _ An), !map_app.
  rewrite <- (toLowerCase_ascii _ Am), Hmid.
  apply includes_infix.
Qed.

(** X5: a sub-directory whose name contains one of the ignored names, in
    any letter case and anywhere in the name, is skipped with everything
    below it: as long as the listing has another entry, the analysis is the
    one the walk returns when the listing does not have that
    sub-directory.  The directory name and the ignored name are ASCII
    text, as the configured names and their letter cases are. *)
Theorem ignored_directory_is_skipped :
  forall cfg ignore pre mid post o ch nm o0 before after currentPath a depth,
    In ignore (ignoreDirs cfg) ->
    ascii_text ignore -> ascii_text (pre ++ mid ++ post) ->
    toLowerCase mid = toLowerCase ignore ->
    before ++ after <> [] ->
    _analyzeRecursive cfg (Dir nm o0 (before ++ Dir (pre ++ mid ++ post) o ch :: after))
      currentPath a depth
    = _analyzeRecursive cfg (Dir nm o0 (before ++ after)) currentPath a depth.
Proof.
  intros cfg ignore pre mid post o ch nm o0 before after currentPath a depth
    Hin Ai An Hmid Hne.
  rewrite !_analyzeRecursive_dir.
  destruct (maxDepth cfg <? depth); [reflexivity|].
  destruct o0; try reflexivity.
  destruct (before ++ after) as [|c cs] eqn:E; [contradiction|].
  destruct (before ++ Dir (pre ++ mid ++ post) o ch :: after) as [|c' cs'] eqn:E'.
  - destruct before; discriminate E'.
  - rewrite <- E, <- E'. apply each_item_ignored.
    apply (ignored_by_infix cfg ignore); assumption.
Qed.

Lemma ignored_directory_is_skipped_witness :
  let tree := fun children => Dir (lit "library") ReturnsItems children in
  let samples := Dir (lit "My SAMPLES") ReturnsItems [File (lit "clip.mkv")] in
  _analyzeRecursive default_config (tree [File (lit "Alien.mkv"); samples])
    (lit "/library") empty_analysis 0
  = _analyzeRecursive default_config (tree [File (lit "Alien.mkv")])
      (lit "/library") empty_analysis 0.
Proof.
  cbv zeta.
  apply (ignored_directory_is_skipped default_config (lit "sample")
           (lit "My ") (lit "SAMPLE") (lit "S") ReturnsItems [File (lit "clip.mkv")]
           (lit "library") ReturnsItems [File (lit "Alien.mkv")] []).
  - simpl. auto 20.
  - unfold ascii_text. repeat constructor.
  - unfold ascii_text. repeat constructor.
  - reflexivity.
  - discriminate.
Defined.

(** ** The report of [analyzePath] *)

(** X1: in the report of [analyzePath], [totalDirectories] is the sum of
    the four category counts, so every directory that was counted sits in
    exactly one category, and [totalFiles] is the number of video files
    held by the recorded directories. *)
Theorem analyzePath_statistics : forall cfg root rootPath,
  let r := analyzePath cfg root rootPath in
  let s := pa_statistics r in
  totalDirectories (fs_counts s)
  = movieDirectories s + tvDirectories s + mixedDirectories s + unknownDirectories s
  /\ totalFiles (fs_counts s) = recorded_files (pa_analysis r).
Proof.
  intros cfg root rootPath.
  destruct (walk_counts cfg root rootPath empty_analysis 0) as [H1 H2].
  cbv zeta in *. unfold analyzePath.
  cbn [pa_statistics pa_analysis _calculateStatistics fs_counts movieDirectories tvDirectories
       mixedDirectories unknownDirectories].
  set (a := _analyzeRecursive cfg root rootPath empty_analysis 0) in *.
  unfold categorized in H1. rewrite !length_app in H1.
  cbn in H1, H2. split; lia.
Qed.

Lemma list_max_In : forall (l : list nat) x, In x l -> x <= list_max l.
Proof.
  induction l as [|y l IH]; intros x H; [contradiction|].
  simpl. destruct H as [->|H]; [lia|]. apply IH in H. lia.
Qed.

(** X2: [statistics.maxDepth] of the report is the greatest depth of a
    recorded directory, and it never exceeds the configured [maxDepth];
    every recorded directory lies under the root path, at a depth of at
    most [maxDepth]. *)
Theorem analyzePath_depth : forall cfg root rootPath,
  let r := analyzePath cfg root rootPath in
  st_maxDepth (fs_counts (pa_statistics r)) = recorded_depth (pa_analysis r)
  /\ st_maxDepth (fs_counts (pa_statistics r)) <= maxDepth cfg
  /\ Forall (fun p => starts_with rootPath (pi_path p) = true /\ pi_depth p <= maxDepth cfg)
       (categorized (pa_analysis r)).
Proof.
  intros cfg root rootPath.
  destruct (walk_depth cfg root rootPath empty_analysis 0) as (H1 & H2 & H3).
  pose proof (walk_paths cfg root rootPath empty_analysis 0 rootPath
                (starts_with_refl rootPath) (Forall_nil _)) as H4.
  cbv zeta in *. unfold analyzePath.
  cbn [pa_statistics pa_analysis _calculateStatistics fs_counts].
  set (a := _analyzeRecursive cfg root rootPath empty_analysis 0) in *.
  specialize (H2 0 eq_refl). specialize (H3 (Nat.le_0_l _)).
  rewrite Nat.max_0_l in H2.
  split; [exact H2|]. split; [exact H3|].
  apply Forall_forall. intros p Hp. split.
  - rewrite Forall_forall in H4. apply H4. exact Hp.
  - assert (pi_depth p <= recorded_depth a).
    { unfold recorded_depth. apply list_max_In. apply in_map. exact Hp. }
    lia.
Qed.

(** X3: every directory recorded by [analyzePath] carries the type that
    [_analyzeDirectoryType] computes from its own video files and
    sub-directories, and sits in the category of that type: movie
    collections and libraries under [movies], seasons and shows under
    [tvShows], mixed content under [mixed], and content libraries and
    unknown directories under [unknown]. *)
Theorem analyzePath_categories : forall cfg root rootPath,
  let a := pa_analysis (analyzePath cfg root rootPath) in
  Forall (fun p => pi_type p = _analyzeDirectoryType p) (categorized a)
  /\ Forall (fun p => movie_type (pi_type p)) (cat_movies a)
  /\ Forall (fun p => tv_type (pi_type p)) (cat_tvShows a)
  /\ Forall (fun p => pi_type p = lit "mixed_content") (cat_mixed a)
  /\ Forall (fun p => other_type (pi_type p)) (cat_unknown a).
Proof.
  intros cfg root rootPath. cbv zeta. unfold analyzePath. cbn [pa_analysis].
  split.
  - apply walk_typed. constructor.
  - apply walk_sorted. repeat split; constructor.
Qed.

(** X4: the structure reported by [analyzePath] is [empty] exactly when no
    directory was counted, and [mixed] exactly when some recorded
    directory holds both a movie file and an episode file. *)
Theorem analyzePath_structure : forall cfg root rootPath,
  let r := analyzePath cfg root rootPath in
  (pa_structure r = lit "empty" <-> totalDirectories (fs_counts (pa_statistics r)) = 0)
  /\ (pa_structure r = lit "mixed" <->
      exists p, In p (categorized (pa_analysis r))
                /\ 0 < movie_files p /\ 0 < episode_files p).
Proof.
  intros cfg root rootPath.
  destruct (walk_counts cfg root rootPath empty_analysis 0) as [H1 _].
  pose proof (walk_typed cfg root rootPath empty_analysis 0 (Forall_nil _)) as HT.
  assert (HS : sorted_by_type (_analyzeRecursive cfg root rootPath empty_analysis 0)).
  { apply walk_sorted. repeat split; constructor. }
  cbv zeta in *. unfold analyzePath.
  cbn [pa_statistics pa_analysis pa_structure _calculateStatistics fs_counts].
  set (a := _analyzeRecursive cfg root rootPath empty_analysis 0) in *.
  unfold categorized in H1. rewrite !length_app in H1. cbn in H1.
  unfold _determineStructureType.
  split.
  - destruct (length (cat_movies a)) as [|nm]; destruct (length (cat_tvShows a)) as [|nt];
      destruct (length (cat_mixed a)) as [|nx]; destruct (length (cat_unknown a)) as [|nu];
      cbn [Nat.ltb Nat.leb Nat.eqb andb];
      split; intro H; try discriminate H; try lia; reflexivity.
  - destruct HS as (S1 & S2 & S3 & S4). split.
    + intro H. destruct (cat_mixed a) as [|p l] eqn:E.
      * exfalso. cbn [length Nat.ltb Nat.leb] in H.
        repeat match type of H with
               | context [if ?b then _ else _] => destruct b
               end; discriminate H.
      * exists p. split.
        -- unfold categorized. rewrite E. apply in_or_app. right. apply in_or_app. right.
           apply in_or_app. left. left. reflexivity.
        -- apply mixed_content_iff. inversion S3 as [|? ? Hp _]; subst.
           rewrite <- Hp. symmetry.
           unfold typed_by_content in HT. rewrite Forall_forall in HT. apply HT.
           unfold categorized. rewrite E. apply in_or_app. right. apply in_or_app. right.
           apply in_or_app. left. left. reflexivity.
    + intros (p & Hin & Hm & He).
      assert (Hp : pi_type p = lit "mixed_content").
      { unfold typed_by_content in HT. rewrite Forall_forall in HT. rewrite (HT p Hin).
        apply mixed_content_iff. split; assumption. }
      assert (Hmixed : In p (cat_mixed a)).
      { unfold categorized in Hin.
        apply in_app_or in Hin. destruct Hin as [Hin|Hin].
        { rewrite Forall_forall in S1. apply S1 in Hin. rewrite Hp in Hin.
          destruct Hin as [F|F]; discriminate F. }
        apply in_app_or in Hin. destruct Hin as [Hin|Hin].
        { rewrite Forall_forall in S2. apply S2 in Hin. rewrite Hp in Hin.
          destruct Hin as [F|F]; discriminate F. }
        apply in_app_or in Hin. destruct Hin as [Hin|Hin]; [exact Hin|].
        rewrite Forall_forall in S4. apply S4 in Hin. rewrite Hp in Hin.
        destruct Hin as [F|F]; discriminate F. }
      destruct (cat_mixed a) as [|q l]; [contradiction|]. reflexivity.
Qed.

End WalkInvariants.

(* ------------------------------------------------------------------ *)
(** ** PathAnalyzer: a failed listing during the walk (C9)             *)
(* ------------------------------------------------------------------ *)

Section FailedListing.
Import PathAnalyzer.

Variable cfg : config.

(** What one turn of the loop of [_analyzeRecursive] adds to [pathInfo]:
    it reads the name and the kind of the entry, never what the listing
    of a sub-directory gives. *)
Definition listed_entry (currentPath : jsstring) (p : path_info) (item : node) : path_info :=
  match item with
  | Dir nm _ _ =>
      if _shouldIgnoreDirectory cfg nm then p else add_subdirectory cfg currentPath nm p
  | File nm => add_file currentPath nm p
  end.

(** What one turn of the loop does to [analysis]. *)
Definition walked_entry (currentPath : jsstring) (depth : nat) (a : analysis) (item : node)
  : analysis :=
  match item with
  | Dir nm _ _ =>
      if _shouldIgnoreDirectory cfg nm then a
      else _analyzeRecursive cfg item (child_path currentPath nm) a (S depth)
  | File nm => if _isVideoFile nm then count_file a else a
  end.

(** The [pathInfo] that is recorded for a directory with the entries
    [items]: built from all of them and typed at the end of the loop. *)
Definition directory_info (currentPath : jsstring) (depth : nat) (items : list node)
  : path_info :=
  let p := fold_left (listed_entry currentPath) items
             (PathInfo currentPath depth (lit "unknown") [] [] []) in
  PathInfo (pi_path p) (pi_depth p) (_analyzeDirectoryType p) (pi_items p)
    (pi_videoFiles p) (pi_subdirectories p).

Lemma each_item_split : forall currentPath depth items p a,
  each_item cfg currentPath depth items p a
  = finish_directory currentPath (fold_left (listed_entry currentPath) items p)
      (fold_left (walked_entry currentPath depth) items a).
Proof.
  intros currentPath depth items. induction items as [|item items IH]; intros p a.
  - reflexivity.
  - destruct item as [nm|nm o ch]; cbn [each_item fold_left listed_entry walked_entry].
    + apply IH.
    + destruct (_shouldIgnoreDirectory cfg nm); apply IH.
Qed.

Lemma finish_directory_records : forall currentPath p a,
  let info := PathInfo (pi_path p) (pi_depth p) (_analyzeDirectoryType p) (pi_items p)
                (pi_videoFiles p) (pi_subdirectories p) in
  In info (categorized (finish_directory currentPath p a))
  /\ (forall q, In q (categorized a) -> In q (categorized (finish_directory currentPath p a))).
Proof.
  intros currentPath p a info.
  destruct (categorized_finish currentPath p a) as (l & r & E1 & E2).
  fold info in E2. rewrite E2, E1. split.
  - apply in_or_app. right. left. reflexivity.
  - intros q Hq. apply in_app_or in Hq. apply in_or_app.
    destruct Hq; [left | right; right]; assumption.
Qed.

Lemma map_get_set : forall {V} k (v : V) mp, map_get k (map_set k v mp) = Some v.
Proof.
  intros V k v mp. induction mp as [|[k' v'] mp IH]; cbn [map_set map_get].
  - rewrite str_eqb_refl. reflexivity.
  - destruct (str_eqb k' k) eqn:E; cbn [map_get]; [rewrite str_eqb_refl | rewrite E];
      [reflexivity | exact IH].
Qed.

(** The walk only adds to the categories. *)
Lemma walk_keeps : forall n currentPath a depth q,
  In q (categorized a) -> In q (categorized (_analyzeRecursive cfg n currentPath a depth)).
Proof.
  intros n currentPath a depth.
  apply (walk_ind cfg
    (fun _ _ a a' => forall q, In q (categorized a) -> In q (categorized a'))
    (fun _ _ _ a a' => forall q, In q (categorized a) -> In q (categorized a'))).
  - auto.
  - intros cp d a0 a' _ H q Hq. apply H. rewrite categorized_enter. exact Hq.
  - intros cp d p a0 q Hq. exact (proj2 (finish_directory_records cp p a0) q Hq).
  - intros cp d nm p a0 a1 a2 H1 H2 q Hq. apply H2, H1, Hq.
  - intros cp d nm p a0 a2 H q Hq. apply H.
    destruct (_isVideoFile nm); [rewrite categorized_count_file|]; exact Hq.
Qed.

Lemma walked_entries_keep : forall currentPath depth items a q,
  In q (categorized a) ->
  In q (categorized (fold_left (walked_entry currentPath depth) items a)).
Proof.
  intros currentPath depth items. induction items as [|item items IH]; intros a q Hq.
  - exact Hq.
  - cbn [fold_left]. apply IH. destruct item as [nm|nm o ch]; cbn [walked_entry].
    + destruct (_isVideoFile nm); [rewrite categorized_count_file|]; exact Hq.
    + destruct (_shouldIgnoreDirectory cfg nm); [exact Hq | apply walk_keeps; exact Hq].
Qed.

(** A directory that is listed, within the depth limit, with at least one
    entry, is recorded with the information of its entries. *)
Lemma walk_records : forall nm items currentPath a depth,
  depth <= maxDepth cfg -> items <> [] ->
  let r := _analyzeRecursive cfg (Dir nm ReturnsItems items) currentPath a depth in
  map_get currentPath (pathMap r) = Some (directory_info currentPath depth items)
  /\ In (directory_info currentPath depth items) (categorized r)
  /\ forall q, In q (categorized a) -> In q (categorized r).
Proof.
  intros nm items currentPath a depth D N r.
  assert (E : r = each_item cfg currentPath depth items
                    (PathInfo currentPath depth (lit "unknown") [] [] [])
                    (enter_directory depth a)).
  { unfold r. rewrite _analyzeRecursive_dir.
    apply Nat.ltb_ge in D. rewrite D. destruct items; [contradiction | reflexivity]. }
  rewrite each_item_split in E.
  split; [|split].
  - rewrite E. unfold finish_directory, set_path. cbn [pathMap]. rewrite map_get_set. reflexivity.
  - rewrite E. exact (proj1 (finish_directory_records _ _ _)).
  - intros q Hq. unfold r. apply walk_keeps. exact Hq.
Qed.

Lemma walked_entries_record : forall currentPath depth items a snm sch,
  In (Dir snm ReturnsItems sch) items -> sch <> [] ->
  _shouldIgnoreDirectory cfg snm = false -> S depth <= maxDepth cfg ->
  In (directory_info (child_path currentPath snm) (S depth) sch)
     (categorized (fold_left (walked_entry currentPath depth) items a)).
Proof.
  intros currentPath depth items. induction items as [|item items IH];
    intros a snm sch Hin N I D; [contradiction|].
  cbn [fold_left]. destruct Hin as [-> | Hin].
  - apply walked_entries_keep. cbn [walked_entry]. rewrite I.
    pose proof (walk_records snm sch (child_path currentPath snm) a (S depth) D N) as W.
    cbv zeta in W. destruct W as (_ & W & _). exact W.
  - apply IH; assumption.
Qed.

(** C9: a rejected listing is caught where it happens and the walk goes
    on.  For a directory that is listed within the depth limit and has an
    entry whose own listing is rejected: nothing is recorded for the
    failed path, exactly as for an empty directory, and the whole result
    is the one of the tree in which every failing directory is empty; the
    parent is recorded and classified from all its entries; every sibling
    that can be listed, before or after the failed one, is recorded and
    classified from its own entries; and nothing recorded earlier is
    lost. *)
Theorem failed_listing_walk_continues :
  forall nm before failed ch after currentPath a depth items r,
    depth <= maxDepth cfg ->
    items = before ++ Dir failed Throws ch :: after ->
    r = _analyzeRecursive cfg (Dir nm ReturnsItems items) currentPath a depth ->
    (forall path a' d,
       _analyzeRecursive cfg (Dir failed Throws ch) path a' d = a'
       /\ _analyzeRecursive cfg (Dir failed ReturnsItems []) path a' d = a')
    /\ r = _analyzeRecursive cfg (as_empty (Dir nm ReturnsItems items)) currentPath a depth
    /\ map_get currentPath (pathMap r) = Some (directory_info currentPath depth items)
    /\ In (directory_info currentPath depth items) (categorized r)
    /\ (forall snm sch,
          In (Dir snm ReturnsItems sch) (before ++ after) -> sch <> [] ->
          _shouldIgnoreDirectory cfg snm = false -> S depth <= maxDepth cfg ->
          In (directory_info (child_path currentPath snm) (S depth) sch) (categorized r))
    /\ (forall q, In q (categorized a) -> In q (categorized r)).
Proof.
  intros nm before failed ch after currentPath a depth items r D Ei Er.
  assert (N : items <> []) by (rewrite Ei; destruct before; discriminate).
  destruct (walk_records nm items currentPath a depth D N) as (G & R & K).
  rewrite <- Er in G, R, K.
  split; [|split; [|split; [|split; [|split]]]].
  - intros path a' d. rewrite !_analyzeRecursive_dir.
    destruct (maxDepth cfg <? d); split; reflexivity.
  - rewrite Er. symmetry. apply rejected_as_empty.
  - exact G.
  - exact R.
  - intros snm sch Hin Ns I Ds.
    assert (E : r = finish_directory currentPath
                      (fold_left (listed_entry currentPath) items
                         (PathInfo currentPath depth (lit "unknown") [] [] []))
                      (fold_left (walked_entry currentPath depth) items
                         (enter_directory depth a))).
    { rewrite Er, _analyzeRecursive_dir. apply Nat.ltb_ge in D. rewrite D.
      destruct items; [contradiction | apply each_item_split]. }
    rewrite E. apply (proj2 (finish_directory_records _ _ _)).
    apply walked_entries_record; try assumption.
    rewrite Ei. apply in_app_or in Hin. apply in_or_app.
    destruct Hin; [left | right; right]; assumption.
  - exact K.
Qed.

End FailedListing.

(** A library with a movie file, a folder whose listing is rejected and a
    folder that holds one movie. *)
Definition library_entries : list PathAnalyzer.node :=
  [PathAnalyzer.File (lit "Alien.mkv");
   PathAnalyzer.Dir (lit "Broken") PathAnalyzer.Throws [];
   PathAnalyzer.Dir (lit "Brazil") PathAnalyzer.ReturnsItems
     [PathAnalyzer.File (lit "Brazil.1985.mkv")]].

Definition library_analysis : PathAnalyzer.analysis :=
  PathAnalyzer._analyzeRecursive PathAnalyzer.default_config
    (PathAnalyzer.Dir (lit "library") PathAnalyzer.ReturnsItems library_entries)
    (lit "/library") PathAnalyzer.empty_analysis 0.

Lemma failed_listing_walk_continues_witness :
  map_get (lit "/library") (PathAnalyzer.pathMap library_analysis)
    = Some (directory_info PathAnalyzer.default_config (lit "/library") 0 library_entries)
  /\ PathAnalyzer.pi_type
       (directory_info PathAnalyzer.default_config (lit "/library") 0 library_entries)
     = lit "movie_collection"
  /\ map PathAnalyzer.sd_name
       (PathAnalyzer.pi_subdirectories
          (directory_info PathAnalyzer.default_config (lit "/library") 0 library_entries))
     = [lit "Broken"; lit "Brazil"]
  /\ In (directory_info PathAnalyzer.default_config (lit "/library/Brazil") 1
           [PathAnalyzer.File (lit "Brazil.1985.mkv")])
        (categorized library_analysis)
  /\ map PathAnalyzer.pi_path (categorized library_analysis)
     = [lit "/library/Brazil"; lit "/library"].
Proof.
  destruct (failed_listing_walk_continues PathAnalyzer.default_config (lit "library")
              [PathAnalyzer.File (lit "Alien.mkv")] (lit "Broken") []
              [PathAnalyzer.Dir (lit "Brazil") PathAnalyzer.ReturnsItems
                 [PathAnalyzer.File (lit "Brazil.1985.mkv")]]
              (lit "/library") PathAnalyzer.empty_analysis 0 library_entries library_analysis)
    as (_ & _ & G & _ & S & _).
  - cbn. lia.
  - reflexivity.
  - reflexivity.
  - split; [exact G|]. split; [vm_compute; reflexivity|]. split; [vm_compute; reflexivity|].
    split; [|vm_compute; reflexivity].
    apply (S (lit "Brazil") [PathAnalyzer.File (lit "Brazil.1985.mkv")]).
    + right. left. reflexivity.
    + discriminate.
    + vm_compute. reflexivity.
    + cbn. lia.
Defined.

(* ------------------------------------------------------------------ *)
(** ** ContentDetector: season folders and folder kinds                *)
(* ------------------------------------------------------------------ *)

Section Folders.
Import ContentDetector.

Lemma seasonFolderPatterns_shape : Forall single_shape seasonFolderPatterns.
Proof. repeat constructor. Qed.

Lemma try_season_folder_season : forall folderName ps r,
  Forall single_shape ps ->
  try_season_folder ps folderName = Some r ->
  sf_original r = folderName
  /\ exists z, sf_season r = Int z /\ (0 <= z <= 99)%Z.
Proof.
  intros folderName ps r F. induction F as [|p ps (W & I1) F IH]; intro H; [discriminate|].
  cbn [try_season_folder] in H.
  destruct (exec p folderName) as [res|] eqn:E; [|apply IH; exact H].
  destruct (group_number two_digits p folderName res 1 true W E I1) as (z1 & G1 & B1).
  injection H as <-. cbn [sf_original sf_season]. split; [reflexivity|].
  exists z1. unfold group_int. rewrite G1. split; [reflexivity|].
  unfold two_digits in B1. simpl in B1. lia.
Qed.

(** X6: when [matchSeasonFolder] answers, the season it reports is an
    integer from 0 to 99 (never NaN), and [original] is the folder name it
    was given. *)
Theorem matchSeasonFolder_season : forall folderName r,
  matchSeasonFolder folderName = Some r ->
  sf_original r = folderName
  /\ exists z, sf_season r = Int z /\ (0 <= z <= 99)%Z.
Proof.
  intros folderName r H.
  apply (try_season_folder_season folderName seasonFolderPatterns r seasonFolderPatterns_shape H).
Qed.

Lemma matchSeasonFolder_season_witness :
  matchSeasonFolder (lit "Season 12") = Some (SeasonFolder (Int 12) (lit "Season 12"))
  /\ sf_original (SeasonFolder (Int 12) (lit "Season 12")) = lit "Season 12"
  /\ exists z, sf_season (SeasonFolder (Int 12) (lit "Season 12")) = Int z /\ (0 <= z <= 99)%Z.
Proof.
  assert (H : matchSeasonFolder (lit "Season 12") = Some (SeasonFolder (Int 12) (lit "Season 12")))
    by (vm_compute; reflexivity).
  split; [exact H|].
  exact (matchSeasonFolder_season (lit "Season 12") _ H).
Defined.

Lemma no_paren_no_year : forall s pv idx,
  Forall (fun c => c <> 40%N) s -> exec_from re_paren_year pv s idx = None.
Proof.
  induction s as [|c s IH]; intros pv idx F.
  - reflexivity.
  - inversion F as [|? ? Hc Hs]; subst. cbn [exec_from].
    assert (M : match_here re_paren_year pv (c :: s) = None).
    { unfold match_here, re_paren_year. cbn [p_icase p_re seq].
      rewrite m_seq. unfold Str. cbn [lit chars list_ascii_of_string map].
      rewrite m_chr_cons. cbn [cset_test].
      destruct (N.eqb c (N_of_ascii "("%char)) eqn:E; [|reflexivity].
      apply N.eqb_eq in E. subst c. exfalso. apply Hc. reflexivity. }
    rewrite M. apply IH. exact Hs.
Qed.

Lemma m_bol_start : forall ic k s cp,
  m ic Bol k (MState None s cp) = k (MState None s cp).
Proof. reflexivity. Qed.

Lemma m_eol_end : forall ic k pv cp,
  m ic Eol k (MState pv [] cp) = k (MState pv [] cp).
Proof. reflexivity. Qed.

Lemma season_name_matches : forall cS ds,
  letter 83%N cS -> digit_string 2 ds ->
  matchSeasonFolder (cS :: ds) = Some (SeasonFolder (Int (dec_value ds)) (cS :: ds)).
Proof.
  intros cS ds HS Hd. pose proof Hd as (Nd & Ld & Fd).
  unfold matchSeasonFolder, seasonFolderPatterns. cbn [try_season_folder].
  assert (M : match_here (Pattern true (seq [Bol; Str "S"; Grp 1 d12; Eol])) None (cS :: ds)
              = Some (MState (prev_after (Some cS) ds) [] [(1, ds)])).
  { unfold match_here. cbn [p_icase p_re seq]. rewrite m_seq, m_bol_start.
    unfold Str. cbn [lit chars list_ascii_of_string map].
    change (N_of_ascii "S"%char) with 83%N.
    rewrite m_seq, m_chr_cons.
    rewrite (proj2 (test_letter 83%N cS ltac:(lia)) HS).
    rewrite m_seq, m_grp. unfold d12, Times. rewrite m_rep_chr. cbn [prev rest caps cset_test].
    rewrite <- (app_nil_r ds) at 1.
    apply take_greedy_digits; try assumption.
    - destruct ds; [contradiction | simpl; lia].
    - right. exact I.
    - rewrite m_eol_end. cbn [rest prev caps].
      rewrite (consumed_prefix (MState (Some cS) ds [])
                 (MState (prev_after (Some cS) ds) [] []) ds)
        by (cbn [rest]; rewrite app_nil_r; reflexivity).
      reflexivity. }
  unfold exec. rewrite (exec_from_here _ _ _ _ _ M).
  unfold group_int, group. cbn [m_caps lookup Nat.eqb caps].
  rewrite (parseInt_digits 2 ds true Hd). reflexivity.
Qed.

(** X7: every folder name is a movie folder or a television folder, and
    it is both only when it carries a year in parentheses.  A folder
    named by the letter S (in either case) and one or two digits is a
    season folder with that number, a television folder, and not a movie
    folder. *)
Theorem folder_kinds :
  (forall folderName, isMovieFolder folderName = true \/ isTvFolder folderName = true)
  /\ (forall folderName,
        isMovieFolder folderName = true -> isTvFolder folderName = true ->
        test re_paren_year folderName = true)
  /\ (forall cS ds,
        letter 83%N cS -> digit_string 2 ds ->
        matchSeasonFolder (cS :: ds) = Some (SeasonFolder (Int (dec_value ds)) (cS :: ds))
        /\ isTvFolder (cS :: ds) = true
        /\ isMovieFolder (cS :: ds) = false).
Proof.
  split; [|split].
  - intros f. unfold isMovieFolder, isTvFolder.
    destruct (test re_paren_year f); [left; reflexivity|].
    destruct (is_season_folder f); [right; reflexivity|].
    destruct (truthy_field _); [right|left]; reflexivity.
  - intros f. unfold isMovieFolder, isTvFolder.
    destruct (test re_paren_year f); [reflexivity|].
    destruct (is_season_folder f); [discriminate|].
    destruct (truthy_field _); discriminate.
  - intros cS ds HS Hd. pose proof (season_name_matches cS ds HS Hd) as M.
    split; [exact M|].
    unfold isTvFolder, isMovieFolder, is_season_folder. rewrite M.
    split; [reflexivity|].
    unfold test, exec. rewrite no_paren_no_year; [reflexivity|].
    destruct Hd as (_ & _ & Fd). constructor.
    + destruct HS as [->| ->]; discriminate.
    + eapply Forall_impl; [|exact Fd]. intros c Hc E. subst c. discriminate Hc.
Qed.

Lemma folder_kinds_witness :
  letter 83%N (ch "s") /\ digit_string 2 (lit "07")
  /\ matchSeasonFolder (lit "s07") = Some (SeasonFolder (Int 7) (lit "s07"))
  /\ isTvFolder (lit "s07") = true
  /\ isMovieFolder (lit "s07") = false.
Proof.
  assert (HS : letter 83%N (ch "s")) by (right; reflexivity).
  assert (Hd : digit_string 2 (lit "07")).
  { split; [discriminate|]. split; [simpl; lia|]. repeat constructor. }
  split; [exact HS|]. split; [exact Hd|].
  exact (proj2 (proj2 folder_kinds) (ch "s") (lit "07") HS Hd).
Defined.

End Folders.

(* ------------------------------------------------------------------ *)
(** ** The two tests for video files                                   *)
(* ------------------------------------------------------------------ *)

Section Extensions.
Import ContentDetector.

Definition dot : char := 46%N.

Definition not_dot (c : char) : bool := negb (N.eqb c dot).

Lemma not_dot_test : forall c,
  cset_test false (CNClass [AChar (ch ".")]) c = not_dot c.
Proof. intro c. unfold not_dot. cbn. rewrite orb_false_r. reflexivity. Qed.

Lemma take_greedy_all : forall test tl lo pv cp,
  Forall (fun c => test c = true) tl -> lo <= length tl ->
  take_greedy test (m false Eol Some) lo None pv tl cp = Some (MState (prev_after pv tl) [] cp).
Proof.
  intros test tl. induction tl as [|c tl IH]; intros lo pv cp F L.
  - simpl in L. assert (lo = 0) by lia. subst lo. reflexivity.
  - inversion F as [|? ? Hc Ht]; subst. cbn [take_greedy option_map]. rewrite Hc.
    rewrite IH; [reflexivity | exact Ht | simpl in L; lia].
Qed.

Lemma take_greedy_blocked : forall test tl lo pv cp,
  (exists c, In c tl /\ test c = false) ->
  take_greedy test (m false Eol Some) lo None pv tl cp = None.
Proof.
  intros test tl. induction tl as [|c tl IH]; intros lo pv cp (x & Hin & Hx).
  - contradiction.
  - cbn [take_greedy option_map].
    assert (S0 : (if lo =? 0 then m false Eol Some (MState pv (c :: tl) cp) else None) = None)
      by (destruct (lo =? 0); reflexivity).
    rewrite S0. destruct (test c) eqn:Hc; [|reflexivity].
    rewrite IH; [reflexivity|]. exists x. split; [|exact Hx].
    destruct Hin as [->|Hin]; [congruence | exact Hin].
Qed.

(** The suffix of a name that starts at its last dot. *)
Fixpoint from_last_dot (s : jsstring) : option jsstring :=
  match s with
  | [] => None
  | c :: tl =>
      match from_last_dot tl with
      | Some x => Some x
      | None => if N.eqb c dot then Some (c :: tl) else None
      end
  end.

Lemma from_last_dot_none : forall s,
  from_last_dot s = None <-> Forall (fun c => not_dot c = true) s.
Proof.
  induction s as [|c s IH]; simpl.
  - split; [constructor | reflexivity].
  - destruct (from_last_dot s) as [x|].
    + split; [discriminate|]. intro F. inversion F as [|? ? Hc Hs]; subst.
      apply IH in Hs. discriminate Hs.
    + unfold not_dot. destruct (N.eqb c dot) eqn:E.
      * split; [discriminate|]. intro F. inversion F as [|? ? Hc _]; subst.
        rewrite E in Hc. discriminate Hc.
      * split; [|reflexivity]. intros _. constructor; [rewrite E; reflexivity|].
        apply IH. reflexivity.
Qed.

Lemma not_all_blocked : forall test (tl : jsstring),
  forallb test tl = false -> exists c, In c tl /\ test c = false.
Proof.
  intros test tl. induction tl as [|c tl IH]; simpl; intro H; [discriminate|].
  destruct (test c) eqn:Hc.
  - destruct (IH H) as (x & Hin & Hx). exists x. auto.
  - exists c. auto.
Qed.

Lemma match_extension : forall pv c tl,
  match_here re_extension pv (c :: tl) =
  if (N.eqb c dot && match tl with [] => false | _ :: _ => true end && forallb not_dot tl)%bool
  then Some (MState (prev_after (Some c) tl) [] [])
  else None.
Proof.
  intros pv c tl. unfold match_here, re_extension. cbn [p_icase p_re seq].
  rewrite m_seq. unfold Str. cbn [lit chars list_ascii_of_string map].
  rewrite m_chr_cons. cbn [cset_test]. change (N_of_ascii "."%char) with dot.
  destruct (N.eqb c dot); [|reflexivity]. cbn [andb].
  rewrite m_seq. unfold Plus. rewrite m_rep_chr. cbn [prev rest caps].
  destruct tl as [|d tl]; [reflexivity|]. cbn [andb].
  destruct (forallb not_dot (d :: tl)) eqn:F.
  - apply take_greedy_all.
    + rewrite forallb_forall in F. apply Forall_forall. intros x Hx.
      rewrite not_dot_test. apply F. exact Hx.
    + simpl. lia.
  - apply take_greedy_blocked. destruct (not_all_blocked _ _ F) as (x & Hin & Hx).
    exists x. split; [exact Hin|]. rewrite not_dot_test. exact Hx.
Qed.

(** What [filename.match(/\.[^.]+$/)] finds: the text from the last dot
    on, when something follows that dot. *)
Definition extension_text (s : jsstring) : option jsstring :=
  match from_last_dot s with
  | Some ((_ :: _ :: _) as x) => Some x
  | _ => None
  end.

Lemma exec_extension : forall s pv idx,
  option_map m_text (exec_from re_extension pv s idx) = extension_text s.
Proof.
  induction s as [|c tl IH]; intros pv idx; [reflexivity|].
  cbn [exec_from]. rewrite match_extension. unfold extension_text. cbn [from_last_dot].
  destruct (N.eqb c dot && match tl with [] => false | _ :: _ => true end
            && forallb not_dot tl)%bool eqn:C.
  - apply andb_true_iff in C. destruct C as [C F]. apply andb_true_iff in C. destruct C as [C N].
    assert (D : from_last_dot tl = None).
    { apply from_last_dot_none. apply Forall_forall. rewrite forallb_forall in F. exact F. }
    rewrite D, C. destruct tl as [|d tl]; [discriminate|].
    cbn [option_map m_text rest]. change (length (@nil char)) with 0.
    rewrite Nat.sub_0_r, firstn_all. reflexivity.
  - rewrite IH. unfold extension_text.
    destruct (from_last_dot tl) as [x|] eqn:D; [reflexivity|].
    destruct (N.eqb c dot) eqn:E; [|reflexivity].
    destruct tl as [|d tl]; [reflexivity|]. exfalso.
    apply from_last_dot_none in D. cbn [andb] in C.
    assert (forallb not_dot (d :: tl) = true).
    { apply forallb_forall. rewrite Forall_forall in D. exact D. }
    congruence.
Qed.

Lemma getFileExtension_text : forall filename,
  getFileExtension filename =
  match extension_text filename with Some x => toLowerCase x | None => [] end.
Proof.
  intro filename. unfold getFileExtension, exec.
  rewrite <- (exec_extension filename None 0).
  destruct (exec_from re_extension None filename 0); reflexivity.
Qed.


Definition lower1 (c : char) : char :=
  if is_upper c then (c + 32)%N else if N.eqb c 8490%N then 107%N else c.

Lemma toLowerCase_map : forall s,
  Forall (fun c => c <> 304%N) s -> toLowerCase s = map lower1 s.
Proof.
  induction s as [|c s IH]; intro F; [reflexivity|].
  inversion F as [|? ? Hc Hs]; subst.
  unfold toLowerCase in *. cbn [flat_map map]. rewrite (IH Hs).
  unfold lower_char, lower1.
  destruct (is_upper c); [reflexivity|].
  destruct (N.eqb c 8490); [reflexivity|].
  apply N.eqb_neq in Hc. rewrite Hc. reflexivity.
Qed.

Lemma lower1_not_dot : forall c, not_dot c = true -> not_dot (lower1 c) = true.
Proof.
  intros c H. unfold lower1, not_dot, dot, is_upper, in_range in *.
  destruct (N.leb 65 c && N.leb c 90)%bool eqn:U.
  - apply andb_true_iff in U. destruct U as [U1 U2].
    apply N.leb_le in U1. apply negb_true_iff. apply N.eqb_neq. lia.
  - destruct (N.eqb c 8490); [reflexivity | exact H].
Qed.

Lemma lastIndexOf_from : forall s idx,
  match PathAnalyzer.lastIndexOf dot s idx with
  | Some i => idx <= i /\ from_last_dot s = Some (skipn (i - idx) s)
  | None => from_last_dot s = None
  end.
Proof.
  induction s as [|c tl IH]; intro idx; [reflexivity|].
  cbn [PathAnalyzer.lastIndexOf from_last_dot].
  specialize (IH (S idx)).
  destruct (PathAnalyzer.lastIndexOf dot tl (S idx)) as [i|].
  - destruct IH as [L E]. rewrite E. split; [lia|].
    replace (i - idx) with (S (i - S idx)) by lia. reflexivity.
  - rewrite IH. destruct (N.eqb c dot); [|reflexivity].
    split; [lia|]. rewrite Nat.sub_diag. reflexivity.
Qed.

Lemma from_last_dot_head : forall s x,
  from_last_dot s = Some x -> exists tl, x = dot :: tl.
Proof.
  induction s as [|c tl IH]; intros x H; [discriminate|].
  cbn [from_last_dot] in H. destruct (from_last_dot tl) as [y|].
  - injection H as <-. apply IH. reflexivity.
  - destruct (N.eqb c dot) eqn:E; [|discriminate].
    injection H as <-. apply N.eqb_eq in E. subst c. eauto.
Qed.

Lemma Forall_skipn_keep : forall {A} (R : A -> Prop) n (l : list A),
  Forall R l -> Forall R (skipn n l).
Proof.
  intros A R n. induction n as [|n IH]; intros l F; [exact F|].
  destruct l as [|x l]; [exact F|]. inversion F; subst. apply IH. assumption.
Qed.

Lemma no_dot_not_extension : forall y,
  match y with c :: _ => not_dot c = true | [] => True end ->
  existsb (str_eqb y) videoExtensions = false.
Proof.
  intros [|c y] H; [reflexivity|].
  unfold not_dot, dot in H. apply negb_true_iff in H.
  cbn. rewrite H. reflexivity.
Qed.

(** X9: the two tests for video files, [isVideoFile] of the content
    detector and [_isVideoFile] of the path analyzer, give the same answer
    on every file name that has no capital I with a dot above (the one
    code unit whose lower case is two code units long). *)
Theorem video_tests_agree : forall filename,
  Forall (fun c => c <> 304%N) filename ->
  isVideoFile filename = PathAnalyzer._isVideoFile filename.
Proof.
  intros filename F.
  unfold isVideoFile, PathAnalyzer._isVideoFile.
  rewrite getFileExtension_text.
  change PathAnalyzer.videoExtensions with videoExtensions.
  change (ch ".") with dot.
  rewrite (toLowerCase_map filename F), skipn_map.
  pose proof (lastIndexOf_from filename 0) as L.
  unfold extension_text.
  destruct (PathAnalyzer.lastIndexOf dot filename 0) as [i|].
  - destruct L as [_ E]. rewrite Nat.sub_0_r in E. rewrite E.
    destruct (from_last_dot_head _ _ E) as (tl & X).
    assert (Fx : Forall (fun c => c <> 304%N) (dot :: tl))
      by (rewrite <- X; apply Forall_skipn_keep; exact F).
    rewrite X. destruct tl as [|d tl].
    + reflexivity.
    + rewrite (toLowerCase_map (dot :: d :: tl) Fx). reflexivity.
  - rewrite L. cbn [skipn].
    symmetry. apply no_dot_not_extension.
    apply from_last_dot_none in L.
    destruct filename as [|c tl]; [exact I|].
    inversion L; subst. cbn [map]. apply lower1_not_dot. assumption.
Qed.

Lemma video_tests_agree_witness :
  Forall (fun c => c <> 304%N) (lit "Movie.2019.MKV")
  /\ isVideoFile (lit "Movie.2019.MKV") = true
  /\ PathAnalyzer._isVideoFile (lit "Movie.2019.MKV") = true.
Proof.
  assert (F : Forall (fun c => c <> 304%N) (lit "Movie.2019.MKV"))
    by (repeat constructor; discriminate).
  split; [exact F|].
  pose proof (video_tests_agree (lit "Movie.2019.MKV") F) as E.
  split; [reflexivity|]. rewrite <- E. reflexivity.
Defined.

(** With that code unit before the extension the two tests differ: the
    path analyzer cuts the lower-cased name at the index of the dot in the
    original name. *)
Example video_tests_differ :
  isVideoFile (304%N :: lit ".mp4") = true
  /\ PathAnalyzer._isVideoFile (304%N :: lit ".mp4") = false.
Proof. split; reflexivity. Qed.

End Extensions.

(* ------------------------------------------------------------------ *)
(** ** The series name of a path                                       *)
(* ------------------------------------------------------------------ *)

Section SeriesOfPath.
Import ContentDetector.

Definition slash : char := 47%N.

Lemma split_on_cons : forall sep s, exists cur parts, split_on sep s = cur :: parts.
Proof.
  intros sep s. induction s as [|c s (cur & parts & E)]; cbn [split_on]; [eauto|].
  rewrite E. destruct (N.eqb c sep); eauto.
Qed.

Lemma split_on_app : forall sep x y,
  split_on sep (x ++ sep :: y) = split_on sep x ++ split_on sep y.
Proof.
  intros sep x y. induction x as [|c x IH].
  - cbn [app split_on]. destruct (split_on_cons sep y) as (cur & parts & E).
    rewrite E, N.eqb_refl. reflexivity.
  - cbn [app split_on]. rewrite IH.
    destruct (split_on_cons sep x) as (cur & parts & E). rewrite E.
    cbn [app]. destruct (N.eqb c sep); reflexivity.
Qed.

Lemma split_on_single : forall sep s,
  Forall (fun c => c <> sep) s -> split_on sep s = [s].
Proof.
  intros sep s. induction s as [|c s IH]; intro F; [reflexivity|].
  inversion F as [|? ? Hc Hs]; subst. cbn [split_on]. rewrite (IH Hs).
  apply N.eqb_neq in Hc. rewrite Hc. reflexivity.
Qed.

(** A path made of parts. *)
Definition below (parts : list jsstring) : jsstring :=
  flat_map (fun part => slash :: part) parts.

Lemma split_on_below : forall parts x,
  Forall (fun c => c <> slash) x ->
  Forall (Forall (fun c => c <> slash)) parts ->
  split_on slash (x ++ below parts) = x :: parts.
Proof.
  induction parts as [|p parts IH]; intros x Fx Fp.
  - unfold below. cbn [flat_map]. rewrite app_nil_r. apply split_on_single. exact Fx.
  - inversion Fp as [|? ? Hp Hps]; subst. unfold below. cbn [flat_map app].
    rewrite split_on_app, (split_on_single slash x Fx).
    fold (below parts). rewrite (IH p Hp Hps). reflexivity.
Qed.

Lemma find_skip : forall {A} (f : A -> bool) l y,
  Forall (fun x => f x = false) l -> find f (l ++ y) = find f y.
Proof.
  intros A f l y F. induction F as [|x l Hx F IH]; [reflexivity|].
  cbn [app find]. rewrite Hx. exact IH.
Qed.

(** A part of a path that [extractSeriesName] passes over. *)
Definition passed_over (part : jsstring) : Prop :=
  Forall (fun c => c <> slash) part /\ (part = [] \/ is_season_folder part = true).

Lemma passed_over_skipped : forall parts,
  Forall passed_over parts ->
  Forall (fun part => (match part with [] => false | _ :: _ => true end
                       && negb (is_season_folder part))%bool = false) (rev parts).
Proof.
  intros parts F. apply Forall_rev. eapply Forall_impl; [|exact F].
  intros part (_ & [-> | S]); [reflexivity|]. rewrite S. apply andb_false_r.
Qed.

(** X8: [extractSeriesName] passes over the empty parts and the season
    folders at the end of a path and answers the cleaned title of the
    last part that is neither; a path with no such part is an unknown
    series. *)
Theorem extractSeriesName_skips_seasons : forall prefix show seasons,
  show <> [] ->
  Forall (fun c => c <> slash) show ->
  is_season_folder show = false ->
  Forall passed_over seasons ->
  extractSeriesName (prefix ++ below (show :: seasons)) = extractTitle show
  /\ extractSeriesName (below seasons) = lit "Unknown Series".
Proof.
  intros prefix show seasons Hne Hs Hn Hp.
  assert (Fp : Forall (Forall (fun c => c <> slash)) seasons).
  { eapply Forall_impl; [|exact Hp]. intros part [H _]. exact H. }
  unfold extractSeriesName. change (ch "/") with slash. split.
  - unfold below. cbn [flat_map]. fold (below seasons). cbn [app].
    rewrite split_on_app, (split_on_below seasons show Hs Fp).
    rewrite rev_app_distr. cbn [rev]. rewrite <- !app_assoc.
    rewrite find_skip by (apply passed_over_skipped; exact Hp).
    cbn [app find]. rewrite Hn. destruct show; [contradiction|]. reflexivity.
  - rewrite <- (app_nil_l (below seasons)).
    rewrite (split_on_below seasons [] (Forall_nil _) Fp).
    cbn [rev]. rewrite find_skip by (apply passed_over_skipped; exact Hp).
    reflexivity.
Qed.

Lemma extractSeriesName_skips_seasons_witness :
  extractSeriesName (lit "/tv/Breaking Bad/Season 1/") = lit "Breaking Bad"
  /\ extractSeriesName (lit "/Season 1/") = lit "Unknown Series".
Proof.
  assert (Hs : Forall (fun c => c <> slash) (lit "Breaking Bad"))
    by (repeat constructor; discriminate).
  assert (Hp : Forall passed_over [lit "Season 1"; []]).
  { constructor; [|constructor; [|constructor]].
    - split; [repeat constructor; discriminate | right; reflexivity].
    - split; [constructor | left; reflexivity]. }
  pose proof (extractSeriesName_skips_seasons (lit "/tv") (lit "Breaking Bad")
                [lit "Season 1"; []] ltac:(discriminate) Hs eq_refl Hp) as [H1 H2].
  split.
  - transitivity (extractTitle (lit "Breaking Bad")); [exact H1 | vm_compute; reflexivity].
  - exact H2.
Defined.

End SeriesOfPath.

(* ------------------------------------------------------------------ *)
(** ** SmartDetector: one configured path                              *)
(* ------------------------------------------------------------------ *)

Section ConfiguredPath.
Import ContentDetector.
Import AlistAPI.
Import SmartDetector.

(** A listed entry that is a video file. *)
Definition video_entry (it : item) : bool := (negb (is_dir it) && isVideoFile (name it))%bool.

Lemma analyze_entry_counts : forall baseUrl listDirectory path acc it,
  let acc' := analyze_entry baseUrl listDirectory path acc it in
  length (c_movies acc') + length (c_tvShows acc')
  = length (c_movies acc) + length (c_tvShows acc)
    + (if is_dir it then 1 else 0) + (if video_entry it then 1 else 0)
  /\ c_totalFiles acc' = c_totalFiles acc + (if video_entry it then 1 else 0).
Proof.
  intros baseUrl listDirectory path acc it. cbv zeta.
  unfold analyze_entry, video_entry. destruct (is_dir it); cbn [negb andb].
  - destruct (_analyzeSubdirectory baseUrl listDirectory it path);
      cbn [c_movies c_tvShows c_totalFiles]; rewrite length_app; simpl; lia.
  - destruct (isVideoFile (name it)); [|lia].
    destruct (analyzeFile_movie_or_episode it) as [[E1 E2]|[E1 E2]];
      rewrite E1; try rewrite E2;
      cbn [c_movies c_tvShows c_totalFiles]; rewrite length_app; simpl; lia.
Qed.

Lemma analyze_entries_counts : forall baseUrl listDirectory path items acc,
  let acc' := fold_left (analyze_entry baseUrl listDirectory path) items acc in
  length (c_movies acc') + length (c_tvShows acc')
  = length (c_movies acc) + length (c_tvShows acc)
    + length (filter is_dir items) + length (filter video_entry items)
  /\ c_totalFiles acc' = c_totalFiles acc + length (filter video_entry items).
Proof.
  intros baseUrl listDirectory path items. induction items as [|it items IH]; intro acc.
  - cbn. lia.
  - cbn [fold_left filter]. cbv zeta in *.
    destruct (IH (analyze_entry baseUrl listDirectory path acc it)) as [H1 H2].
    destruct (analyze_entry_counts baseUrl listDirectory path acc it) as [H3 H4].
    rewrite H1, H2, H3, H4.
    destruct (is_dir it); destruct (video_entry it); cbn [length]; lia.
Qed.

(** X10: when the listing of a configured path succeeds, every directory
    and every video file of the listing gives exactly one movie or one
    show, and [statistics.files] counts the video files of the listing
    itself; when the listing fails or is null, the result carries an error
    and is empty, with all statistics 0. *)
Theorem _analyzePathWithConfig_entries : forall baseUrl listDirectory path type,
  let r := _analyzePathWithConfig baseUrl listDirectory path type in
  match listDirectory path with
  | Returned (Some items) =>
      pr_error r = false
      /\ length (pr_movies r) + length (pr_tvShows r)
         = length (filter is_dir items) + length (filter video_entry items)
      /\ ps_files (pr_statistics r) = length (filter video_entry items)
      /\ ps_movies (pr_statistics r) = length (pr_movies r)
      /\ ps_tvShows (pr_statistics r) = length (pr_tvShows r)
  | _ =>
      pr_error r = true /\ pr_movies r = [] /\ pr_tvShows r = []
      /\ pr_statistics r = PathStatistics 0 0 0 0
  end.
Proof.
  intros baseUrl listDirectory path type. cbv zeta. unfold _analyzePathWithConfig.
  destruct (listDirectory path) as [|[items|]]; try (repeat split; reflexivity).
  destruct (analyze_entries_counts baseUrl listDirectory path items (Collected [] [] 0))
    as [H1 H2].
  cbv zeta in *. cbn [pr_error pr_movies pr_tvShows pr_statistics ps_files ps_movies ps_tvShows].
  cbn [c_movies c_tvShows c_totalFiles length] in H1, H2.
  repeat split; lia.
Qed.

(** ** The episodes of a season folder *)

Lemma push_episode_paths : forall baseUrl seasonPath items acc,
  map e_path (fold_left (push_episode baseUrl seasonPath) items acc)
  = map e_path acc
    ++ map (fun it => seasonPath ++ lit "/" ++ name it) (filter video_entry items).
Proof.
  intros baseUrl seasonPath items. induction items as [|it items IH]; intro acc.
  - cbn. rewrite app_nil_r. reflexivity.
  - cbn [fold_left filter]. rewrite IH. unfold push_episode.
    assert (V : video_entry it = (negb (is_dir it) && isVideoFile (name it))%bool)
      by reflexivity.
    rewrite V. clear V.
    destruct (negb (is_dir it) && isVideoFile (name it))%bool; [|reflexivity].
    destruct (truthy_field _); rewrite map_app, <- app_assoc; reflexivity.
Qed.

Definition numbered (bound : Z) (e : episode_ref) : Prop :=
  exists z, e_episode_number e = Some (Int z) /\ (1 <= z <= bound)%Z.

Lemma numbered_weaken : forall b b' e, (b <= b')%Z -> numbered b e -> numbered b' e.
Proof. intros b b' e L (z & E & B). exists z. split; [exact E | lia]. Qed.

Lemma push_episode_numbered : forall baseUrl seasonPath items acc,
  Forall (numbered (Z.max 99 (Z.of_nat (length acc)))) acc ->
  let eps := fold_left (push_episode baseUrl seasonPath) items acc in
  Forall (numbered (Z.max 99 (Z.of_nat (length eps)))) eps.
Proof.
  intros baseUrl seasonPath items. induction items as [|it items IH]; intros acc H.
  - exact H.
  - cbn [fold_left]. cbv zeta in *. apply IH. unfold push_episode.
    destruct (negb (is_dir it) && isVideoFile (name it))%bool; [|exact H].
    destruct (truthy_field (episode (extractSeasonEpisode (name it)))) eqn:T.
    + apply Forall_app. split.
      * eapply Forall_impl; [|exact H]. intros e. apply numbered_weaken.
        rewrite length_app. simpl. lia.
      * constructor; [|constructor].
        apply truthy_field_spec in T. destruct T as (z & E & Nz).
        destruct (extractSeasonEpisode_bounds (name it)) as [_ B].
        destruct (B _ E) as (z' & E' & Bz). injection E' as <-.
        exists z. cbn [e_episode_number]. split; [exact E|]. lia.
    + apply Forall_app. split.
      * eapply Forall_impl; [|exact H]. intros e. apply numbered_weaken.
        rewrite length_app. simpl. lia.
      * constructor; [|constructor].
        eexists. cbn [e_episode_number]. split; [reflexivity|].
        rewrite length_app. simpl. lia.
Qed.

(** X11: the episodes that [_getSeasonEpisodes] answers are the video
    files of the listing, one episode per file and in the order of the
    listing; each carries a positive episode number, which is at most 99
    or, when larger, at most the number of episodes. *)
Theorem _getSeasonEpisodes_episodes : forall baseUrl items seasonPath,
  let eps := _getSeasonEpisodes baseUrl (Returned (Some items)) seasonPath in
  map e_path eps = map (fun it => seasonPath ++ lit "/" ++ name it) (filter video_entry items)
  /\ Forall (numbered (Z.max 99 (Z.of_nat (length eps)))) eps.
Proof.
  intros baseUrl items seasonPath. cbv zeta.
  rewrite _getSeasonEpisodes_listing_order. split.
  - rewrite push_episode_paths. reflexivity.
  - apply (push_episode_numbered baseUrl seasonPath items []). constructor.
Qed.

End ConfiguredPath.

(* ------------------------------------------------------------------ *)
(** ** SmartDetector: series names and merged series                   *)
(* ------------------------------------------------------------------ *)

Section MergedSeries.
Import SmartDetector.

Lemma _extractSeriesName_nonempty : forall sh, _extractSeriesName sh <> [].
Proof.
  intros sh. unfold _extractSeriesName.
  destruct (nonempty (s_title sh)) eqn:N; [|discriminate].
  destruct (clean_series_name _) as [|c l]; [|discriminate].
  destruct (s_title sh); [discriminate N | discriminate].
Qed.

(** The keys of the series map are the titles of its series. *)
Definition keyed_by_title (mp : list (jsstring * series)) : Prop :=
  Forall (fun kv => sr_title (snd kv) = fst kv) mp.

Lemma merge_into_keyed : forall seriesName sh mp,
  keyed_by_title mp -> keyed_by_title (merge_into seriesName sh mp).
Proof.
  intros seriesName sh mp H. induction H as [|[k sr] mp Hk H IH]; cbn [merge_into].
  - constructor; [reflexivity | constructor].
  - destruct (str_eqb k seriesName).
    + constructor; [exact Hk | exact H].
    + constructor; [exact Hk | exact IH].
Qed.

Lemma merge_into_has_key : forall seriesName sh mp k,
  In k (map fst (merge_into seriesName sh mp)) <-> k = seriesName \/ In k (map fst mp).
Proof.
  intros seriesName sh mp k. rewrite merge_into_keys.
  destruct (existsb (fun k' => str_eqb k' seriesName) (map fst mp)) eqn:E.
  - split; [auto|]. intros [->|H]; [|exact H].
    apply existsb_exists in E. destruct E as (k' & Hin & Hk).
    apply str_eqb_eq in Hk. subst k'. exact Hin.
  - rewrite in_app_iff. cbn [In]. split.
    + intros [H|[<-|[]]]; auto.
    + intros [->|H]; auto.
Qed.

Lemma merge_into_length : forall seriesName sh mp,
  length (merge_into seriesName sh mp) <= S (length mp).
Proof.
  intros seriesName sh mp. induction mp as [|[k sr] mp IH]; cbn [merge_into length]; [lia|].
  destruct (str_eqb k seriesName); cbn [length]; lia.
Qed.

Definition merge_loop (tvShows : list show) (mp : list (jsstring * series))
  : list (jsstring * series) :=
  fold_left (fun seriesMap sh => merge_into (_extractSeriesName sh) sh seriesMap) tvShows mp.

Lemma merge_loop_facts : forall tvShows mp,
  NoDup (map fst mp) -> keyed_by_title mp ->
  NoDup (map fst (merge_loop tvShows mp))
  /\ keyed_by_title (merge_loop tvShows mp)
  /\ (forall k, In k (map fst (merge_loop tvShows mp)) <->
                In k (map fst mp) \/ In k (map _extractSeriesName tvShows))
  /\ length (merge_loop tvShows mp) <= length mp + length tvShows.
Proof.
  induction tvShows as [|sh tvShows IH]; intros mp N K; cbn [merge_loop fold_left].
  - repeat split; auto; try lia. intros [H|[]]. exact H.
  - destruct (IH (merge_into (_extractSeriesName sh) sh mp)
                (merge_into_nodup _ _ _ N) (merge_into_keyed _ _ _ K)) as (H1 & H2 & H3 & H4).
    fold (merge_loop tvShows (merge_into (_extractSeriesName sh) sh mp)).
    split; [exact H1|]. split; [exact H2|]. split.
    + intro k. rewrite H3, merge_into_has_key. cbn [map In]. intuition.
    + pose proof (merge_into_length (_extractSeriesName sh) sh mp). cbn [length]. lia.
Qed.

Lemma merged_titles : forall mp,
  keyed_by_title mp -> map sr_title (map (fun kv => finish_series (snd kv)) mp) = map fst mp.
Proof.
  intros mp K. induction K as [|[k sr] mp Hk K IH]; [reflexivity|].
  cbn [map]. rewrite IH. cbn [finish_series sr_title snd fst] in *. rewrite Hk. reflexivity.
Qed.

(** X12: [_mergeTvSeasons] answers one series per series name: the titles
    of the merged series are pairwise distinct, they are exactly the
    series names that [_extractSeriesName] gives to the shows, none of
    them is the empty string, and there are no more series than shows. *)
Theorem _mergeTvSeasons_titles : forall tvShows,
  let merged := _mergeTvSeasons tvShows in
  NoDup (map sr_title merged)
  /\ (forall t, In t (map sr_title merged) <-> In t (map _extractSeriesName tvShows))
  /\ Forall (fun sr => sr_title sr <> []) merged
  /\ length merged <= length tvShows.
Proof.
  intros tvShows. cbv zeta. unfold _mergeTvSeasons. fold (merge_loop tvShows []).
  destruct (merge_loop_facts tvShows [] (NoDup_nil _) (Forall_nil _)) as (H1 & H2 & H3 & H4).
  assert (T : map sr_title (map (fun kv => finish_series (snd kv)) (merge_loop tvShows []))
              = map fst (merge_loop tvShows [])) by (apply merged_titles; exact H2).
  split; [rewrite T; exact H1|]. split; [|split].
  - intro t. rewrite T, H3. cbn [map In]. intuition.
  - apply Forall_forall. intros sr Hin.
    assert (Ht : In (sr_title sr) (map _extractSeriesName tvShows)).
    { apply in_map with (f := sr_title) in Hin. rewrite T in Hin.
      apply H3 in Hin. destruct Hin as [[]|Hin]. exact Hin. }
    apply in_map_iff in Ht. destruct Ht as (sh & E & _). rewrite <- E.
    apply _extractSeriesName_nonempty.
  - rewrite length_map. cbn [length] in H4. lia.
Qed.

End MergedSeries.

(* ------------------------------------------------------------------ *)
(** ** SmartDetector: removing duplicates                              *)
(* ------------------------------------------------------------------ *)

Section Deduplicate.
Import SmartDetector.

Variable A : Type.
Variable key : A -> jsstring.

Lemma seen_spec : forall k seen, existsb (str_eqb k) seen = true <-> In k seen.
Proof.
  intros k seen. rewrite existsb_exists. split.
  - intros (x & Hin & E). apply str_eqb_eq in E. subst x. exact Hin.
  - intro Hin. exists k. split; [exact Hin | apply str_eqb_refl].
Qed.

Lemma deduplicate_from_facts : forall items seen,
  let kept := deduplicate_from key seen items in
  NoDup (map key kept)
  /\ (forall x, In x kept -> In x items /\ ~ In (key x) seen)
  /\ (forall k, In k (map key items) -> In k seen \/ In k (map key kept)).
Proof.
  induction items as [|x items IH]; intro seen; cbv zeta.
  - cbn. repeat split; try constructor; try contradiction.
  - cbn [deduplicate_from]. destruct (existsb (str_eqb (key x)) seen) eqn:E.
    + destruct (IH seen) as (H1 & H2 & H3). split; [exact H1|]. split.
      * intros y Hy. destruct (H2 y Hy). split; [right|]; assumption.
      * intros k [<-|Hk]; [left; apply seen_spec; exact E | apply H3; exact Hk].
    + destruct (IH (key x :: seen)) as (H1 & H2 & H3).
      assert (Nx : ~ In (key x) seen).
      { intro Hin. apply seen_spec in Hin. congruence. }
      split; [|split].
      * cbn [map]. constructor; [|exact H1]. intro Hin.
        apply in_map_iff in Hin. destruct Hin as (y & Ey & Hy).
        destruct (H2 y Hy) as [_ Ny]. apply Ny. left. symmetry. exact Ey.
      * intros y [<-|Hy]; [split; [left; reflexivity | exact Nx]|].
        destruct (H2 y Hy) as [Hin Ny]. split; [right; exact Hin|].
        intro Hs. apply Ny. right. exact Hs.
      * intros k [<-|Hk]; [right; left; reflexivity|].
        destruct (H3 k Hk) as [[<-|Hs]|Hk']; [right; left; reflexivity | left; exact Hs|].
        right. right. exact Hk'.
Qed.

Lemma deduplicate_from_first : forall pre x post seen,
  ~ In (key x) seen -> ~ In (key x) (map key pre) ->
  In x (deduplicate_from key seen (pre ++ x :: post)).
Proof.
  induction pre as [|y pre IH]; intros x post seen Ns Np; cbn [app deduplicate_from].
  - destruct (existsb (str_eqb (key x)) seen) eqn:E; [|left; reflexivity].
    apply seen_spec in E. contradiction.
  - cbn [map In] in Np.
    destruct (existsb (str_eqb (key y)) seen).
    + apply IH; [exact Ns | intro H; apply Np; right; exact H].
    + right. apply IH.
      * intros [E|H]; [apply Np; left; exact E | exact (Ns H)].
      * intro H. apply Np. right. exact H.
Qed.

Lemma deduplicate_from_fixed : forall items seen,
  NoDup (map key items) -> (forall x, In x items -> ~ In (key x) seen) ->
  deduplicate_from key seen items = items.
Proof.
  induction items as [|x items IH]; intros seen N D; [reflexivity|].
  cbn [deduplicate_from]. cbn [map] in N. inversion N as [|? ? Nx N']; subst.
  destruct (existsb (str_eqb (key x)) seen) eqn:E.
  - apply seen_spec in E. exfalso. apply (D x); [left; reflexivity | exact E].
  - f_equal. apply IH; [exact N'|].
    intros y Hy [E'|Hs].
    + apply Nx. rewrite E'. apply in_map. exact Hy.
    + apply (D y); [right; exact Hy | exact Hs].
Qed.

End Deduplicate.

(** X13: [_deduplicateContent] keeps the first item of every key
    [title_path] and nothing else: the keys of the kept items are
    pairwise distinct, they are the keys of the given items, an item with
    no earlier item of its key is kept, and a list that was deduplicated
    is left as it is.  So the movies and the shows that [_mergeResults]
    answers have pairwise distinct keys. *)
Theorem _deduplicateContent_first_of_each_key :
  (forall (A : Type) (key : A -> jsstring) (items : list A),
     let kept := SmartDetector._deduplicateContent key items in
     NoDup (map key kept)
     /\ (forall k, In k (map key kept) <-> In k (map key items))
     /\ (forall pre x post,
           items = pre ++ x :: post -> ~ In (key x) (map key pre) -> In x kept)
     /\ SmartDetector._deduplicateContent key kept = kept)
  /\ (forall pathResults,
        NoDup (map SmartDetector.movie_key (fst (SmartDetector._mergeResults pathResults)))
        /\ NoDup (map SmartDetector.show_key (snd (SmartDetector._mergeResults pathResults)))).
Proof.
  assert (G : forall (A : Type) (key : A -> jsstring) (items : list A),
            let kept := SmartDetector._deduplicateContent key items in
            NoDup (map key kept)
            /\ (forall k, In k (map key kept) <-> In k (map key items))
            /\ (forall pre x post,
                  items = pre ++ x :: post -> ~ In (key x) (map key pre) -> In x kept)
            /\ SmartDetector._deduplicateContent key kept = kept).
  { intros A key items. cbv zeta. unfold SmartDetector._deduplicateContent.
    destruct (deduplicate_from_facts A key items []) as (H1 & H2 & H3). cbv zeta in *.
    split; [exact H1|]. split; [|split].
    - intro k. split.
      + intro Hk. apply in_map_iff in Hk. destruct Hk as (x & <- & Hx).
        apply in_map. apply H2. exact Hx.
      + intro Hk. destruct (H3 k Hk) as [[]|H]. exact H.
    - intros pre x post -> Np. apply deduplicate_from_first; [intros [] | exact Np].
    - apply deduplicate_from_fixed; [exact H1 | intros x _ []]. }
  split; [exact G|].
  intro pathResults. unfold SmartDetector._mergeResults. cbn [fst snd].
  split; apply G.
Qed.

Lemma _deduplicateContent_first_witness :
  let a := SmartDetector.Movie (lit "Alien") (lit "/m/Alien") [] in
  let b := SmartDetector.Movie (lit "Brazil") (lit "/m/Brazil") [] in
  ~ In (SmartDetector.movie_key b) (map SmartDetector.movie_key [a])
  /\ In b (SmartDetector._deduplicateContent SmartDetector.movie_key [a; b; a]).
Proof.
  cbv zeta.
  assert (N : ~ In (SmartDetector.movie_key
                      (SmartDetector.Movie (lit "Brazil") (lit "/m/Brazil") []))
                (map SmartDetector.movie_key
                   [SmartDetector.Movie (lit "Alien") (lit "/m/Alien") []])).
  { intros [E|[]]. discriminate E. }
  split; [exact N|].
  exact (proj1 (proj2 (proj2 (proj1 _deduplicateContent_first_of_each_key _
                                 SmartDetector.movie_key _)))
           [SmartDetector.Movie (lit "Alien") (lit "/m/Alien") []]
           (SmartDetector.Movie (lit "Brazil") (lit "/m/Brazil") [])
           [SmartDetector.Movie (lit "Alien") (lit "/m/Alien") []] eq_refl N).
Defined.

(* ------------------------------------------------------------------ *)
(** ** SmartDetector: the summary of a detection                       *)
(* ------------------------------------------------------------------ *)

Section Detection.
Import ContentDetector.
Import AlistAPI.
Import SmartDetector.

Lemma fold_sum_length : forall {A B} (f : A -> list B) (l : list A) n,
  fold_left (fun total r => total + length (f r)) l n = n + length (flat_map f l).
Proof.
  intros A B f l. induction l as [|x l IH]; intro n; cbn [fold_left flat_map].
  - cbn. lia.
  - rewrite IH, length_app. lia.
Qed.

Lemma flat_map_without : forall {A B} (f : A -> list B) pre x post,
  f x = [] -> flat_map f (pre ++ x :: post) = flat_map f (pre ++ post).
Proof.
  intros A B f pre x post E. rewrite !flat_map_app. cbn [flat_map]. rewrite E. reflexivity.
Qed.

(** X14: in the result of [detectAndAnalyze], [totalPaths], [totalMovies]
    and [totalTvShows] are the numbers of path results, of organized
    movies and of organized (merged) shows.  A configured path whose
    listing is rejected or null adds nothing: the organized movies and
    shows, and the totals, are those of the detection without that
    path. *)
Theorem detectAndAnalyze_summary : forall baseUrl listDirectory,
  (forall paths,
     let d := detectAndAnalyze baseUrl listDirectory paths in
     totalPaths d = length (d_paths d)
     /\ totalMovies d = length (d_movies d)
     /\ totalTvShows d = length (d_tvShows d))
  /\ (forall pre bad post,
        listDirectory (fst bad) = Rejected \/ listDirectory (fst bad) = Returned None ->
        let d := detectAndAnalyze baseUrl listDirectory (pre ++ bad :: post) in
        let d' := detectAndAnalyze baseUrl listDirectory (pre ++ post) in
        d_movies d = d_movies d' /\ d_tvShows d = d_tvShows d'
        /\ totalMovies d = totalMovies d' /\ totalTvShows d = totalTvShows d').
Proof.
  intros baseUrl listDirectory.
  assert (T : forall paths,
            let d := detectAndAnalyze baseUrl listDirectory paths in
            totalPaths d = length (d_paths d)
            /\ totalMovies d = length (d_movies d)
            /\ totalTvShows d = length (d_tvShows d)).
  { intro paths. cbv zeta. unfold detectAndAnalyze.
    cbn [totalPaths d_paths totalMovies d_movies totalTvShows d_tvShows].
    rewrite length_map, !fold_sum_length. split; [reflexivity|]. split; [reflexivity|].
    destruct (0 <? length _) eqn:E; [reflexivity|].
    apply Nat.ltb_ge in E. cbn [length]. lia. }
  split; [exact T|].
  intros pre bad post Hbad. cbv zeta.
  set (F := fun pathConfig : jsstring * jsstring =>
              _analyzePathWithConfig baseUrl listDirectory (fst pathConfig) (snd pathConfig)).
  assert (EM : pr_movies (F bad) = [] /\ pr_tvShows (F bad) = []).
  { unfold F, _analyzePathWithConfig. destruct Hbad as [-> | ->]; split; reflexivity. }
  destruct EM as [EM ET].
  assert (M : d_movies (detectAndAnalyze baseUrl listDirectory (pre ++ bad :: post))
              = d_movies (detectAndAnalyze baseUrl listDirectory (pre ++ post))).
  { unfold detectAndAnalyze. cbn [d_movies]. fold F.
    rewrite !map_app. cbn [map]. apply flat_map_without. exact EM. }
  assert (S : flat_map pr_tvShows (map F (pre ++ bad :: post))
              = flat_map pr_tvShows (map F (pre ++ post))).
  { rewrite !map_app. cbn [map]. apply flat_map_without. exact ET. }
  assert (V : d_tvShows (detectAndAnalyze baseUrl listDirectory (pre ++ bad :: post))
              = d_tvShows (detectAndAnalyze baseUrl listDirectory (pre ++ post))).
  { unfold detectAndAnalyze. cbn [d_tvShows]. fold F. rewrite S. reflexivity. }
  split; [exact M|]. split; [exact V|].
  destruct (T (pre ++ bad :: post)) as (_ & T1 & T2).
  destruct (T (pre ++ post)) as (_ & T3 & T4).
  cbv zeta in *. rewrite T1, T2, T3, T4, M, V. split; reflexivity.
Qed.

Lemma detectAndAnalyze_summary_witness :
  let listDirectory := fun path : jsstring =>
    if str_eqb path (lit "/movies") then Returned (Some [Item (lit "Alien.mkv") false])
    else @Rejected item in
  let d := detectAndAnalyze (lit "http://alist") listDirectory
             [(lit "/gone", lit "tv"); (lit "/movies", lit "movie")] in
  listDirectory (lit "/gone") = Rejected
  /\ map mv_title (d_movies d) = [lit "Alien"]
  /\ totalMovies d = 1.
Proof.
  cbv zeta.
  set (listDirectory := fun path : jsstring =>
         if str_eqb path (lit "/movies") then Returned (Some [Item (lit "Alien.mkv") false])
         else @Rejected item).
  assert (R : listDirectory (lit "/gone") = Rejected) by reflexivity.
  split; [exact R|].
  destruct (proj2 (detectAndAnalyze_summary (lit "http://alist") listDirectory)
              [] (lit "/gone", lit "tv") [(lit "/movies", lit "movie")] (or_introl R))
    as (M & _ & TM & _).
  cbv zeta in M, TM. cbn [app] in M, TM.
  rewrite M, TM. split; vm_compute; reflexivity.
Defined.

End Detection.

(* ------------------------------------------------------------------ *)
(** ** SmartDetector: enrichment with the external database            *)
(* ------------------------------------------------------------------ *)

Section Enrichment.
Import SmartDetector.
Import Generator.
Import SmartEnrichment.

Lemma match_char : forall cs pv c tl,
  match_here (Pattern false (Chr cs)) pv (c :: tl) =
  if cset_test false cs c then Some (MState (Some c) tl []) else None.
Proof. reflexivity. Qed.

Lemma replace_all_char_from : forall cs by_ s pv,
  replace_all_from (Pattern false (Chr cs)) by_ pv s 0
  = flat_map (fun c => if cset_test false cs c then by_ else [c]) s.
Proof.
  intros cs by_ s. induction s as [|c tl IH]; intro pv; [reflexivity|].
  cbn [replace_all_from flat_map]. rewrite match_char.
  destruct (cset_test false cs c).
  - cbn [rest]. replace (length (c :: tl) - length tl) with 1 by (cbn [length]; lia).
    rewrite IH. reflexivity.
  - rewrite IH. reflexivity.
Qed.

Definition is_alnum (c : char) : bool := (is_lower c || is_upper c || is_digit c)%bool.

(** The character that [title_id] writes for a character of the title. *)
Definition id_char (c : char) : char := if is_alnum c then c else 95%N.

Lemma title_id_map : forall prefix title,
  title_id prefix title = lit prefix ++ map id_char title.
Proof.
  intros prefix title. unfold title_id, replace_all, re_not_alnum.
  rewrite replace_all_char_from.
  f_equal. induction title as [|c title IH]; [reflexivity|].
  cbn [flat_map map]. rewrite IH. unfold id_char, is_alnum.
  cbn [cset_test existsb catom_test].
  change (in_range (ch "a") (ch "z") c) with (is_lower c).
  change (in_range (ch "A") (ch "Z") c) with (is_upper c).
  change (in_range (ch "0") (ch "9") c) with (is_digit c).
  rewrite orb_false_r.
  destruct (is_lower c || (is_upper c || is_digit c))%bool eqn:E;
    rewrite <- orb_assoc, E; reflexivity.
Qed.

(** X16: the id that the enrichment builds from a title when the database
    gives nothing is the prefix followed by the title in which every code
    unit other than an ASCII letter or digit is replaced by an underscore.
    It is as long as the prefix and the title together, and two titles of
    the same length without any ASCII letter or digit get the same id. *)
Theorem title_id_shape : forall prefix title,
  title_id prefix title = lit prefix ++ map id_char title
  /\ length (title_id prefix title) = length (lit prefix) + length title
  /\ (forall title',
        length title' = length title ->
        Forall (fun c => is_alnum c = false) title ->
        Forall (fun c => is_alnum c = false) title' ->
        title_id prefix title' = title_id prefix title).
Proof.
  intros prefix title. split; [apply title_id_map|]. split.
  - rewrite title_id_map, length_app, length_map. reflexivity.
  - intros title' L F F'. rewrite !title_id_map. f_equal.
    revert title' L F'. induction F as [|c title Hc F IH]; intros [|c' title'] L F';
      try discriminate L; [reflexivity|].
    inversion F' as [|? ? Hc' F'']; subst. cbn [map]. unfold id_char at 1 3.
    rewrite Hc, Hc'. f_equal. apply IH; [|exact F'']. simpl in L. lia.
Qed.

Lemma title_id_shape_witness :
  let t1 := [27969; 28010; 22320; 29699]%N in
  let t2 := [19977; 20307; 31532; 19968]%N in
  length t2 = length t1
  /\ title_id "movie_" t1 = lit "movie_____"
  /\ title_id "movie_" t2 = title_id "movie_" t1.
Proof.
  cbv zeta. split; [reflexivity|]. split; [vm_compute; reflexivity|].
  apply (proj2 (proj2 (title_id_shape "movie_" [27969; 28010; 22320; 29699]%N))).
  - reflexivity.
  - repeat constructor.
  - repeat constructor.
Defined.

Section Lookups.
Variable searchMovie : jsstring -> lookup_result.
Variable searchTv : jsstring -> lookup_result.

Definition enriched_movie (mv : movie) (c : content) : Prop :=
  starts_with (lit "movie_") (id c) = true
  /\ media_type c = Some (lit "movie")
  /\ directory_type c = Some (lit "movie")
  /\ files c = Some (mv_files mv).

Definition enriched_tv (sr : series) (c : content) : Prop :=
  starts_with (lit "tv_") (id c) = true
  /\ media_type c = Some (lit "tv")
  /\ directory_type c = Some (lit "tv")
  /\ (exists l, seasons c = Some l
                /\ map cs_episodes l = map (fun f => Some (sf_episodes f)) (sr_seasons sr))
  /\ (episode_count c = None \/ episode_count c = Some (total_episodes (sr_seasons sr))).

Lemma enrich_movie_shape : forall mv, enriched_movie mv (enrich_movie searchMovie mv).
Proof.
  intro mv. unfold enriched_movie, enrich_movie.
  destruct (searchMovie (mv_title mv)); cbn [id media_type directory_type files];
    unfold title_id; rewrite starts_with_prefix; repeat split; reflexivity.
Qed.

Lemma enrich_tv_shape : forall sr, enriched_tv sr (enrich_tv searchTv sr).
Proof.
  intro sr. unfold enriched_tv, enrich_tv.
  destruct (searchTv (sr_title sr));
    cbn [id media_type directory_type seasons episode_count];
    unfold title_id; rewrite starts_with_prefix;
    (split; [reflexivity|]); (split; [reflexivity|]); (split; [reflexivity|]);
    (split; [eexists; split; [reflexivity|]; rewrite map_map; reflexivity|]); auto.
Qed.

Lemma Forall2_map_r : forall {A B} (R : A -> B -> Prop) (f : A -> B) l,
  (forall x, R x (f x)) -> Forall2 R l (map f l).
Proof. intros A B R f l H. induction l; constructor; auto. Qed.

(** X15: whatever the database answers for each title (an object of any
    media type, nothing, or an error), [_enrichWithTmdbData] leaves one
    entry per movie and one per series, in the same order.  A movie entry
    has an id that starts with [movie_], the media and directory type
    [movie] and the files of the detected movie; a series entry has an id
    that starts with [tv_], the media and directory type [tv], the
    episodes of the same seasons in the same order and, when it has an
    episode count, the number of those episodes. *)
Theorem _enrichWithTmdbData_shape : forall movies tvShows,
  Forall2 enriched_movie movies (fst (_enrichWithTmdbData searchMovie searchTv movies tvShows))
  /\ Forall2 enriched_tv tvShows (snd (_enrichWithTmdbData searchMovie searchTv movies tvShows)).
Proof.
  intros movies tvShows. unfold _enrichWithTmdbData. cbn [fst snd]. split.
  - apply Forall2_map_r. apply enrich_movie_shape.
  - apply Forall2_map_r. apply enrich_tv_shape.
Qed.

End Lookups.

End Enrichment.

(* ------------------------------------------------------------------ *)
(** ** The catalogue: ids and the two final lists                      *)
(* ------------------------------------------------------------------ *)

Section Catalogue.
Import SmartDetector.
Import Generator.

Variable base_url : jsstring.
Variable getMediaDetails : jsstring -> jsstring -> lookup_result.
Variable placeholder : nat -> jsstring.

(** The entries of [movieMap]: the key of an entry is its id. *)
Definition keyed_by_id (mp : list (jsstring * content)) : Prop :=
  NoDup (map fst mp) /\ Forall (fun kv => id (snd kv) = fst kv) mp.

Lemma map_set_keyed : forall k v mp,
  keyed_by_id mp -> id v = k -> keyed_by_id (map_set k v mp).
Proof.
  intros k v mp [N F] Hv. induction mp as [|[k' v'] mp IH]; cbn [map_set].
  - split; [repeat constructor; intros [] | repeat constructor; exact Hv].
  - cbn [map fst] in N. inversion N as [|? ? Nk N']; subst.
    inversion F as [|? ? Fk F']; subst.
    destruct (str_eqb k' (id v)) eqn:E.
    + apply str_eqb_eq in E. subst k'. split.
      * cbn [map fst]. constructor; assumption.
      * constructor; [reflexivity | exact F'].
    + destruct (IH N' F') as [N2 F2]. split.
      * cbn [map fst]. constructor; [|exact N2].
        intro Hin. apply in_map_iff in Hin. destruct Hin as ([k2 v2] & E2 & Hin).
        cbn [fst] in E2. subst k2.
        assert (K : In k' (map fst (map_set (id v) v mp)))
          by (apply in_map_iff; exists (k', v2); split; [reflexivity | exact Hin]).
        clear - K Nk E. induction mp as [|[k3 v3] mp IH]; cbn [map_set map fst In] in K.
        -- destruct K as [K|[]]. subst k'. rewrite str_eqb_refl in E. discriminate E.
        -- destruct (str_eqb k3 (id v)) eqn:E3; cbn [map fst In] in K.
           ++ destruct K as [K|K].
              ** subst k'. rewrite str_eqb_refl in E. discriminate E.
              ** apply Nk. right. exact K.
           ++ destruct K as [K|K].
              ** apply Nk. left. exact K.
              ** apply IH; [|exact K]. intro H. apply Nk. right. exact H.
      * constructor; [exact Fk | exact F2].
Qed.

Lemma map_get_keyed : forall k v mp,
  keyed_by_id mp -> map_get k mp = Some v -> id v = k.
Proof.
  intros k v mp [_ F] G. induction F as [|[k' v'] mp Fk F IH]; [discriminate|].
  cbn [map_get] in G. destruct (str_eqb k' k) eqn:E.
  - injection G as <-. apply str_eqb_eq in E. subst k'. exact Fk.
  - apply IH. exact G.
Qed.

Lemma add_movie_keyed : forall mp n movie,
  keyed_by_id mp -> keyed_by_id (add_movie base_url getMediaDetails placeholder mp n movie).
Proof.
  intros mp n movie K. unfold add_movie.
  destruct (getMediaDetails (dm_title movie) (lit "movie")) as [| |info]; [exact K| |].
  - apply map_set_keyed; [exact K | reflexivity].
  - destruct (map_get (N_to_str (t_id info)) mp) as [existing|] eqn:G.
    + destruct (files existing); [|exact K].
      apply map_set_keyed; [exact K|]. cbn [id]. apply (map_get_keyed _ _ mp K G).
    + apply map_set_keyed; [exact K | reflexivity].
Qed.

Lemma add_tv_keyed : forall mp n tvShow,
  keyed_by_id mp -> keyed_by_id (add_tv base_url getMediaDetails placeholder mp n tvShow).
Proof.
  intros mp n tvShow K. unfold add_tv.
  destruct (getMediaDetails (dt_title tvShow) (lit "tv")) as [| |info]; [exact K| |];
    apply map_set_keyed; try exact K; reflexivity.
Qed.

(** X18: the entries of [allContent] have pairwise distinct ids: each is
    stored in the map under its own id, so one database id gives one movie
    entry however many folders hold that movie. *)
Theorem allContent_ids_distinct : forall detectedMovies detectedTvShows,
  NoDup (map id (allContent base_url getMediaDetails placeholder detectedMovies detectedTvShows)).
Proof.
  intros detectedMovies detectedTvShows. unfold allContent.
  set (mp := fold_numbered _ detectedTvShows _ _).
  assert (K : keyed_by_id mp).
  { apply fold_numbered_inv; [intros; apply add_tv_keyed; assumption|].
    apply fold_numbered_inv; [intros; apply add_movie_keyed; assumption|].
    split; constructor. }
  destruct K as [N F].
  replace (map id (map snd mp)) with (map fst mp); [exact N|].
  clear N. induction F as [|[k v] l Hk F IH]; [reflexivity|].
  cbn [map fst snd] in *. rewrite IH, Hk. reflexivity.
Qed.

Lemma correct_movie_id : forall c, starts_with (lit "movie_") (id (correct_movie c)) = true.
Proof.
  intro c. unfold correct_movie. cbn [id].
  destruct (starts_with (lit "movie_") (id c)) eqn:E; [exact E | apply starts_with_prefix].
Qed.

Lemma correct_tv_id : forall c, starts_with (lit "tv_") (id (correct_tv c)) = true.
Proof.
  intro c. unfold correct_tv. cbn [id].
  destruct (starts_with (lit "tv_") (id c)) eqn:E; [exact E | apply starts_with_prefix].
Qed.

(** X17: every id in the final movie list starts with [movie_] and every
    id in the final television list starts with [tv_].  Each entry of
    [allContent] is, corrected, in at least one of the two lists: none is
    lost. *)
Theorem final_lists : forall detectedMovies detectedTvShows,
  let all := allContent base_url getMediaDetails placeholder detectedMovies detectedTvShows in
  Forall (fun r => starts_with (lit "movie_") (id r) = true) (finalCorrectedMovies all)
  /\ Forall (fun r => starts_with (lit "tv_") (id r) = true) (finalCorrectedTvShows all)
  /\ (forall c, In c all ->
        In (correct_movie c) (finalCorrectedMovies all)
        \/ In (correct_tv c) (finalCorrectedTvShows all)).
Proof.
  intros detectedMovies detectedTvShows. cbv zeta.
  set (all := allContent _ _ _ _ _).
  pose proof (allContent_built base_url getMediaDetails placeholder detectedMovies detectedTvShows)
    as B. fold all in B.
  unfold finalCorrectedMovies, finalCorrectedTvShows, finalMovies, finalTvShows.
  split; [|split].
  - apply Forall_forall. intros r Hr. apply in_map_iff in Hr.
    destruct Hr as (c & <- & _). apply correct_movie_id.
  - apply Forall_forall. intros r Hr. apply in_map_iff in Hr.
    destruct Hr as (c & <- & _). apply correct_tv_id.
  - intros c Hc. rewrite Forall_forall in B. destruct (B c Hc) as [[D _]|[D _]].
    + left. apply in_map. apply filter_In. split; [exact Hc|].
      rewrite D. cbn [is_str]. rewrite str_eqb_refl. apply orb_true_r.
    + right. apply in_map. apply filter_In. split; [exact Hc|].
      rewrite D. cbn [is_str]. rewrite str_eqb_refl. apply orb_true_r.
Qed.

End Catalogue.

(* ------------------------------------------------------------------ *)
(** ** The catalogue: aggregation by title                             *)
(* ------------------------------------------------------------------ *)

Section Aggregation.
Import Generator.

Lemma group_push_new : forall key item groups,
  ~ In key (map fst groups) -> group_push key item groups = groups ++ [(key, [item])].
Proof.
  intros key item groups. induction groups as [|[k items] groups IH]; intro N; [reflexivity|].
  cbn [group_push]. destruct (str_eqb k key) eqn:E.
  - apply str_eqb_eq in E. subst k. exfalso. apply N. left. reflexivity.
  - cbn [app]. f_equal. apply IH. intro H. apply N. right. exact H.
Qed.

Lemma group_push_keys : forall key item groups k,
  In k (map fst (group_push key item groups)) <-> k = key \/ In k (map fst groups).
Proof.
  intros key item groups k. induction groups as [|[k' items] groups IH]; cbn [group_push].
  - cbn. intuition.
  - destruct (str_eqb k' key) eqn:E.
    + apply str_eqb_eq in E. subst k'. cbn [map fst In]. intuition.
    + cbn [map fst In]. rewrite IH. intuition.
Qed.

Lemma group_push_nodup : forall key item groups,
  NoDup (map fst groups) -> NoDup (map fst (group_push key item groups)).
Proof.
  intros key item groups. induction groups as [|[k items] groups IH]; intro N; cbn [group_push].
  - repeat constructor. intros [].
  - cbn [map fst] in N. inversion N as [|? ? Nk N']; subst.
    destruct (str_eqb k key) eqn:E; cbn [map fst].
    + constructor; assumption.
    + constructor; [|apply IH; exact N'].
      intro H. apply group_push_keys in H. destruct H as [->|H]; [|exact (Nk H)].
      rewrite str_eqb_refl in E. discriminate E.
Qed.

Lemma list_sum_cons : forall x (l : list nat), list_sum (x :: l) = x + list_sum l.
Proof. reflexivity. Qed.

Lemma group_push_total : forall key item groups,
  list_sum (map (fun g => length (snd g)) (group_push key item groups))
  = S (list_sum (map (fun g => length (snd g)) groups)).
Proof.
  intros key item groups. induction groups as [|[k items] groups IH]; cbn [group_push].
  - reflexivity.
  - destruct (str_eqb k key); cbn [map snd]; rewrite !list_sum_cons.
    + rewrite length_app. cbn [length]. lia.
    + rewrite IH. lia.
Qed.

Lemma grouped_facts : forall contentList groups,
  NoDup (map fst groups) ->
  let grouped := fold_left (fun groups item => group_push (groupKey item) item groups)
                   contentList groups in
  NoDup (map fst grouped)
  /\ list_sum (map (fun g => length (snd g)) grouped)
     = list_sum (map (fun g => length (snd g)) groups) + length contentList
  /\ (forall k, In k (map fst grouped) <-> In k (map fst groups) \/ In k (map groupKey contentList)).
Proof.
  induction contentList as [|c l IH]; intros groups N; cbv zeta; cbn [fold_left].
  - split; [exact N|]. split; [cbn; lia|]. intro k. cbn. intuition.
  - destruct (IH (group_push (groupKey c) c groups) (group_push_nodup _ _ _ N))
      as (H1 & H2 & H3). cbv zeta in *.
    split; [exact H1|]. split.
    + rewrite H2, group_push_total. cbn [length]. lia.
    + intro k. rewrite H3, group_push_keys. cbn [map In]. intuition.
Qed.

Lemma grouped_members : forall contentList k items,
  In (k, items) (groupedByTitle contentList) ->
  items = members k contentList /\ items <> [].
Proof.
  intros contentList k items Hin.
  destruct (grouped_facts contentList [] (NoDup_nil _)) as (N & _ & _). cbv zeta in N.
  fold (groupedByTitle contentList) in N.
  pose proof (map_get_nodup k items _ N Hin) as G.
  rewrite grouped_get in G.
  destruct (members k contentList) as [|m ms]; [discriminate|].
  injection G as <-. split; [reflexivity | discriminate].
Qed.

Lemma selectMainVersion_member : forall items mainVersion,
  selectMainVersion items = Some mainVersion -> In mainVersion items.
Proof.
  intros items mainVersion. unfold selectMainVersion.
  destruct (filter (fun v => has_elements (files v)) items) as [|v l] eqn:F.
  - destruct (filter (fun v => has_elements (seasons v)) items) as [|v l] eqn:S.
    + destruct items as [|x items]; [discriminate|]. intro H. injection H as <-. left. reflexivity.
    + intro H. injection H as <-.
      assert (I : In v (filter (fun v => has_elements (seasons v)) items))
        by (rewrite S; left; reflexivity).
      apply filter_In in I. apply I.
  - intro H. injection H as <-.
    assert (I : In v (filter (fun v => has_elements (files v)) items))
      by (rewrite F; left; reflexivity).
    apply filter_In in I. apply I.
Qed.

Lemma selectMainVersion_some : forall x items, exists mainVersion,
  selectMainVersion (x :: items) = Some mainVersion.
Proof.
  intros x items. unfold selectMainVersion.
  destruct (filter (fun v => has_elements (files v)) (x :: items)); [|eauto].
  destruct (filter (fun v => has_elements (seasons v)) (x :: items)); [|eauto].
  cbn. eauto.
Qed.

(** The number of catalogue items that an entry stands for. *)
Definition entry_count (e : catalog_entry) : nat :=
  match ce_aggregated_count e with Some n => n | None => 1 end.

Definition entry_key (e : catalog_entry) : jsstring := groupKey (ce_content e).

Lemma aggregate_group_entry : forall k items contentList,
  items = members k contentList -> items <> [] ->
  exists e, aggregate_group items = Some e
            /\ entry_count e = length items
            /\ entry_key e = k
            /\ In (ce_content e) contentList.
Proof.
  intros k items contentList E Ne.
  assert (M : forall c, In c items -> groupKey c = k /\ In c contentList).
  { intros c Hc. rewrite E in Hc. apply filter_In in Hc. destruct Hc as [Hin Hk].
    apply str_eqb_eq in Hk. auto. }
  destruct items as [|x [|y items]]; [contradiction| |].
  - exists (CatalogEntry x None None None). cbn [aggregate_group].
    destruct (M x (or_introl eq_refl)) as [Hk Hin].
    repeat split; assumption.
  - destruct (selectMainVersion_some x (y :: items)) as (mainVersion & S).
    pose proof (selectMainVersion_member _ _ S) as Hm.
    destruct (M mainVersion Hm) as [Hk Hin].
    cbn [aggregate_group]. rewrite S. eexists. split; [reflexivity|].
    repeat split; assumption.
Qed.

Lemma aggregate_groups : forall contentList groups,
  (forall k items, In (k, items) groups -> items = members k contentList /\ items <> []) ->
  let result := keep_some (map (fun g => aggregate_group (snd g)) groups) in
  list_sum (map entry_count result) = list_sum (map (fun g => length (snd g)) groups)
  /\ map entry_key result = map fst groups
  /\ Forall (fun e => In (ce_content e) contentList) result.
Proof.
  intros contentList groups. induction groups as [|[k items] groups IH]; intro H; cbv zeta.
  - repeat split; constructor.
  - destruct (H k items (or_introl eq_refl)) as [E Ne].
    destruct (aggregate_group_entry k items contentList E Ne) as (e & A & C & K & I).
    destruct (IH (fun k' items' Hin => H k' items' (or_intror Hin))) as (H1 & H2 & H3).
    cbv zeta in *. cbn [map snd keep_some]. rewrite A. cbn [keep_some map fst snd].
    rewrite !list_sum_cons, H1, H2, C, K. repeat split. constructor; assumption.
Qed.

Lemma grouped_singletons : forall contentList groups,
  NoDup (map fst groups ++ map groupKey contentList) ->
  fold_left (fun groups item => group_push (groupKey item) item groups) contentList groups
  = groups ++ map (fun c => (groupKey c, [c])) contentList.
Proof.
  induction contentList as [|c l IH]; intros groups N; cbn [fold_left map].
  - rewrite app_nil_r. reflexivity.
  - assert (Nc : ~ In (groupKey c) (map fst groups)).
    { cbn [map] in N. apply NoDup_remove_2 in N. intro H. apply N.
      apply in_or_app. left. exact H. }
    rewrite (group_push_new _ _ _ Nc). rewrite IH.
    + rewrite <- app_assoc. reflexivity.
    + rewrite map_app. cbn [map fst]. rewrite <- app_assoc. exact N.
Qed.

(** X19: [aggregateSameNameContent] answers one entry per key
    [title_mediaType], in the order in which the keys first occur; the
    content of each entry is one of the given items; counting an entry
    that is not aggregated as 1 and an aggregated one as its
    [aggregated_count], the counts add up to the number of given items.
    When the keys of the given items are pairwise distinct, every item
    comes back as it is, in the same order. *)
Theorem aggregateSameNameContent_entries : forall contentList,
  let result := aggregateSameNameContent contentList in
  NoDup (map entry_key result)
  /\ (forall k, In k (map entry_key result) <-> In k (map groupKey contentList))
  /\ Forall (fun e => In (ce_content e) contentList) result
  /\ list_sum (map entry_count result) = length contentList
  /\ (NoDup (map groupKey contentList) ->
      result = map (fun c => CatalogEntry c None None None) contentList).
Proof.
  intros contentList. cbv zeta. unfold aggregateSameNameContent.
  destruct (grouped_facts contentList [] (NoDup_nil _)) as (N & T & K). cbv zeta in *.
  fold (groupedByTitle contentList) in *.
  destruct (aggregate_groups contentList (groupedByTitle contentList)
              (grouped_members contentList)) as (H1 & H2 & H3). cbv zeta in *.
  split; [rewrite H2; exact N|]. split; [|split; [exact H3|split]].
  - intro k. rewrite H2, K. cbn [map In]. intuition.
  - rewrite H1, T. reflexivity.
  - intro D. unfold groupedByTitle. rewrite (grouped_singletons contentList [] D).
    cbn [app]. clear. induction contentList as [|c l IH]; [reflexivity|].
    cbn [map snd aggregate_group keep_some]. rewrite IH. reflexivity.
Qed.

Lemma aggregateSameNameContent_entries_witness :
  let a := Content (lit "movie_1") (Some (lit "Alien")) (Some (lit "movie")) None None
             None None None None None None in
  let b := Content (lit "movie_2") (Some (lit "Brazil")) (Some (lit "movie")) None None
             None None None None None None in
  NoDup (map groupKey [a; b])
  /\ aggregateSameNameContent [a; b]
     = [CatalogEntry a None None None; CatalogEntry b None None None].
Proof.
  cbv zeta.
  assert (D : NoDup (map groupKey
                       [Content (lit "movie_1") (Some (lit "Alien")) (Some (lit "movie")) None None
                          None None None None None None;
                        Content (lit "movie_2") (Some (lit "Brazil")) (Some (lit "movie")) None None
                          None None None None None None])).
  { constructor; [intros [E|[]]; discriminate E|]. constructor; [intros []|constructor]. }
  split; [exact D|].
  exact (proj2 (proj2 (proj2 (proj2 (aggregateSameNameContent_entries _)))) D).
Defined.

End Aggregation.

(* ------------------------------------------------------------------ *)
(** ** TMDbAPI: cleaned text                                           *)
(* ------------------------------------------------------------------ *)

Section CleanText.
Import TMDbAPI.

Definition is_control (c : char) : bool :=
  (in_range 0%N 31%N c || in_range 127%N 159%N c)%bool.
Definition is_bom (c : char) : bool := N.eqb c 65279%N.
Definition is_line_separator (c : char) : bool := (N.eqb c 8232%N || N.eqb c 8233%N)%bool.

(** A code unit that [_cleanText] removes or replaces. *)
Definition unclean (c : char) : bool := (is_control c || is_bom c || is_line_separator c)%bool.

Lemma replace_all_char : forall cs by_ s,
  replace_all (Pattern false (Chr cs)) by_ s
  = flat_map (fun c => if cset_test false cs c then by_ else [c]) s.
Proof. intros. apply replace_all_char_from. Qed.

Lemma flat_map_keep : forall (test : char -> bool) by_ s,
  Forall (fun c => test c = false) s ->
  flat_map (fun c => if test c then by_ else [c]) s = s.
Proof.
  intros test by_ s F. induction F as [|c s Hc F IH]; [reflexivity|].
  cbn [flat_map]. rewrite Hc, IH. reflexivity.
Qed.

Lemma flat_map_removes : forall (test : char -> bool) by_ s,
  Forall (fun c => test c = false) by_ ->
  Forall (fun c => test c = false) (flat_map (fun c => if test c then by_ else [c]) s).
Proof.
  intros test by_ s Hb. induction s as [|c s IH]; [constructor|].
  cbn [flat_map]. apply Forall_app. split; [|exact IH].
  destruct (test c) eqn:E; [exact Hb|]. constructor; [exact E | constructor].
Qed.

Lemma flat_map_preserves : forall (P : char -> Prop) (test : char -> bool) by_ s,
  Forall P by_ -> Forall P s ->
  Forall P (flat_map (fun c => if test c then by_ else [c]) s).
Proof.
  intros P test by_ s Hb F. induction F as [|c s Hc F IH]; [constructor|].
  cbn [flat_map]. apply Forall_app. split; [|exact IH].
  destruct (test c); [exact Hb|]. constructor; [exact Hc | constructor].
Qed.

(** The four replacements of [_cleanText], before [trim]. *)
Definition cleaning (text : jsstring) : jsstring :=
  replace_all re_spaces (lit " ")
    (replace_all re_line_separators (lit " ")
       (replace_all re_bom [] (replace_all re_control [] text))).

Lemma _cleanText_cleaning : forall text, _cleanText (Some text) = trim (cleaning text).
Proof. intros [|c text]; reflexivity. Qed.

Lemma control_test : forall c,
  cset_test false (CClass [ARange 0%N 31%N; ARange 127%N 159%N]) c = is_control c.
Proof. intro c. unfold is_control. cbn. rewrite orb_false_r. reflexivity. Qed.

Lemma bom_test : forall c, cset_test false (CChar 65279%N) c = is_bom c.
Proof. reflexivity. Qed.

Lemma line_separator_test : forall c,
  cset_test false (CClass [AChar 8232%N; AChar 8233%N]) c = is_line_separator c.
Proof. intro c. unfold is_line_separator. cbn. rewrite orb_false_r. reflexivity. Qed.

Lemma cleaning_steps : forall text,
  cleaning text
  = squeeze is_space (lit " ") false
      (flat_map (fun c => if is_line_separator c then lit " " else [c])
         (flat_map (fun c => if is_bom c then [] else [c])
            (flat_map (fun c => if is_control c then [] else [c]) text))).
Proof.
  intro text. unfold cleaning, re_spaces, ContentDetector.re_spaces.
  change (Pattern false (Plus (Chr CSpace))) with (run_of CSpace).
  rewrite replace_all_run. unfold re_line_separators, re_bom, re_control.
  rewrite !replace_all_char. f_equal.
  assert (E : forall (f g : char -> bool) by_ s,
            (forall c, f c = g c) ->
            flat_map (fun c => if f c then by_ else [c]) s
            = flat_map (fun c => if g c then by_ else [c]) s).
  { intros f g by_ s H. induction s as [|c s IH]; [reflexivity|].
    cbn [flat_map]. rewrite H, IH. reflexivity. }
  rewrite (E _ _ _ _ line_separator_test). f_equal.
  rewrite (E _ _ _ _ bom_test). f_equal.
  apply E. exact control_test.
Qed.

Lemma cleaning_clean : forall text, Forall (fun c => unclean c = false) (cleaning text).
Proof.
  intro text. rewrite cleaning_steps.
  apply squeeze_forall; [repeat constructor|].
  set (s1 := flat_map (fun c => if is_control c then [] else [c]) text).
  set (s2 := flat_map (fun c => if is_bom c then [] else [c]) s1).
  set (s3 := flat_map (fun c => if is_line_separator c then lit " " else [c]) s2).
  assert (C1 : Forall (fun c => is_control c = false) s1)
    by (apply flat_map_removes; constructor).
  assert (C2 : Forall (fun c => is_control c = false) s2)
    by (apply flat_map_preserves; [constructor | exact C1]).
  assert (B2 : Forall (fun c => is_bom c = false) s2)
    by (apply flat_map_removes; constructor).
  assert (C3 : Forall (fun c => is_control c = false) s3)
    by (apply flat_map_preserves; [repeat constructor | exact C2]).
  assert (B3 : Forall (fun c => is_bom c = false) s3)
    by (apply flat_map_preserves; [repeat constructor | exact B2]).
  assert (L3 : Forall (fun c => is_line_separator c = false) s3)
    by (apply flat_map_removes; repeat constructor).
  rewrite Forall_forall in *. intros c Hc. unfold unclean.
  rewrite (C3 c Hc), (B3 c Hc), (L3 c Hc). reflexivity.
Qed.

Lemma cleaning_keeps : forall text,
  Forall (fun c => unclean c = false) text -> single_spaces false text = true ->
  cleaning text = text.
Proof.
  intros text F S. rewrite cleaning_steps.
  assert (C : Forall (fun c => is_control c = false) text
              /\ Forall (fun c => is_bom c = false) text
              /\ Forall (fun c => is_line_separator c = false) text).
  { repeat split; eapply Forall_impl; try exact F; intros c Hc; unfold unclean in Hc;
      apply orb_false_iff in Hc; destruct Hc as [Hc Hl];
      apply orb_false_iff in Hc; destruct Hc as [Hc Hb]; assumption. }
  destruct C as (C & B & L).
  rewrite (flat_map_keep is_control [] text C).
  rewrite (flat_map_keep is_bom [] text B).
  rewrite (flat_map_keep is_line_separator (lit " ") text L).
  apply single_spaces_squeeze. exact S.
Qed.

(** X20: the text that [_cleanText] answers has no control character, no
    byte-order mark and no line or paragraph separator; every white-space
    character in it is a single plain space between two other characters.
    A text that is already like that comes back unchanged, so cleaning a
    cleaned text changes nothing. *)
Theorem _cleanText_clean : forall text,
  let r := _cleanText text in
  Forall (fun c => unclean c = false) r
  /\ single_spaces false r = true
  /\ trim r = r
  /\ _cleanText (Some r) = r
  /\ (forall t, Forall (fun c => unclean c = false) t -> single_spaces false t = true ->
                trim t = t -> _cleanText (Some t) = t).
Proof.
  assert (K : forall t, Forall (fun c => unclean c = false) t -> single_spaces false t = true ->
                        trim t = t -> _cleanText (Some t) = t).
  { intros t F S T. rewrite _cleanText_cleaning, (cleaning_keeps t F S). exact T. }
  assert (R : forall t, let r := trim (cleaning t) in
                        Forall (fun c => unclean c = false) r
                        /\ single_spaces false r = true /\ trim r = r).
  { intro t. cbv zeta. split; [|split].
    - apply trim_forall. apply cleaning_clean.
    - apply trim_single_spaces. unfold cleaning, re_spaces, ContentDetector.re_spaces.
      change (Pattern false (Plus (Chr CSpace))) with (run_of CSpace).
      rewrite replace_all_run. apply squeeze_single_spaces.
    - apply trim_idempotent. }
  intros [t|]; cbv zeta.
  - rewrite _cleanText_cleaning. destruct (R t) as (F & S & T). cbv zeta in *.
    repeat split; try assumption. apply K; assumption.
  - cbn [_cleanText]. repeat split; try constructor; try reflexivity. exact K.
Qed.

Lemma _cleanText_clean_witness :
  _cleanText (Some (9%N :: lit " Blade" ++ 8232%N :: lit " Runner " ++ [65279%N]))
  = lit "Blade Runner"
  /\ _cleanText (Some (lit "Blade Runner")) = lit "Blade Runner".
Proof.
  split; [vm_compute; reflexivity|].
  apply (proj2 (proj2 (proj2 (proj2 (_cleanText_clean None)))) (lit "Blade Runner")).
  - repeat constructor.
  - reflexivity.
  - reflexivity.
Defined.

End CleanText.

(* ------------------------------------------------------------------ *)
(** ** TMDbAPI: the best search result                                 *)
(* ------------------------------------------------------------------ *)

Section BestResult.
Import TMDbAPI.

Variable A : Type.
Variable media_type : A -> option jsstring.
Variable ranks_after : A -> A -> bool.

Lemma insert_stable_permutation : forall (x : A) l,
  Permutation (insert_stable ranks_after x l) (x :: l).
Proof.
  intros x l. induction l as [|y l IH]; cbn [insert_stable]; [reflexivity|].
  destruct (ranks_after x y); [|reflexivity].
  rewrite IH. apply perm_swap.
Qed.

Lemma sort_permutation : forall l : list A, Permutation (sort ranks_after l) l.
Proof.
  induction l as [|x l IH]; [reflexivity|].
  unfold sort in *. cbn [fold_right]. rewrite insert_stable_permutation.
  constructor. exact IH.
Qed.

Lemma first_sorted : forall (l : list A) r,
  hd_error (sort ranks_after l) = Some r -> In r l.
Proof.
  intros l r H. apply (Permutation_in r (sort_permutation l)).
  destruct (sort ranks_after l); [discriminate|]. injection H as <-. left. reflexivity.
Qed.

Lemma first_sorted_some : forall (x : A) l, exists r, hd_error (sort ranks_after (x :: l)) = Some r.
Proof.
  intros x l. pose proof (sort_permutation (x :: l)) as P.
  destruct (sort ranks_after (x :: l)) as [|r s]; [|exists r; reflexivity].
  apply Permutation_nil in P. discriminate P.
Qed.

Lemma filtered_first : forall (f : A -> bool) l r,
  hd_error (sort ranks_after match filter f l with [] => l | _ :: _ => filter f l end) = Some r ->
  In r l /\ (existsb f l = true -> f r = true).
Proof.
  intros f l r H. destruct (filter f l) as [|y ys] eqn:F.
  - split; [apply first_sorted; exact H|]. intro E. exfalso.
    apply existsb_exists in E. destruct E as (x & Hx & Fx).
    assert (I : In x (filter f l)) by (apply filter_In; auto).
    rewrite F in I. contradiction.
  - apply first_sorted in H. rewrite <- F in H. apply filter_In in H.
    destruct H as [Hin Hf]. auto.
Qed.

(** X21: [_selectBestResult] answers null only when there is no result;
    otherwise it answers one of the results.  When a movie or a television
    result is asked for and some result has that media type, the answer
    has it; when none has it, the answer is still one of the results, of
    another type. *)
Theorem _selectBestResult_type : forall results mediaType,
  (_selectBestResult media_type ranks_after results mediaType = None
   <-> results = None \/ results = Some [])
  /\ (forall l r,
        results = Some l ->
        _selectBestResult media_type ranks_after results mediaType = Some r ->
        In r l
        /\ (mediaType = lit "movie" -> existsb (has_type media_type "movie") l = true ->
            has_type media_type "movie" r = true)
        /\ (mediaType = lit "tv" -> existsb (has_type media_type "tv") l = true ->
            has_type media_type "tv" r = true)).
Proof.
  intros results mediaType. split.
  - destruct results as [[|x l]|]; cbn [_selectBestResult].
    + split; auto.
    + split; [|intros [H|H]; discriminate H]. intro H. exfalso.
      destruct (str_eqb mediaType (lit "movie")).
      * destruct (filter (has_type media_type "movie") (x :: l)) as [|y ys].
        -- destruct (first_sorted_some x l) as (r & E). congruence.
        -- destruct (first_sorted_some y ys) as (r & E). congruence.
      * destruct (str_eqb mediaType (lit "tv")).
        -- destruct (filter (has_type media_type "tv") (x :: l)) as [|y ys].
           ++ destruct (first_sorted_some x l) as (r & E). congruence.
           ++ destruct (first_sorted_some y ys) as (r & E). congruence.
        -- destruct (first_sorted_some x l) as (r & E). congruence.
    + split; auto.
  - intros l r -> H. destruct l as [|x l]; [discriminate H|].
    cbn [_selectBestResult] in H.
    destruct (str_eqb mediaType (lit "movie")) eqn:M.
    + apply filtered_first in H. destruct H as [Hin Hf].
      split; [exact Hin|]. split; [intros _; exact Hf|].
      intros E. apply str_eqb_eq in M. subst mediaType. discriminate E.
    + destruct (str_eqb mediaType (lit "tv")) eqn:T.
      * apply filtered_first in H. destruct H as [Hin Hf].
        split; [exact Hin|]. split; [|intros _; exact Hf].
        intros E. subst mediaType. discriminate M.
      * assert (Hin : In r (x :: l)) by (apply first_sorted; exact H).
        split; [exact Hin|]. split; intros E; subst mediaType.
        -- discriminate M.
        -- discriminate T.
Qed.

End BestResult.

Lemma _selectBestResult_type_witness :
  let media_type := fun item : jsstring * N => Some (fst item) in
  let ranks_after := fun a b : jsstring * N => N.ltb (snd a) (snd b) in
  let results := [(lit "tv", 9%N); (lit "movie", 3%N); (lit "movie", 5%N)] in
  TMDbAPI._selectBestResult media_type ranks_after (Some results) (lit "movie")
  = Some (lit "movie", 5%N)
  /\ TMDbAPI.has_type media_type "movie" (lit "movie", 5%N) = true.
Proof.
  cbv zeta.
  set (media_type := fun item : jsstring * N => Some (fst item)).
  set (ranks_after := fun a b : jsstring * N => N.ltb (snd a) (snd b)).
  set (results := [(lit "tv", 9%N); (lit "movie", 3%N); (lit "movie", 5%N)]).
  assert (E : TMDbAPI._selectBestResult media_type ranks_after (Some results) (lit "movie")
              = Some (lit "movie", 5%N)) by (vm_compute; reflexivity).
  split; [exact E|].
  destruct (proj2 (_selectBestResult_type _ media_type ranks_after (Some results) (lit "movie"))
              results (lit "movie", 5%N) eq_refl E) as (_ & H & _).
  apply H; reflexivity.
Defined.

(* ------------------------------------------------------------------ *)
(** ** TMDbAPI: names that carry a database id                         *)
(* ------------------------------------------------------------------ *)

(** The lazy repetition of one character set, by recursion on the input. *)
Fixpoint take_lazy (test : char -> bool) (k : cont) (lo : nat)
  (pv : option char) (s : jsstring) (cp : list (nat * jsstring)) {struct s} : option mstate :=
  let step :=
    match s with
    | c :: tl => if test c then take_lazy test k (Nat.pred lo) (Some c) tl cp else None
    | [] => None
    end in
  if lo =? 0 then orelse (k (MState pv s cp)) step else step.

Lemma rep_chr_lazy : forall ic cs k fuel lo pv s cp,
  length s < fuel ->
  rep_loop (m ic (Chr cs)) k false fuel lo None (MState pv s cp) =
  take_lazy (cset_test ic cs) k lo pv s cp.
Proof.
  intros ic cs k fuel. induction fuel as [|fuel IH]; intros lo pv s cp Hf; [lia|].
  cbn [rep_loop]. destruct s as [|c tl].
  - cbn [m rest take_lazy]. destruct lo; cbn; [|reflexivity].
    destruct (k _); reflexivity.
  - cbn [m rest caps take_lazy]. destruct (cset_test ic cs c).
    + replace ((lo =? 0) && (length tl =? length (c :: tl)))%bool with false.
      2:{ symmetry. apply andb_false_iff. right. apply Nat.eqb_neq. simpl. lia. }
      cbn [option_map]. rewrite IH by (simpl in Hf; lia).
      destruct lo; reflexivity.
    + destruct lo; reflexivity.
Qed.

Lemma m_rep_lazy_chr : forall ic cs k lo st,
  m ic (Rep false lo None (Chr cs)) k st =
  take_lazy (cset_test ic cs) k lo (prev st) (rest st) (caps st).
Proof.
  intros. destruct st as [pv s cp]. cbn [m rest prev caps].
  apply rep_chr_lazy. lia.
Qed.

Lemma prev_after_app : forall pv a b, prev_after pv (a ++ b) = prev_after (prev_after pv a) b.
Proof. intros. unfold prev_after. apply fold_left_app. Qed.

(** A lazy repetition goes on while the continuation fails. *)
Lemma take_lazy_skip : forall test k pre r pv cp,
  Forall (fun c => test c = true) pre ->
  (forall p1 p2, pre = p1 ++ p2 -> p2 <> [] ->
     k (MState (prev_after pv p1) (p2 ++ r) cp) = None) ->
  take_lazy test k 0 pv (pre ++ r) cp = take_lazy test k 0 (prev_after pv pre) r cp.
Proof.
  intros test k pre r. induction pre as [|c pre IH]; intros pv cp F H; [reflexivity|].
  inversion F as [|? ? Hc F']; subst.
  cbn [app take_lazy Nat.eqb Nat.pred].
  pose proof (H [] (c :: pre) eq_refl ltac:(discriminate)) as H0.
  unfold prev_after in H0. cbn [fold_left app] in H0.
  rewrite H0. cbn [orelse]. rewrite Hc.
  rewrite IH; [reflexivity | exact F'|].
  intros p1 p2 E N. apply (H (c :: p1) p2); [rewrite E; reflexivity | exact N].
Qed.

Lemma take_lazy_first : forall test k c pre r pv cp res,
  Forall (fun x => test x = true) (c :: pre) ->
  (forall p1 p2, pre = p1 ++ p2 -> p2 <> [] ->
     k (MState (prev_after (Some c) p1) (p2 ++ r) cp) = None) ->
  k (MState (prev_after (Some c) pre) r cp) = Some res ->
  take_lazy test k 1 pv (c :: pre ++ r) cp = Some res.
Proof.
  intros test k c pre r pv cp res F H K. inversion F as [|? ? Hc F']; subst.
  cbn [take_lazy Nat.eqb Nat.pred]. rewrite Hc.
  rewrite (take_lazy_skip test k pre r (Some c) cp F' H).
  destruct r; cbn [take_lazy Nat.eqb]; rewrite K; reflexivity.
Qed.

(** A greedy repetition takes a run and goes on after it. *)
Lemma take_greedy_run : forall test k run rest_ lo pv cp res,
  Forall (fun c => test c = true) run ->
  no_lead test rest_ ->
  lo <= length run ->
  k (MState (prev_after pv run) rest_ cp) = Some res ->
  take_greedy test k lo None pv (run ++ rest_) cp = Some res.
Proof.
  intros test k run rest_. induction run as [|c run IH]; intros lo pv cp res F N L K.
  - simpl in L. assert (lo = 0) by lia. subst lo. cbn [app].
    destruct rest_ as [|d rest_]; cbn [take_greedy Nat.eqb]; [exact K|].
    simpl in N. rewrite N. exact K.
  - inversion F as [|? ? Hc F']; subst. cbn [app take_greedy option_map]. rewrite Hc.
    rewrite (IH (Nat.pred lo) (Some c) cp res F' N); [reflexivity | simpl in L; lia | exact K].
Qed.

(** A greedy repetition fails when the continuation fails all along the
    run and at its end. *)
Lemma take_greedy_blocked_run : forall test k run c rest_ lo pv cp,
  Forall (fun x => test x = true) run ->
  test c = false ->
  (forall pv' x tl, (test x = true \/ x = c) -> k (MState pv' (x :: tl) cp) = None) ->
  take_greedy test k lo None pv (run ++ c :: rest_) cp = None.
Proof.
  intros test k run c rest_. induction run as [|x run IH]; intros lo pv cp F Hc H.
  - cbn [app take_greedy]. rewrite Hc. rewrite (H pv c rest_ (or_intror eq_refl)).
    destruct (lo =? 0); reflexivity.
  - inversion F as [|? ? Hx F']; subst. cbn [app take_greedy option_map]. rewrite Hx.
    rewrite (IH (Nat.pred lo) (Some x) cp F' Hc H).
    rewrite (H pv x (run ++ c :: rest_) (or_introl Hx)).
    destruct (lo =? 0); reflexivity.
Qed.

Section IdNames.
Import TMDbAPI.

Definition is_open (c : char) : bool :=
  cset_test false (CClass [AChar ContentDetector.c_lparen; AChar (ch "(")]) c.
Definition is_close (c : char) : bool :=
  cset_test false (CClass [AChar ContentDetector.c_rparen; AChar (ch ")")]) c.

(** The text before the id: a trimmed, non-empty text on one line with no
    dot and no opening round bracket. *)
Definition plain_title (t : jsstring) : Prop :=
  t <> [] /\ no_lead is_space t /\ no_lead is_space (rev t)
  /\ Forall (fun c => is_dot c = true /\ c <> 46%N /\ is_open c = false) t.

Lemma is_open_spec : forall c, is_open c = true -> c = 65288%N \/ c = 40%N.
Proof.
  intros c H. unfold is_open in H. cbn in H. rewrite orb_false_r in H.
  apply orb_true_iff in H. destruct H as [H|H]; apply N.eqb_eq in H; auto.
Qed.

Lemma is_close_spec : forall c, is_close c = true -> c = 65289%N \/ c = 41%N.
Proof.
  intros c H. unfold is_close in H. cbn in H. rewrite orb_false_r in H.
  apply orb_true_iff in H. destruct H as [H|H]; apply N.eqb_eq in H; auto.
Qed.

Lemma space_not_open : forall c, is_space c = true -> is_open c = false.
Proof.
  intros c H. destruct (is_open c) eqn:E; [|reflexivity].
  apply is_open_spec in E. destruct E as [-> | ->]; discriminate H.
Qed.

Lemma no_dot_keeps_name : forall s,
  Forall (fun c => c <> 46%N) s -> replace_first re_extension [] s = s.
Proof.
  intros s F. unfold replace_first. apply (replace_first_no_match _ _ _ _ 0).
  generalize (@None char) as pv. generalize 0 as idx.
  induction F as [|c s Hc F IH]; intros idx pv; [reflexivity|].
  cbn [exec_from].
  assert (M : match_here re_extension pv (c :: s) = None).
  { unfold match_here, re_extension. cbn [p_icase p_re seq].
    rewrite m_seq. unfold Str. cbn [lit chars list_ascii_of_string map].
    rewrite m_chr_cons. cbn [cset_test].
    destruct (N.eqb c (N_of_ascii "."%char)) eqn:E; [|reflexivity].
    apply N.eqb_eq in E. subst c. exfalso. apply Hc. reflexivity. }
  rewrite M. apply IH.
Qed.

Lemma last_not_space : forall p1 p2,
  p2 <> [] -> no_lead is_space (rev (p1 ++ p2)) ->
  exists run c d, p2 = run ++ c :: d
                  /\ Forall (fun x => is_space x = true) run /\ is_space c = false.
Proof.
  intros p1 p2 N L.
  destruct (drop_while_split is_space p2) as (run & E & F).
  destruct (drop_while is_space p2) as [|c d] eqn:D.
  - exfalso. rewrite app_nil_r in E. subst run.
    rewrite rev_app_distr in L. destruct (rev p2) as [|z q] eqn:R.
    + apply (f_equal (@rev char)) in R. rewrite rev_involutive in R. cbn in R. contradiction.
    + cbn in L. assert (Hz : In z p2) by (apply in_rev; rewrite R; left; reflexivity).
      rewrite Forall_forall in F. rewrite (F z Hz) in L. discriminate L.
  - exists run, c, d. split; [exact E|]. split; [exact F|].
    pose proof (drop_while_no_lead is_space p2) as NL. rewrite D in NL. exact NL.
Qed.

Lemma tmdbIdPattern_matches : forall t sp op ds cl tail,
  plain_title t ->
  Forall (fun c => is_space c = true) sp ->
  is_open op = true -> is_close cl = true ->
  ds <> [] -> Forall (fun c => is_digit c = true) ds ->
  Forall (fun c => is_dot c = true) tail ->
  exists pv,
    match_here tmdbIdPattern None (t ++ sp ++ op :: ds ++ cl :: tail)
    = Some (MState pv [] [(2, ds); (1, t)]).
Proof.
  intros t sp op ds cl tail (Nt & Lt & Rt & Ft) Fsp Hop Hcl Nds Fds Ftail.
  destruct t as [|c0 t']; [contradiction|].
  inversion Ft as [|? ? (D0 & _ & O0) Ft']; subst.
  assert (Sop : is_space op = false).
  { apply is_open_spec in Hop. destruct Hop as [-> | ->]; reflexivity. }
  assert (Dcl : is_digit cl = false).
  { apply is_close_spec in Hcl. destruct Hcl as [-> | ->]; reflexivity. }
  destruct (drop_while_split is_space tail) as (run & Etail & Frun).
  eexists. unfold match_here, tmdbIdPattern. cbn [p_icase p_re seq].
  rewrite m_seq, m_bol_start, m_seq, m_grp, m_rep_lazy_chr. cbn [prev rest caps app].
  apply take_lazy_first.
  - constructor; [exact D0|]. eapply Forall_impl; [|exact Ft']. intros c (H & _). exact H.
  - intros p1 p2 E N. cbn beta. cbn [prev rest caps].
    rewrite m_seq. unfold Star at 1. rewrite m_rep_chr. cbn [prev rest caps cset_test].
    destruct (last_not_space (c0 :: p1) p2 N) as (r1 & c & d & E2 & Fr & Hc).
    { cbn [app]. rewrite <- E. exact Rt. }
    rewrite E2, <- app_assoc. cbn [app].
    apply take_greedy_blocked_run; [exact Fr | exact Hc|].
    intros pv' x tl Hx. rewrite m_seq, m_chr_cons.
    fold (is_open x).
    assert (Ox : is_open x = false).
    { destruct Hx as [Hx| ->]; [apply space_not_open; exact Hx|].
      rewrite Forall_forall in Ft'. apply Ft'. rewrite E, E2.
      apply in_or_app. right. apply in_or_app. right. left. reflexivity. }
    rewrite Ox. reflexivity.
  - cbn beta. cbn [prev rest caps].
    rewrite (consumed_prefix (MState None (c0 :: t' ++ sp ++ op :: ds ++ cl :: tail) [])
               (MState (prev_after (Some c0) t') (sp ++ op :: ds ++ cl :: tail) [])
               (c0 :: t')) by reflexivity.
    rewrite m_seq. unfold Star at 1. rewrite m_rep_chr. cbn [prev rest caps cset_test].
    apply take_greedy_run; [exact Fsp | exact Sop | apply Nat.le_0_l |].
    rewrite m_seq, m_chr_cons. fold (is_open op). rewrite Hop.
    rewrite m_seq, m_grp. unfold Plus. rewrite m_rep_chr. cbn [prev rest caps cset_test].
    apply take_greedy_run; [exact Fds | exact Dcl | destruct ds; [contradiction | simpl; lia] |].
    cbn beta. cbn [prev rest caps].
    rewrite (consumed_prefix (MState (Some op) (ds ++ cl :: tail) _)
               (MState (prev_after (Some op) ds) (cl :: tail) _) ds) by reflexivity.
    rewrite m_seq, m_chr_cons. fold (is_close cl). rewrite Hcl.
    rewrite m_seq. unfold Star at 1. rewrite m_rep_chr. cbn [prev rest caps cset_test].
    rewrite Etail at 1.
    apply take_greedy_run; [exact Frun | apply drop_while_no_lead | apply Nat.le_0_l |].
    rewrite m_seq. unfold Star. rewrite m_rep_chr. cbn [prev rest caps cset_test].
    rewrite take_greedy_all; [reflexivity | | apply Nat.le_0_l].
    rewrite Etail in Ftail. apply Forall_app in Ftail. apply Ftail.
Qed.

Lemma extension_removed : forall name ext : jsstring,
  Forall (fun c => c <> 46%N) name ->
  ext <> [] -> Forall (fun c => c <> 46%N /\ c <> 47%N) ext ->
  replace_first re_extension [] (name ++ ch "." :: ext) = name.
Proof.
  intros name ext F N Fe. unfold replace_first. generalize (@None char) as pv.
  induction name as [|c s IH]; intros pv.
  - cbn [app]. destruct ext as [|e ext]; [contradiction|].
    assert (M : match_here re_extension pv (ch "." :: e :: ext)
                = Some (MState (prev_after (Some (ch ".")) (e :: ext)) [] [])).
    { unfold match_here, re_extension. cbn [p_icase p_re seq].
      rewrite m_seq. unfold Str. cbn [lit chars list_ascii_of_string map].
      rewrite m_chr_cons. cbn [cset_test]. rewrite N.eqb_refl.
      rewrite m_seq. unfold Plus. rewrite m_rep_chr. cbn [prev rest caps].
      apply take_greedy_all; [|simpl; lia].
      eapply Forall_impl; [|exact Fe]. intros c (H1 & H2). cbn.
      rewrite orb_false_r. apply negb_true_iff. apply orb_false_iff.
      split; apply N.eqb_neq; assumption. }
    cbn [replace_first_from]. rewrite M. reflexivity.
  - inversion F as [|? ? Hc F']; subst. cbn [app replace_first_from].
    assert (M : match_here re_extension pv (c :: s ++ ch "." :: ext) = None).
    { unfold match_here, re_extension. cbn [p_icase p_re seq].
      rewrite m_seq. unfold Str. cbn [lit chars list_ascii_of_string map].
      rewrite m_chr_cons. cbn [cset_test].
      destruct (N.eqb c (N_of_ascii "."%char)) eqn:E; [|reflexivity].
      apply N.eqb_eq in E. subst c. exfalso. apply Hc. reflexivity. }
    rewrite M. rewrite (IH F'). reflexivity.
Qed.

(** A name that carries an id: the title, white space, the digits in
    round brackets (ASCII or full width), and more text on the line. *)
Definition id_name (t sp : jsstring) (op : char) (ds : jsstring) (cl : char)
  (tail : jsstring) : jsstring :=
  t ++ sp ++ op :: ds ++ cl :: tail.

Lemma id_name_no_dot : forall t sp op ds cl tail,
  plain_title t ->
  Forall (fun c => is_space c = true) sp ->
  is_open op = true -> is_close cl = true ->
  Forall (fun c => is_digit c = true) ds ->
  Forall (fun c => is_dot c = true /\ c <> 46%N) tail ->
  Forall (fun c => c <> 46%N) (id_name t sp op ds cl tail).
Proof.
  intros t sp op ds cl tail (_ & _ & _ & Ft) Fsp Hop Hcl Fds Ftail.
  unfold id_name. apply Forall_app. split.
  { eapply Forall_impl; [|exact Ft]. intros c (_ & H & _). exact H. }
  apply Forall_app. split.
  { eapply Forall_impl; [|exact Fsp]. intros c H E. subst c. discriminate H. }
  constructor.
  { apply is_open_spec in Hop. destruct Hop as [-> | ->]; discriminate. }
  apply Forall_app. split.
  { eapply Forall_impl; [|exact Fds]. intros c H E. subst c. discriminate H. }
  constructor.
  { apply is_close_spec in Hcl. destruct Hcl as [-> | ->]; discriminate. }
  eapply Forall_impl; [|exact Ftail]. intros c (_ & H). exact H.
Qed.

(** X22: [_extractTmdbId] reads a name that carries an id back: for a
    trimmed, non-empty title without dot and opening round bracket,
    followed by optional white space, one to fifteen digits of a positive
    number between round brackets (ASCII or full width, in any
    combination) and any dot-free text on the same line, the result is
    that title and that number; and the same holds when a file extension
    is appended to the name. *)
Theorem _extractTmdbId_reads_id : forall (t sp : jsstring) (op : char) (ds : jsstring)
  (cl : char) (tail ext : jsstring),
  plain_title t ->
  Forall (fun c => is_space c = true) sp ->
  is_open op = true -> is_close cl = true ->
  digit_string 15 ds -> (0 < dec_value ds)%Z ->
  Forall (fun c => is_dot c = true /\ c <> 46%N) tail ->
  ext <> [] -> Forall (fun c => c <> 46%N /\ c <> 47%N) ext ->
  _extractTmdbId (id_name t sp op ds cl tail) = Some (TmdbId t (dec_value ds))
  /\ _extractTmdbId (id_name t sp op ds cl tail ++ ch "." :: ext)
     = Some (TmdbId t (dec_value ds)).
Proof.
  intros t sp op ds cl tail ext Pt Fsp Hop Hcl Dd Pos Ftail Ne Fe.
  pose proof Dd as (Nds & _ & Fds).
  pose proof (id_name_no_dot t sp op ds cl tail Pt Fsp Hop Hcl Fds Ftail) as ND.
  assert (R : _extractTmdbId (id_name t sp op ds cl tail) = Some (TmdbId t (dec_value ds))).
  { unfold _extractTmdbId. rewrite (no_dot_keeps_name _ ND).
    destruct (tmdbIdPattern_matches t sp op ds cl tail Pt Fsp Hop Hcl Nds Fds) as (pv & M).
    { eapply Forall_impl; [|exact Ftail]. intros c (H & _). exact H. }
    unfold exec, id_name. rewrite (exec_from_here _ _ _ 0 _ M).
    cbn [group m_caps lookup Nat.eqb caps].
    rewrite (parseInt_digits 15 ds false Dd).
    destruct Pt as (Nt & Lt & Rt & _).
    assert (T : trim t = t).
    { unfold trim. rewrite (no_lead_drop_while is_space t Lt).
      rewrite (no_lead_drop_while is_space (rev t) Rt). apply rev_involutive. }
    rewrite T. destruct t as [|c0 t']; [contradiction|].
    apply Z.ltb_lt in Pos. rewrite Pos. reflexivity. }
  split; [exact R|].
  unfold _extractTmdbId in R |- *. rewrite (no_dot_keeps_name _ ND) in R.
  rewrite (extension_removed _ ext ND Ne Fe). exact R.
Qed.

End IdNames.

Lemma _extractTmdbId_reads_id_witness :
  TMDbAPI._extractTmdbId (lit "Blade Runner (1982) remastered")
    = Some (TMDbAPI.TmdbId (lit "Blade Runner") 1982)
  /\ TMDbAPI._extractTmdbId (lit "Blade Runner (1982) remastered.mkv")
    = Some (TMDbAPI.TmdbId (lit "Blade Runner") 1982).
Proof.
  apply (_extractTmdbId_reads_id (lit "Blade Runner") (lit " ") (ch "(") (lit "1982")
           (ch ")") (lit " remastered") (lit "mkv")).
  - unfold plain_title. split; [discriminate|]. split; [reflexivity|]. split; [reflexivity|].
    repeat constructor; try reflexivity; discriminate.
  - repeat constructor.
  - reflexivity.
  - reflexivity.
  - split; [discriminate|]. split; [simpl; lia|]. repeat constructor.
  - reflexivity.
  - repeat constructor; try reflexivity; discriminate.
  - discriminate.
  - repeat constructor; discriminate.
Defined.
